(** * ZeroTier VL1 core: Topology and the VL1 ingress pipeline

    A shallow embedding of [Topology.cpp], [Trace.hpp] and [attic/core/VL1.cpp].
    Peer and Path objects are shared through [SharedPtr] handles in the source;
    here a handle is an integer and the objects live in a store ([objs]), so
    that the peer map, the root list and the packet pipeline alias the same
    object.  Calls into collaborators whose sources are not part of the
    repository slice (cryptographic primitives, the defragmenter, the VL2
    handlers, the persistent store) are fields of the classes [Constants] and
    [Collaborators]; every statement below holds for all of their
    implementations. *)

From stdpp Require Import base numbers option list gmap.

#[local] Open Scope Z_scope.

(** ** Numeric constants declared in headers outside this slice *)

Class Constants := {
  ZT_PATH_KEEPALIVE_PERIOD : Z;
  ZT_PEER_ALIVE_TIMEOUT : Z;
  ZT_PEER_GLOBAL_TIMEOUT : Z;
  ZT_PATH_ALIVE_TIMEOUT : Z;
  ZT_WHOIS_RETRY_DELAY : Z;
  ZT_VL1_MAX_WHOIS_WAITING_PACKETS : Z;
  ZT_BUF_MEM_SIZE : Z;
  ZT_DEFAULT_UDP_MTU : Z;
  ZT_PROTO_VERSION_MIN : Z;
  ZT_PROTO_VERSION : Z;
  ZEROTIER_VERSION_MAJOR : Z;
  ZEROTIER_VERSION_MINOR : Z;
  ZEROTIER_VERSION_REVISION : Z;
  ZT_PROTO_FLAG_FRAGMENTED : Z;
  ZT_PROTO_FLAG_FIELD_HOPS_MASK : Z;
  ZT_PROTO_PACKET_ENCRYPTED_SECTION_START : Z;
  ZT_VL1_AUTH_RESULT_FLAG_AUTHENTICATED : Z;
  ZT_VL1_AUTH_RESULT_FLAG_ENCRYPTED : Z;
  (** Size of the inbound packet-id dedup ring of a Peer and time to live of
      an entry of the Expect table. *)
  DEDUP_WINDOW : nat;
  ZT_EXPECT_TTL : Z;
  (** Default of the [loadFromCached] argument of [Topology::peer], declared
      in [Topology.hpp]. *)
  peer_loadFromCached_default : bool
}.

(** ** Data model *)

Record Identity := mkIdentity {
  id_address : Z;
  id_type : Z;
  id_public : list Z
}.

#[global] Instance Identity_eq_dec : EqDecision Identity.
Proof. solve_decision. Defined.

Definition Identity_NIL : Identity := mkIdentity 0 0 [].

(** Modelled from the spec: [Peer.hpp] is absent.  The fields are the ones
    section 3 of the specification lists for a Peer and that the code under
    study reads or writes: identity, raw identity key, last-receive time,
    latency, the inbound packet-id dedup ring, the remote version, the message
    counter of the symmetric key and the preferred path. *)
Record Peer := mkPeer {
  m_id : Identity;
  m_identityKey : list Z;
  m_lastReceive : Z;
  m_latency : Z;
  m_dedup : list Z;
  m_remoteVersion : option (Z * Z * Z * Z);
  m_keyCounter : Z;
  m_bestPath : option (Z * Z)
}.

Definition Peer_new : Peer := mkPeer Identity_NIL [] 0 (-1) [] None 0 None.

Definition address (p : Peer) : Z := id_address (m_id p).

Definition Peer_with_lastReceive (t : Z) (p : Peer) : Peer :=
  mkPeer (m_id p) (m_identityKey p) t (m_latency p) (m_dedup p)
         (m_remoteVersion p) (m_keyCounter p) (m_bestPath p).

Definition Peer_with_dedup (d : list Z) (p : Peer) : Peer :=
  mkPeer (m_id p) (m_identityKey p) (m_lastReceive p) (m_latency p) d
         (m_remoteVersion p) (m_keyCounter p) (m_bestPath p).

Definition Peer_with_remoteVersion (v : Z * Z * Z * Z) (p : Peer) : Peer :=
  mkPeer (m_id p) (m_identityKey p) (m_lastReceive p) (m_latency p) (m_dedup p)
         (Some v) (m_keyCounter p) (m_bestPath p).

Definition Peer_with_keyCounter (c : Z) (p : Peer) : Peer :=
  mkPeer (m_id p) (m_identityKey p) (m_lastReceive p) (m_latency p) (m_dedup p)
         (m_remoteVersion p) c (m_bestPath p).

Definition Peer_with_bestPath (k : Z * Z) (p : Peer) : Peer :=
  mkPeer (m_id p) (m_identityKey p) (m_lastReceive p) (m_latency p) (m_dedup p)
         (m_remoteVersion p) (m_keyCounter p) (Some k).

(** A Path is keyed by (local socket, remote address).  [path_refs] counts the
    [SharedPtr] references to the object, the one held by the Topology map
    included.  The model does not follow who holds a path: no operation
    changes the count, and [weakGC] reads it as the state has it.  Of the
    fields the specification lists, the last-sent time is not modelled. *)
Record Path := mkPath {
  path_refs : nat;
  path_lastIn : Z;
  path_bytesIn : Z
}.

(** [ZT_TracePacketDropReason], as far as VL1 uses it. *)
Inductive DropReason :=
| MAC_FAILED
| INVALID_OBJECT
| INVALID_COMPRESSED_DATA
| PEER_TOO_OLD
| MALFORMED_PACKET
| REPLY_NOT_EXPECTED
| UNRECOGNIZED_VERB
| UNSPECIFIED.

#[global] Instance DropReason_eq_dec : EqDecision DropReason.
Proof. solve_decision. Defined.

(** Calls that leave the core, in program order.  [EvIncomingPacketDropped] is
    a call of the inline hook [Trace::incomingPacketDropped]. *)
Inductive Event :=
| EvIncomingPacketDropped (codeLocation packetId : Z) (peerIdentity : Identity)
                          (hops verb : Z) (reason : DropReason)
| EvUnexpectedError (codeLocation : Z)
| EvHandler (verb packetId auth peer : Z) (pkt : list Z) (pktSize : Z)
| EvPeerReceived (peer hops packetId payloadLen verb inReVerb : Z)
| EvSetRemoteVersion (peer proto major minor rev : Z)
| EvPeerSend (peer : Z) (bytes : list Z) (len : Z) (path : Z * Z)
| EvPeerSave (peer : Z)
| EvPeerRelease (peer : Z)
| EvPathDeleted (path : Z * Z).

#[global] Instance Event_eq_dec : EqDecision Event.
Proof. solve_decision. Defined.

(** One entry of [VL1::m_whoisQueue]. *)
Record p_WhoisQueueItem := mkWhoisItem {
  lastRetry : Z;
  retries : Z;
  waitingPacketCount : Z;
  waitingPacketSize : gmap Z Z;
  waitingPacket : gmap Z (list Z)
}.

Definition WhoisItem_new : p_WhoisQueueItem := mkWhoisItem 0 0 0 ∅ ∅.

(** ** Wire format *)

(** Modelled from the spec: [Protocol.hpp] is absent; the offsets are the
    header table of section 4.1, the verb and cipher numbers its lists. *)
Definition ZT_PROTO_PACKET_ID_INDEX : Z := 0.
Definition ZT_PROTO_PACKET_DESTINATION_INDEX : Z := 8.
Definition ZT_PROTO_PACKET_SOURCE_INDEX : Z := 13.
Definition ZT_PROTO_PACKET_FLAGS_INDEX : Z := 18.
Definition ZT_PROTO_PACKET_MAC_INDEX : Z := 19.
Definition ZT_PROTO_PACKET_VERB_INDEX : Z := 27.
Definition ZT_PROTO_PACKET_PAYLOAD_START : Z := 28.
Definition ZT_PROTO_MIN_PACKET_LENGTH : Z := 28.
Definition ZT_PROTO_MIN_FRAGMENT_LENGTH : Z := 16.
Definition ZT_PROTO_PACKET_FRAGMENT_INDICATOR_INDEX : Z := 13.
Definition ZT_PROTO_PACKET_FRAGMENT_INDICATOR : Z := 0xff.
Definition ZT_PROTO_PACKET_FRAGMENT_COUNTS : Z := 14.
Definition ZT_PROTO_PACKET_FRAGMENT_PAYLOAD_START_AT : Z := 16.
Definition ZT_ADDRESS_LENGTH : Z := 5.
Definition ZT_PROTO_VERB_MASK : Z := 0x1f.
Definition ZT_PROTO_VERB_FLAG_COMPRESSED : Z := 0x80.
Definition ZT_HMACSHA384_LEN : Z := 48.
Definition ZT_POLY1305_KEY_SIZE : Z := 32.

Definition ZT_PROTO_CIPHER_NONE : Z := 0.
Definition ZT_PROTO_CIPHER_POLY1305_NONE : Z := 1.
Definition ZT_PROTO_CIPHER_POLY1305_SALSA2012 : Z := 2.
Definition ZT_PROTO_CIPHER_AES_GMAC_SIV : Z := 3.

Definition VERB_NOP : Z := 0.
Definition VERB_HELLO : Z := 1.
Definition VERB_ERROR : Z := 2.
Definition VERB_OK : Z := 3.
Definition VERB_WHOIS : Z := 4.
Definition VERB_RENDEZVOUS : Z := 5.
Definition VERB_FRAME : Z := 6.
Definition VERB_EXT_FRAME : Z := 7.
Definition VERB_ECHO : Z := 8.
Definition VERB_MULTICAST_LIKE : Z := 9.
Definition VERB_NETWORK_CREDENTIALS : Z := 10.
Definition VERB_NETWORK_CONFIG_REQUEST : Z := 11.
Definition VERB_NETWORK_CONFIG : Z := 12.
Definition VERB_MULTICAST_GATHER : Z := 13.
Definition VERB_MULTICAST_FRAME_deprecated : Z := 14.
Definition VERB_PUSH_DIRECT_PATHS : Z := 16.
Definition VERB_USER_MESSAGE : Z := 20.
Definition VERB_MULTICAST : Z := 22.
Definition VERB_ENCAP : Z := 23.

(** ** Buffers

    A [Buf] is its byte array; a byte outside the list reads as zero. *)
Definition byte_at (b : list Z) (i : Z) : Z := default 0 (b !! Z.to_nat i).

Definition bytes_at (b : list Z) (i n : Z) : list Z := byte_at b <$> seqZ i n.

Definition be_value (bs : list Z) : Z := foldl (λ acc x, acc * 256 + x) 0 bs.

(** [Buf::lI8], [lI16], [lI64], [rI8], [rI16], [rI64]: big-endian loads. *)
Definition loadBigEndian (b : list Z) (i n : Z) : Z := be_value (bytes_at b i n).

(** [Utils::loadMachineEndian<uint64_t>], on a little-endian host. *)
Definition loadMachineEndian64 (b : list Z) (i : Z) : Z := be_value (rev (bytes_at b i 8)).

(** Constructor of [Address] from wire bytes: five bytes, most significant first. *)
Definition Address_at (b : list Z) (i : Z) : Z := loadBigEndian b i ZT_ADDRESS_LENGTH.

Definition be_bytes (n : Z) (v : Z) : list Z :=
  (λ k, Z.land (Z.shiftr v (8 * k)) 0xff) <$> rev (seqZ 0 n).

(** Store [bs] at index [i], as [Buf::wI8], [wI16], [wI64], [wB] and [wO] do. *)
Definition Buf_write (b : list Z) (i : Z) (bs : list Z) : list Z :=
  take (Z.to_nat i) (b ++ replicate (Z.to_nat i - length b) 0)
    ++ bs ++ drop (Z.to_nat i + length bs) b.

(** Modelled from the spec: [Buf::readOverflow] is absent; a read overflowed
    when the cursor has moved past the packet (MALFORMED_PACKET in section 7). *)
Definition readOverflow (ii size : Z) : bool := size <? ii.

(** [Buf::Slice]: bytes [s, e) of buffer [b]. *)
Record Slice := mkSlice {
  sl_b : list Z;
  sl_s : Z;
  sl_e : Z
}.

Definition slice_bytes (s : Slice) : list Z := bytes_at (sl_b s) (sl_s s) (sl_e s - sl_s s).

(** Results of [Defragmenter::assemble]. *)
Inductive AssembleResult :=
| OK
| COMPLETE
| ERR_DUPLICATE_FRAGMENT
| ERR_INVALID_FRAGMENT
| ERR_TOO_MANY_FRAGMENTS_FOR_PATH
| ERR_OUT_OF_MEMORY.

(** A call of a VL2 handler returns its [bool] or throws. *)
Inductive HandlerResult :=
| HReturn (ok : bool)
| HThrow.

(** ** Collaborators outside this slice *)

Class Collaborators := {
  Salsa20 : Type;
  Salsa20_new : list Z → Z → Salsa20;
  Salsa20_crypt12 : Salsa20 → list Z → Salsa20 * list Z;
  Poly1305 : Type;
  Poly1305_init : list Z → Poly1305;
  Poly1305_update : Poly1305 → list Z → Poly1305;
  (** the two 64-bit words of the tag *)
  Poly1305_finish : Poly1305 → Z * Z;
  salsa2012DeriveKey : list Z → list Z → Z → list Z;
  HMACSHA384 : list Z → list Z → list Z;
  identityHelloHmacKey : Peer → list Z;
  identityHelloDictionaryEncryptionCipher : Peer → list Z;
  AES_CTR_crypt : list Z → list Z → list Z → list Z;
  Dictionary_decode : list Z → bool;
  LZ4_decompress_safe : list Z → Z → Z * list Z;
  (** [unmarshal] returns the number of bytes read, negative on failure *)
  Identity_unmarshal : list Z → Z * Identity;
  Identity_locallyValidate : Identity → bool;
  InetAddress_unmarshal : list Z → Z;
  InetAddress_marshal : Z → list Z;
  (** [Peer::init]: the key agreed with the identity, if any *)
  Peer_init : Identity → Identity → option (list Z);
  Peer_cipher : Peer → Z;
  (** [SymmetricKey::nextMessage]: packet id made from the message counter *)
  nextMessage : Z → Z → Z → Z;
  (** [Protocol::armor] on a packet, its length, the peer whose key is used
      and the cipher: the packet id it returns and the armored bytes *)
  Protocol_armor : list Z → Z → Peer → Z → Z * list Z;
  Defragmenter : Type;
  assemble : Defragmenter → Z → list Z → Z → Z → Z → Z → Z → Z * Z →
             Defragmenter * AssembleResult * list Slice;
  VL2_handler : Z → Z → Z → Z → list Z → Z → HandlerResult;
  (** value returned by a handler whose body is compiled out ([#if 0]) *)
  missing_return : Z → Z → list Z → Z → bool
}.

Section Model.
Context {constants : Constants} {collaborators : Collaborators}.

(** Everything reachable from [Context] and from the [VL1] object. *)
Record Node := mkNode {
  m_identity : Identity;
  objs : gmap Z Peer;
  m_peers : gmap Z Z;
  m_roots : list Z;
  m_bestRoot : option Z;
  m_paths : gmap (Z * Z) Path;
  store : gmap Z (Z * option Peer);
  m_whoisQueue : gmap Z p_WhoisQueueItem;
  expect : gmap Z Z;
  m_inputPacketAssembler : Defragmenter;
  events : list Event
}.

Definition with_objs (o : gmap Z Peer) (w : Node) : Node :=
  mkNode (m_identity w) o (m_peers w) (m_roots w) (m_bestRoot w) (m_paths w) (store w)
         (m_whoisQueue w) (expect w) (m_inputPacketAssembler w) (events w).
Definition with_peers (m : gmap Z Z) (w : Node) : Node :=
  mkNode (m_identity w) (objs w) m (m_roots w) (m_bestRoot w) (m_paths w) (store w)
         (m_whoisQueue w) (expect w) (m_inputPacketAssembler w) (events w).
Definition with_roots (r : list Z) (b : option Z) (w : Node) : Node :=
  mkNode (m_identity w) (objs w) (m_peers w) r b (m_paths w) (store w)
         (m_whoisQueue w) (expect w) (m_inputPacketAssembler w) (events w).
Definition with_paths (m : gmap (Z * Z) Path) (w : Node) : Node :=
  mkNode (m_identity w) (objs w) (m_peers w) (m_roots w) (m_bestRoot w) m (store w)
         (m_whoisQueue w) (expect w) (m_inputPacketAssembler w) (events w).
Definition with_whoisQueue (q : gmap Z p_WhoisQueueItem) (w : Node) : Node :=
  mkNode (m_identity w) (objs w) (m_peers w) (m_roots w) (m_bestRoot w) (m_paths w) (store w)
         q (expect w) (m_inputPacketAssembler w) (events w).
Definition with_expect (e : gmap Z Z) (w : Node) : Node :=
  mkNode (m_identity w) (objs w) (m_peers w) (m_roots w) (m_bestRoot w) (m_paths w) (store w)
         (m_whoisQueue w) e (m_inputPacketAssembler w) (events w).
Definition with_assembler (d : Defragmenter) (w : Node) : Node :=
  mkNode (m_identity w) (objs w) (m_peers w) (m_roots w) (m_bestRoot w) (m_paths w) (store w)
         (m_whoisQueue w) (expect w) d (events w).
Definition emit (e : Event) (w : Node) : Node :=
  mkNode (m_identity w) (objs w) (m_peers w) (m_roots w) (m_bestRoot w) (m_paths w) (store w)
         (m_whoisQueue w) (expect w) (m_inputPacketAssembler w) (events w ++ [e]).

(** Dereference of a [SharedPtr<Peer>].  A handle always designates a live
    object in the source; the default keeps the function total. *)
Definition deref (w : Node) (p : Z) : Peer := default Peer_new (objs w !! p).

Definition update_peer (p : Z) (f : Peer → Peer) (w : Node) : Node :=
  with_objs (<[p := f (deref w p)]> (objs w)) w.

(** [new Peer()]: a handle that designates no object yet. *)
Definition new_handle (w : Node) : Z := fresh (dom (objs w)).

(** ** Topology.cpp *)

(** [Topology::m_loadCached].  An entry of [store] is the 64-bit timestamp in
    front of the stored record and the result of [Peer::unmarshal] on the rest
    ([None] when it returns a negative number); a missing entry stands for a
    record of at most eight bytes. *)
Definition m_loadCached (ticks zta : Z) (w : Node) : option Peer :=
  match store w !! zta with
  | Some (ts, Some p) => if ticks - ts <? ZT_PEER_GLOBAL_TIMEOUT then Some p else None
  | _ => None
  end.

(** [Topology::m_peerFromCached] *)
Definition m_peerFromCached (ticks zta : Z) (w : Node) : option Z * Node :=
  match m_loadCached ticks zta w with
  | Some p =>
      match m_peers w !! zta with
      | Some hp => (Some hp, w)
      | None =>
          let h := new_handle w in
          (Some h, with_peers (<[zta := h]> (m_peers w)) (with_objs (<[h := p]> (objs w)) w))
      end
  | None => (None, w)
  end.

(** Modelled from the spec: [Topology::peer] is declared in the absent
    [Topology.hpp]; section 4.5 says it returns the in-memory peer, else loads
    it from the persistent store if asked to, else returns nothing. *)
Definition Topology_peer (ticks zta : Z) (loadFromCached : bool) (w : Node) : option Z * Node :=
  match m_peers w !! zta with
  | Some hp => (Some hp, w)
  | None => if loadFromCached then m_peerFromCached ticks zta w else (None, w)
  end.

(** [Topology::add]; [peer] is a handle whose object is already in [objs]. *)
Definition Topology_add (ticks peer : Z) (w : Node) : Z * Node :=
  let a := address (deref w peer) in
  match m_peers w !! a with
  | Some hp => (hp, w)
  | None =>
      match m_loadCached ticks a w with
      | Some p =>
          let h := new_handle w in
          (h, with_peers (<[a := h]> (m_peers w)) (with_objs (<[h := p]> (objs w)) w))
      | None => (peer, with_peers (<[a := peer]> (m_peers w)) w)
      end
  end.

(** [p_RootRankingComparisonOperator::operator()]; 64-bit division truncates. *)
Definition p_RootRankingComparisonOperator (a b : Peer) : bool :=
  let alr := m_lastReceive a `quot` (ZT_PATH_KEEPALIVE_PERIOD `quot` 2) in
  let blr := m_lastReceive b `quot` (ZT_PATH_KEEPALIVE_PERIOD `quot` 2) in
  if alr <? blr then true
  else if blr =? alr then
    let bb := m_latency b in
    if bb <? 0 then true else bb <? m_latency a
  else false.

(** [std::sort(first, last, comp)].  The standard fixes the result only up to
    the order of equivalent elements; the model is the insertion sort that the
    usual implementations run on short ranges.  [linear_insert] works on the
    sorted prefix in reverse, moving [val] towards the front while
    [comp val next] holds. *)
Fixpoint linear_insert {A} (comp : A → A → bool) (val : A) (rprefix : list A) : list A :=
  match rprefix with
  | [] => [val]
  | next :: rest =>
      if comp val next then next :: linear_insert comp val rest else val :: rprefix
  end.

Definition std_sort {A} (comp : A → A → bool) (l : list A) : list A :=
  rev (foldl (λ acc x, linear_insert comp x acc) [] l).

(** What [std::sort] promises of its result: a rearrangement of the input in
    which no element is ordered before an earlier one. *)
Definition sorted_by {A} (comp : A → A → bool) (l : list A) : Prop :=
  ∀ (i j : nat) x y, (i < j)%nat → l !! i = Some x → l !! j = Some y → comp y x = false.

(** [Topology::m_rankRoots] *)
Definition m_rankRoots (w : Node) : Node :=
  match m_roots w with
  | [] => with_roots [] None w
  | _ =>
      let sorted :=
        std_sort (λ a b, p_RootRankingComparisonOperator (deref w a) (deref w b)) (m_roots w) in
      with_roots sorted (head sorted) w
  end.

(** Modelled from the spec: [Topology::root] is declared in the absent
    [Topology.hpp]; it hands out the best root chosen by the last ranking. *)
Definition Topology_root (w : Node) : option Z := m_bestRoot w.

(** [std::binary_search] over the sorted vector of root object addresses. *)
Definition binary_search (l : list Z) (x : Z) : bool := existsb (Z.eqb x) l.

Definition gc_candidate (ticks : Z) (w : Node) (rootLookup : list Z) (p : Z) : bool :=
  (ticks - m_lastReceive (deref w p) >? ZT_PEER_ALIVE_TIMEOUT) && negb (binary_search rootLookup p).

(** The first half of the test of line 75, on the state before the call. *)
Definition peer_stale (ticks : Z) (w : Node) (p : Z) : Prop :=
  ticks - m_lastReceive (deref w p) > ZT_PEER_ALIVE_TIMEOUT.

#[global] Instance peer_stale_dec ticks w p : Decision (peer_stale ticks w p).
Proof. unfold peer_stale. apply _. Defined.

(** Body of the second pass of the peer clean-up for one address.
    [EvPeerRelease] is the end of the scope of [toSave]: the reference the map
    held is gone.  Whether the object dies there, and its references to paths
    with it, depends on who else holds the peer; the model keeps the object
    and leaves [path_refs] as it is. *)
Definition erase_and_save (w : Node) (a : Z) : Node :=
  match m_peers w !! a with
  | Some toSave =>
      emit (EvPeerRelease toSave) (emit (EvPeerSave toSave) (with_peers (delete a (m_peers w)) w))
  | None => w
  end.

(** Modelled from the spec: [SharedPtr::weakGC] is absent; section 4.5 says a
    path is reaped when Topology holds the only reference to it. *)
Definition weakGC (p : Path) : bool := bool_decide (path_refs p = 1%nat).

(** [Topology::doPeriodicTasks] *)
Definition doPeriodicTasks (ticks : Z) (w : Node) : Node :=
  let w1 := m_rankRoots w in
  let rootLookup := std_sort Z.ltb (m_roots w1) in
  let toDelete :=
    (filter (λ ap, gc_candidate ticks w1 rootLookup ap.2 = true) (map_to_list (m_peers w1))).*1 in
  let w2 := foldl erase_and_save w1 toDelete in
  let dead := filter (λ kp, weakGC kp.2 = true) (map_to_list (m_paths w2)) in
  let w3 := with_paths (filter (λ kp, weakGC kp.2 = false) (m_paths w2)) w2 in
  foldl (λ w' kp, emit (EvPathDeleted kp.1) w') w3 dead.

(** ** Path, Peer, Expect and Trace, as VL1 uses them *)

(** [Topology::m_newPath] *)
Definition m_newPath (k : Z * Z) (w : Node) : Node :=
  match m_paths w !! k with
  | Some _ => w
  | None => with_paths (<[k := mkPath 1 0 0]> (m_paths w)) w
  end.

(** Modelled from the spec: [Topology::path] is declared in the absent
    [Topology.hpp]; section 4.5: intern or create. *)
Definition Topology_path (k : Z * Z) (w : Node) : Node :=
  match m_paths w !! k with
  | Some _ => w
  | None => m_newPath k w
  end.

(** Modelled from the spec: [Path.hpp] is absent; section 4.4: [received]
    updates the last-received time and the byte counter. *)
Definition Path_received (k : Z * Z) (ticks len : Z) (w : Node) : Node :=
  with_paths (alter (λ p, mkPath (path_refs p) ticks (path_bytesIn p + len)) k (m_paths w)) w.

(** Modelled from the spec: [Peer::deduplicateIncomingPacket] is absent;
    section 4.3: true if the id was seen within the dedup window (a ring of
    [DEDUP_WINDOW] ids), otherwise the id is recorded and the answer is false. *)
Definition deduplicateIncomingPacket (p packetId : Z) (w : Node) : bool * Node :=
  let ring := m_dedup (deref w p) in
  if bool_decide (packetId ∈ ring) then (true, w)
  else (false, update_peer p (Peer_with_dedup (take DEDUP_WINDOW (packetId :: ring))) w).


(** Modelled from the spec: [Peer::received] is absent; section 4.3: update
    liveness and record the path as most recent.  The reference the peer
    takes on the path is not counted in [path_refs]. *)
Definition Peer_received (p ticks : Z) (path : Z * Z)
    (hops packetId payloadLen verb inReVerb : Z) (w : Node) : Node :=
  emit (EvPeerReceived p hops packetId payloadLen verb inReVerb)
       (update_peer p (λ o, Peer_with_bestPath path (Peer_with_lastReceive ticks o)) w).

(** Modelled from the spec: [Peer::setRemoteVersion] is absent; it stores the
    version the peer announced. *)
Definition Peer_setRemoteVersion (p proto major minor rev : Z) (w : Node) : Node :=
  emit (EvSetRemoteVersion p proto major minor rev)
       (update_peer p (Peer_with_remoteVersion (proto, major, minor, rev)) w).

(** Modelled from the spec: [Peer::send] is absent; section 4.3: the packet
    goes out over the given path.  The send is recorded as a call; what the
    path keeps of its sends (section 4.4) is not modelled. *)
Definition Peer_send (p : Z) (bytes : list Z) (len : Z) (path : Z * Z) (w : Node) : Node :=
  emit (EvPeerSend p bytes len path) w.

(** Modelled from the spec: [Peer::path] is absent; section 4.3: the best path
    is the most recently received-on one that is still alive. *)
Definition Peer_path (ticks p : Z) (w : Node) : option (Z * Z) :=
  match m_bestPath (deref w p) with
  | Some k =>
      match m_paths w !! k with
      | Some o => if ticks - path_lastIn o <? ZT_PATH_ALIVE_TIMEOUT then Some k else None
      | None => None
      end
  | None => None
  end.

(** Modelled from the spec: [SymmetricKey.hpp] is absent; [nextMessage] on the
    key of peer [p] yields a packet id and advances the key's counter. *)
Definition Peer_key_nextMessage (p : Z) (w : Node) : Z * Node :=
  let o := deref w p in
  (nextMessage (m_keyCounter o) (id_address (m_identity w)) (address o),
   update_peer p (Peer_with_keyCounter (m_keyCounter o + 1)) w).

(** Modelled from the spec: [Expect.hpp] is absent; section 4.6: [sending]
    inserts, [expecting] returns and removes, entries expire after a TTL. *)
Definition Expect_sending (packetId now : Z) (w : Node) : Node :=
  with_expect (<[packetId := now]> (expect w)) w.

Definition Expect_expecting (inRePacketId now : Z) (w : Node) : bool * Node :=
  match expect w !! inRePacketId with
  | Some sent => (now - sent <=? ZT_EXPECT_TTL, with_expect (delete inRePacketId (expect w)) w)
  | None => (false, w)
  end.

(** [Trace::incomingPacketDropped] and [Trace::unexpectedError] *)
Definition incomingPacketDropped (codeLocation packetId : Z) (peerIdentity : Identity)
    (hops verb : Z) (reason : DropReason) (w : Node) : Node :=
  emit (EvIncomingPacketDropped codeLocation packetId peerIdentity hops verb reason) w.

Definition unexpectedError (codeLocation : Z) (w : Node) : Node :=
  emit (EvUnexpectedError codeLocation) w.

Definition identityFromPeerPtr (w : Node) (p : option Z) : Identity :=
  match p with
  | Some h => m_id (deref w h)
  | None => Identity_NIL
  end.

(** ** Merging a packet vector *)

Definition totalSize (pktv : list Slice) : Z :=
  foldr (λ s acc, (sl_e s - sl_s s) + acc) 0 pktv.

(** Modelled from the spec: [Buf::PacketVector::mergeCopy] is absent; it
    concatenates the slices into one buffer and yields the size, or -1 if the
    buffer cannot hold them. *)
Fixpoint mergeCopy_from (size : Z) (out : list Z) (pktv : list Slice) : Z * list Z :=
  match pktv with
  | [] => (size, out)
  | s :: rest =>
      let rem := sl_e s - sl_s s in
      if size + rem <=? ZT_BUF_MEM_SIZE
      then mergeCopy_from (size + rem) (out ++ slice_bytes s) rest
      else (-1, out)
  end.

Definition mergeCopy (pktv : list Slice) : Z * list Z := mergeCopy_from 0 [] pktv.

(** Modelled from the spec: [Buf::PacketVector::mergeMap] is absent; section 9:
    one pass over the assembled bytes that copies the first
    [simpleCopyBefore] bytes and hands the remainder of every slice to the
    copy function. *)
Fixpoint mergeMap_from {F : Type} (copyFunction : F → list Z → F * list Z)
    (simpleCopyBefore : Z) (f : F) (size : Z) (out : list Z) (pktv : list Slice)
    : Z * list Z * F :=
  match pktv with
  | [] => (size, out, f)
  | s :: rest =>
      let rem := sl_e s - sl_s s in
      if size + rem <=? ZT_BUF_MEM_SIZE then
        let sc := if size <? simpleCopyBefore then Z.min (simpleCopyBefore - size) rem else 0 in
        let bytes := slice_bytes s in
        let out1 := out ++ take (Z.to_nat sc) bytes in
        if 0 <? rem - sc then
          let '(f', o) := copyFunction f (drop (Z.to_nat sc) bytes) in
          mergeMap_from copyFunction simpleCopyBefore f' (size + rem) (out1 ++ o) rest
        else mergeMap_from copyFunction simpleCopyBefore f (size + sc) out1 rest
      else (-1, out, f)
  end.

Definition mergeMap {F : Type} (copyFunction : F → list Z → F * list Z)
    (simpleCopyBefore : Z) (f : F) (pktv : list Slice) : Z * list Z * F :=
  mergeMap_from copyFunction simpleCopyBefore f 0 [] pktv.

Record p_SalsaPolyCopyFunction := mkSalsaPolyCopy {
  sp_s20 : Salsa20;
  sp_poly1305 : Poly1305;
  sp_hdrRemaining : Z
}.

(** Constructor of [p_SalsaPolyCopyFunction] *)
Definition p_SalsaPolyCopyFunction_new (salsaKey : list Z) (salsaIv : Z) : p_SalsaPolyCopyFunction :=
  let '(s20, macKey) :=
    Salsa20_crypt12 (Salsa20_new salsaKey salsaIv) (replicate (Z.to_nat ZT_POLY1305_KEY_SIZE) 0) in
  mkSalsaPolyCopy s20 (Poly1305_init macKey) ZT_PROTO_PACKET_ENCRYPTED_SECTION_START.

(** [p_SalsaPolyCopyFunction::operator()] *)
Definition p_SalsaPolyCopyFunction_call (f : p_SalsaPolyCopyFunction) (src : list Z)
    : p_SalsaPolyCopyFunction * list Z :=
  let len := Z.of_nat (length src) in
  let hdrBytes :=
    if sp_hdrRemaining f =? 0 then 0
    else if sp_hdrRemaining f <? len then sp_hdrRemaining f else len in
  let rest := drop (Z.to_nat hdrBytes) src in
  let '(s20, dest) := Salsa20_crypt12 (sp_s20 f) rest in
  (mkSalsaPolyCopy s20 (Poly1305_update (sp_poly1305 f) rest) (sp_hdrRemaining f - hdrBytes),
   take (Z.to_nat hdrBytes) src ++ dest).

Record p_PolyCopyFunction := mkPolyCopy {
  pc_poly1305 : Poly1305;
  pc_hdrRemaining : Z
}.

(** Constructor of [p_PolyCopyFunction] *)
Definition p_PolyCopyFunction_new (salsaKey : list Z) (salsaIv : Z) : p_PolyCopyFunction :=
  let macKey :=
    (Salsa20_crypt12 (Salsa20_new salsaKey salsaIv) (replicate (Z.to_nat ZT_POLY1305_KEY_SIZE) 0)).2 in
  mkPolyCopy (Poly1305_init macKey) ZT_PROTO_PACKET_ENCRYPTED_SECTION_START.

(** [p_PolyCopyFunction::operator()] *)
Definition p_PolyCopyFunction_call (f : p_PolyCopyFunction) (src : list Z)
    : p_PolyCopyFunction * list Z :=
  let len := Z.of_nat (length src) in
  let hdrBytes :=
    if pc_hdrRemaining f =? 0 then 0
    else if pc_hdrRemaining f <? len then pc_hdrRemaining f else len in
  let rest := drop (Z.to_nat hdrBytes) src in
  (mkPolyCopy (Poly1305_update (pc_poly1305 f) rest) (pc_hdrRemaining f - hdrBytes), src).

(** Modelled from the spec: [Protocol::newPacket] is absent; section 4.1: it
    writes the fixed prefix (packet id, destination, source, zero flags, zero
    MAC, verb) and yields the header length. *)
Definition Protocol_newPacket (pkt : list Z) (packetId destination source verb : Z) : list Z :=
  Buf_write pkt 0
    (rev (be_bytes 8 packetId) ++ be_bytes ZT_ADDRESS_LENGTH destination
       ++ be_bytes ZT_ADDRESS_LENGTH source ++ [0] ++ replicate 8 0 ++ [verb]).

(** ** VL1::m_sendPendingWhois *)

Definition whois_due (ticks : Z) (wi : p_WhoisQueueItem) : bool :=
  ZT_WHOIS_RETRY_DELAY <=? ticks - lastRetry wi.

Definition whois_retry (ticks : Z) (wi : p_WhoisQueueItem) : p_WhoisQueueItem :=
  if whois_due ticks wi
  then mkWhoisItem ticks (retries wi + 1) (waitingPacketCount wi)
                   (waitingPacketSize wi) (waitingPacket wi)
  else wi.

(** The inner loop: addresses are copied while they fit into [outp]. *)
Fixpoint whois_fill (p : Z) (outp : list Z) (a : list Z) : Z * list Z * list Z :=
  match a with
  | [] => (p, outp, [])
  | x :: rest =>
      if p <? (ZT_DEFAULT_UDP_MTU - ZT_PROTO_MIN_PACKET_LENGTH) - ZT_ADDRESS_LENGTH
      then whois_fill (p + ZT_ADDRESS_LENGTH) (Buf_write outp p (be_bytes ZT_ADDRESS_LENGTH x)) rest
      else (p, outp, a)
  end.

(** The outer loop: one WHOIS packet per round.  Every round consumes an
    address when the header is shorter than the packet, so [length toSend]
    rounds are enough. *)
Fixpoint whois_send_loop (fuel : nat) (ticks root : Z) (rootPath : Z * Z)
    (a : list Z) (w : Node) : Node :=
  match fuel, a with
  | S fuel', _ :: _ =>
      let '(packetId, w1) := Peer_key_nextMessage root w in
      let outp0 :=
        Protocol_newPacket [] packetId (address (deref w1 root)) (id_address (m_identity w1))
                           VERB_WHOIS in
      let '(p, outp1, rest) := whois_fill ZT_PROTO_PACKET_PAYLOAD_START outp0 a in
      let '(armoredId, outp) :=
        Protocol_armor outp1 p (deref w1 root) (Peer_cipher (deref w1 root)) in
      let w2 := Expect_sending armoredId ticks w1 in
      let w3 := Peer_send root outp p rootPath w2 in
      whois_send_loop fuel' ticks root rootPath rest w3
  | _, _ => w
  end.

Definition m_sendPendingWhois (ticks : Z) (w : Node) : Node :=
  match Topology_root w with
  | None => w
  | Some root =>
      match Peer_path ticks root w with
      | None => w
      | Some rootPath =>
          let toSend :=
            (filter (λ kv, whois_due ticks kv.2 = true) (map_to_list (m_whoisQueue w))).*1 in
          let w1 := with_whoisQueue (whois_retry ticks <$> m_whoisQueue w) w in
          whois_send_loop (length toSend) ticks root rootPath toSend w1
      end
  end.

(** ** VL1::m_HELLO *)

(** [Buf::rO]: unmarshal at the cursor and advance it on success. *)
Definition rO {A} (unmarshal : list Z → Z * A) (pkt : list Z) (ii : Z) : Z * A * Z :=
  let '(ms, obj) := unmarshal (drop (Z.to_nat ii) pkt) in
  (ms, obj, if 0 <? ms then ii + ms else ii).

(** Lines 438-460: the peer that matches the identity, or a new one. *)
Definition HELLO_peer (ticks packetId hops : Z) (id : Identity) (w : Node) : option Z * Node :=
  match Topology_peer ticks (id_address id) true w with
  | (Some peer, w1) =>
      if bool_decide (m_id (deref w1 peer) ≠ id) then
        (None, incomingPacketDropped 0x707a9891 packetId (identityFromPeerPtr w1 (Some peer))
                                     hops VERB_HELLO MAC_FAILED w1)
      else
        let '(dup, w2) := deduplicateIncomingPacket peer packetId w1 in
        if dup then (None, w2) else (Some peer, w2)
  | (None, w1) =>
      if negb (Identity_locallyValidate id) then
        (None, incomingPacketDropped 0x707a9892 packetId (identityFromPeerPtr w1 None)
                                     hops VERB_HELLO INVALID_OBJECT w1)
      else
        match Peer_init (m_identity w1) id with
        | None =>
            (None, incomingPacketDropped 0x707a9893 packetId id hops VERB_HELLO UNSPECIFIED w1)
        | Some key =>
            let h := new_handle w1 in
            let w2 := with_objs (<[h := mkPeer id key 0 (-1) [] None 0 None]> (objs w1)) w1 in
            let '(peer, w3) := Topology_add ticks h w2 in
            (Some peer, w3)
        end
  end.

(** Lines 466-504: HMAC-SHA384 for protocol 11 and later, Poly1305 before.
    The result is the buffer and the packet size to go on with. *)
Definition HELLO_authenticate (packetId mac hops protoVersion peer : Z) (id : Identity)
    (pkt : list Z) (packetSize : Z) (w : Node) : option (list Z * Z) * Node :=
  if 11 <=? protoVersion then
    if packetSize <? ZT_HMACSHA384_LEN then
      (None, incomingPacketDropped 0xab9c9891 packetId (identityFromPeerPtr w (Some peer))
                                   hops VERB_HELLO MAC_FAILED w)
    else
      let packetSize' := packetSize - ZT_HMACSHA384_LEN in
      let flags := byte_at pkt ZT_PROTO_PACKET_FLAGS_INDEX in
      let pkt1 := Buf_write pkt ZT_PROTO_PACKET_FLAGS_INDEX
                    [Z.land flags (Z.lxor 0xff ZT_PROTO_FLAG_FIELD_HOPS_MASK)] in
      let pkt2 := Buf_write pkt1 ZT_PROTO_PACKET_MAC_INDEX (replicate 8 0) in
      let hmac := HMACSHA384 (identityHelloHmacKey (deref w peer)) (bytes_at pkt2 0 packetSize') in
      if bool_decide (hmac = bytes_at pkt2 packetSize' ZT_HMACSHA384_LEN) then
        (Some (pkt2, packetSize'), w)
      else
        (None, incomingPacketDropped 0x707a9891 packetId (identityFromPeerPtr w (Some peer))
                                     hops VERB_HELLO MAC_FAILED w)
  else
    if ZT_PROTO_PACKET_ENCRYPTED_SECTION_START <? packetSize then
      let perPacketKey := salsa2012DeriveKey (m_identityKey (deref w peer)) pkt packetSize in
      let macKey :=
        (Salsa20_crypt12 (Salsa20_new perPacketKey packetId)
                         (replicate (Z.to_nat ZT_POLY1305_KEY_SIZE) 0)).2 in
      let poly1305 :=
        Poly1305_update (Poly1305_init macKey)
          (bytes_at pkt ZT_PROTO_PACKET_ENCRYPTED_SECTION_START
                    (packetSize - ZT_PROTO_PACKET_ENCRYPTED_SECTION_START)) in
      if bool_decide (mac ≠ (Poly1305_finish poly1305).1) then
        (None, incomingPacketDropped 0x11bfff82 packetId id hops VERB_NOP MAC_FAILED w)
      else (Some (pkt, packetSize), w)
    else
      (None, incomingPacketDropped 0x11bfff81 packetId id hops VERB_NOP MAC_FAILED w).

(** Lines 547-573: the OK(HELLO) reply, the remote version and the send. *)
Definition HELLO_reply (packetId timestamp protoVersion versionMajor versionMinor versionRev
    peer : Z) (path : Z * Z) (pkt : list Z) (w : Node) : option Z * Node :=
  let '(replyId, w1) := Peer_key_nextMessage peer w in
  let pkt1 := Protocol_newPacket pkt replyId (address (deref w1 peer))
                                 (id_address (m_identity w1)) VERB_OK in
  let body :=
    [VERB_HELLO] ++ be_bytes 8 packetId ++ be_bytes 8 timestamp
      ++ [ZT_PROTO_VERSION; ZEROTIER_VERSION_MAJOR; ZEROTIER_VERSION_MINOR]
      ++ be_bytes 2 ZEROTIER_VERSION_REVISION ++ InetAddress_marshal path.2 ++ be_bytes 2 0 in
  let pkt2 := Buf_write pkt1 ZT_PROTO_PACKET_PAYLOAD_START body in
  let ii := ZT_PROTO_PACKET_PAYLOAD_START + Z.of_nat (length body) in
  if 11 <=? protoVersion then
    let pkt3 := Buf_write pkt2 ii (be_bytes 2 0) in
    let ii3 := ii + 2 in
    if ZT_BUF_MEM_SIZE <? ii3 + ZT_HMACSHA384_LEN then (None, w1)
    else
      let pkt4 :=
        Buf_write pkt3 ii3 (HMACSHA384 (identityHelloHmacKey (deref w1 peer)) (bytes_at pkt3 0 ii3)) in
      let ii4 := ii3 + ZT_HMACSHA384_LEN in
      let w2 := Peer_setRemoteVersion peer protoVersion versionMajor versionMinor versionRev w1 in
      (Some peer, Peer_send peer pkt4 ii4 path w2)
  else
    let w2 := Peer_setRemoteVersion peer protoVersion versionMajor versionMinor versionRev w1 in
    (Some peer, Peer_send peer pkt2 ii path w2).

(** What lines 518-545 make of the encrypted dictionary. *)
Inductive DictionaryResult :=
| DictAbsent
| DictTooLong
| DictUndecodable
| DictDecoded (pkt : list Z).

(** Lines 520-540: skip the reserved field, decrypt in place what follows the
    nonce, read the dictionary size and decode the dictionary. *)
Definition HELLO_dictionary (cipher pkt : list Z) (packetSize ii : Z) : DictionaryResult :=
  let ii2 := ii + 4 in
  if ii2 + 12 <? packetSize then
    let ctrNonce := bytes_at pkt ii2 12 in
    let ii3 := ii2 + 12 in
    let pkt1 :=
      Buf_write pkt ii3 (AES_CTR_crypt cipher ctrNonce (bytes_at pkt ii3 (packetSize - ii3))) in
    let ii4 := ii3 + 2 in
    let dictSize := loadBigEndian pkt1 ii4 2 in
    let ii5 := ii4 + 2 in
    if packetSize <? ii5 + dictSize then DictTooLong
    else if negb (Dictionary_decode (bytes_at pkt1 ii5 dictSize)) then DictUndecodable
    else DictDecoded pkt1
  else DictAbsent.

(** Lines 506-545 and the call of the reply. *)
Definition HELLO_finish (packetId hops timestamp protoVersion versionMajor versionMinor
    versionRev peer : Z) (path : Z * Z) (pkt : list Z) (packetSize ii : Z) (w : Node)
    : option Z * Node :=
  let '(ms, _, ii1) := rO (λ b, (InetAddress_unmarshal b, tt)) pkt ii in
  if ms <? 0 then
    (None, incomingPacketDropped 0x707a9811 packetId (identityFromPeerPtr w (Some peer))
                                 hops VERB_HELLO INVALID_OBJECT w)
  else
    let reply := HELLO_reply packetId timestamp protoVersion versionMajor versionMinor versionRev
                             peer path in
    if 11 <=? protoVersion then
      match HELLO_dictionary (identityHelloDictionaryEncryptionCipher (deref w peer))
                             pkt packetSize ii1 with
      | DictTooLong =>
          (Some peer, incomingPacketDropped 0x707a9815 packetId (identityFromPeerPtr w (Some peer))
                                            hops VERB_HELLO INVALID_OBJECT w)
      | DictUndecodable =>
          (Some peer, incomingPacketDropped 0x707a9816 packetId (identityFromPeerPtr w (Some peer))
                                            hops VERB_HELLO INVALID_OBJECT w)
      | DictDecoded pkt1 => reply pkt1 w
      | DictAbsent => reply pkt w
      end
    else reply pkt w.

Definition m_HELLO (ticks : Z) (path : Z * Z) (pkt : list Z) (packetSize : Z) (w : Node)
    : option Z * Node :=
  let packetId := loadMachineEndian64 pkt ZT_PROTO_PACKET_ID_INDEX in
  let mac := loadMachineEndian64 pkt ZT_PROTO_PACKET_MAC_INDEX in
  let hops := Z.land (byte_at pkt ZT_PROTO_PACKET_FLAGS_INDEX) ZT_PROTO_FLAG_FIELD_HOPS_MASK in
  let protoVersion := byte_at pkt ZT_PROTO_PACKET_PAYLOAD_START in
  if protoVersion <? ZT_PROTO_VERSION_MIN then
    (None, incomingPacketDropped 0x907a9891 packetId Identity_NIL hops VERB_HELLO PEER_TOO_OLD w)
  else
    let versionMajor := byte_at pkt (ZT_PROTO_PACKET_PAYLOAD_START + 1) in
    let versionMinor := byte_at pkt (ZT_PROTO_PACKET_PAYLOAD_START + 2) in
    let versionRev := loadBigEndian pkt (ZT_PROTO_PACKET_PAYLOAD_START + 3) 2 in
    let timestamp := loadBigEndian pkt (ZT_PROTO_PACKET_PAYLOAD_START + 5) 8 in
    let '(ms, id, ii) := rO Identity_unmarshal pkt (ZT_PROTO_PACKET_PAYLOAD_START + 13) in
    if ms <? 0 then
      (None, incomingPacketDropped 0x707a9810 packetId Identity_NIL hops VERB_HELLO INVALID_OBJECT w)
    else if bool_decide (id_address id ≠ Address_at pkt ZT_PROTO_PACKET_SOURCE_INDEX) then
      (None, incomingPacketDropped 0x707a9010 packetId Identity_NIL hops VERB_HELLO MAC_FAILED w)
    else
      match HELLO_peer ticks packetId hops id w with
      | (None, w1) => (None, w1)
      | (Some peer, w1) =>
          match HELLO_authenticate packetId mac hops protoVersion peer id pkt packetSize w1 with
          | (None, w2) => (None, w2)
          | (Some (pkt1, packetSize1), w2) =>
              HELLO_finish packetId hops timestamp protoVersion versionMajor versionMinor
                           versionRev peer path pkt1 packetSize1 ii w2
          end
      end.

(** ** VL1::m_OK *)

Definition m_OK (ticks packetId auth : Z) (path : Z * Z) (peer : Z) (pkt : list Z)
    (packetSize : Z) (w : Node) : bool * Z * Node :=
  let ii := ZT_PROTO_PACKET_PAYLOAD_START + 13 in
  let inReVerb := byte_at pkt ii in
  let inRePacketId := loadBigEndian pkt (ii + 1) 8 in
  if readOverflow (ii + 9) packetSize then
    (false, inReVerb,
     incomingPacketDropped 0x4c1f1ff7 packetId (identityFromPeerPtr w (Some peer)) 0 VERB_OK
                           MALFORMED_PACKET w)
  else
    let '(expected, w1) := Expect_expecting inRePacketId ticks w in
    if negb expected then
      (false, inReVerb,
       incomingPacketDropped 0x4c1f1ff8 packetId (identityFromPeerPtr w1 (Some peer)) 0 VERB_OK
                             REPLY_NOT_EXPECTED w1)
    else (true, inReVerb, w1).

(** ** VL1::onRemotePacket *)

(** [VL1::m_relay]: its body is empty. *)
Definition m_relay (path : Z * Z) (destination : Z) (data : list Z) (len : Z) (w : Node) : Node := w.

(** The body of the [try] block either runs to completion or throws. *)
Inductive Outcome :=
| Completed (w : Node)
| Threw (w : Node).

(** Lines 122-171: a fragment, the head of a fragmented packet or a whole
    packet; [None] when the function returns here. *)
Definition classify (ticks : Z) (path : Z * Z) (packetId : Z) (data : list Z) (len : Z)
    (w : Node) : option (list Slice) * Node :=
  if byte_at data ZT_PROTO_PACKET_FRAGMENT_INDICATOR_INDEX =? ZT_PROTO_PACKET_FRAGMENT_INDICATOR then
    let totalFragments :=
      Z.land (Z.shiftr (byte_at data ZT_PROTO_PACKET_FRAGMENT_COUNTS) 4) 0x0f in
    let fragmentNo := Z.land (byte_at data ZT_PROTO_PACKET_FRAGMENT_COUNTS) 0x0f in
    let '(asm, r, pktv) :=
      assemble (m_inputPacketAssembler w) packetId data ZT_PROTO_PACKET_FRAGMENT_PAYLOAD_START_AT
               (len - ZT_PROTO_PACKET_FRAGMENT_PAYLOAD_START_AT) fragmentNo totalFragments
               ticks path in
    match r with
    | COMPLETE => (Some pktv, with_assembler asm w)
    | _ => (None, with_assembler asm w)
    end
  else if len <? ZT_PROTO_MIN_PACKET_LENGTH then (None, w)
  else if negb (Z.land (byte_at data ZT_PROTO_PACKET_FLAGS_INDEX) ZT_PROTO_FLAG_FRAGMENTED =? 0) then
    let '(asm, r, pktv) :=
      assemble (m_inputPacketAssembler w) packetId data 0 len 0 0 ticks path in
    match r with
    | COMPLETE => (Some pktv, with_assembler asm w)
    | _ => (None, with_assembler asm w)
    end
  else (Some [mkSlice data 0 len], w).

(** [hdr]: the bytes of the first slice. *)
Definition packet_hdr (pktv : list Slice) : list Z :=
  let s0 := default (mkSlice [] 0 0) (head pktv) in
  drop (Z.to_nat (sl_s s0)) (sl_b s0).

Definition packet_source (pktv : list Slice) : Z :=
  Address_at (packet_hdr pktv) ZT_PROTO_PACKET_SOURCE_INDEX.

Definition packet_hops (pktv : list Slice) : Z :=
  Z.land (byte_at (packet_hdr pktv) ZT_PROTO_PACKET_FLAGS_INDEX) ZT_PROTO_FLAG_FIELD_HOPS_MASK.

(** Line 182: [(hdr[ZT_PROTO_PACKET_FLAGS_INDEX] >> 3U) & 3U] *)
Definition cipher_of_flags (flags : Z) : Z := Z.land (Z.shiftr flags 3) 3.

Definition packet_cipher (pktv : list Slice) : Z :=
  cipher_of_flags (byte_at (packet_hdr pktv) ZT_PROTO_PACKET_FLAGS_INDEX).

Definition packet_verb (pktv : list Slice) : Z :=
  Z.land (byte_at (packet_hdr pktv) ZT_PROTO_PACKET_VERB_INDEX) ZT_PROTO_VERB_MASK.

(** Where lines 177-265 leave the function: it has returned, or it goes on
    with [auth], the peer, the merged packet and its size. *)
Inductive Authenticated :=
| AuthReturned (w : Node)
| AuthContinue (auth : Z) (peer : option Z) (pkt : list Z) (pktSize : Z) (w : Node).

(** Lines 210-214 and 233-237: the per-packet key and the merge that
    authenticates, and for Salsa20/12 decrypts, on the way. *)
Definition merge_poly1305 (identityKey : list Z) (packetId : Z) (pktv : list Slice)
    : Z * list Z * p_PolyCopyFunction :=
  let buf0 := sl_b (default (mkSlice [] 0 0) (head pktv)) in
  let perPacketKey := salsa2012DeriveKey identityKey buf0 (totalSize pktv) in
  mergeMap p_PolyCopyFunction_call ZT_PROTO_PACKET_ENCRYPTED_SECTION_START
           (p_PolyCopyFunction_new perPacketKey packetId) pktv.

Definition merge_salsa2012 (identityKey : list Z) (packetId : Z) (pktv : list Slice)
    : Z * list Z * p_SalsaPolyCopyFunction :=
  let buf0 := sl_b (default (mkSlice [] 0 0) (head pktv)) in
  let perPacketKey := salsa2012DeriveKey identityKey buf0 (totalSize pktv) in
  mergeMap p_SalsaPolyCopyFunction_call ZT_PROTO_PACKET_ENCRYPTED_SECTION_START
           (p_SalsaPolyCopyFunction_new perPacketKey packetId) pktv.

(** Lines 208-264: the [switch] on the cipher for a known peer. *)
Definition authenticate_switch (packetId hops cipher peer : Z) (pktv : list Slice) (w : Node)
    : Authenticated :=
  let hdr := packet_hdr pktv in
  if cipher =? ZT_PROTO_CIPHER_POLY1305_NONE then
    let '(pktSize, pkt, s20cf) := merge_poly1305 (m_identityKey (deref w peer)) packetId pktv in
    if pktSize <? ZT_PROTO_MIN_PACKET_LENGTH then AuthReturned w
    else if bool_decide (loadMachineEndian64 hdr ZT_PROTO_PACKET_MAC_INDEX
                           ≠ (Poly1305_finish (pc_poly1305 s20cf)).1) then
      AuthReturned (incomingPacketDropped 0xcc89c812 packetId (m_id (deref w peer)) hops
                                          VERB_NOP MAC_FAILED w)
    else AuthContinue ZT_VL1_AUTH_RESULT_FLAG_AUTHENTICATED (Some peer) pkt pktSize w
  else if cipher =? ZT_PROTO_CIPHER_POLY1305_SALSA2012 then
    let '(pktSize, pkt, s20cf) := merge_salsa2012 (m_identityKey (deref w peer)) packetId pktv in
    if pktSize <? ZT_PROTO_MIN_PACKET_LENGTH then AuthReturned w
    else if bool_decide (loadMachineEndian64 hdr ZT_PROTO_PACKET_MAC_INDEX
                           ≠ (Poly1305_finish (sp_poly1305 s20cf)).1) then
      AuthReturned (incomingPacketDropped 0xcc89c812 packetId (m_id (deref w peer)) hops
                                          VERB_NOP MAC_FAILED w)
    else
      AuthContinue (Z.lor ZT_VL1_AUTH_RESULT_FLAG_AUTHENTICATED ZT_VL1_AUTH_RESULT_FLAG_ENCRYPTED)
                   (Some peer) pkt pktSize w
  else if cipher =? ZT_PROTO_CIPHER_NONE then AuthContinue 0 (Some peer) [] 0 w
  else if cipher =? ZT_PROTO_CIPHER_AES_GMAC_SIV then AuthContinue 0 (Some peer) [] 0 w
  else
    AuthReturned (incomingPacketDropped 0x5b001099 packetId (identityFromPeerPtr w (Some peer)) hops
                                        VERB_NOP INVALID_OBJECT w).

Definition handler_call (verb packetId auth peer : Z) (pkt : list Z) (pktSize : Z) (w : Node) : Node :=
  emit (EvHandler verb packetId auth peer pkt pktSize) w.

(** Lines 177-265 *)
Definition authenticate (ticks : Z) (path : Z * Z) (packetId : Z) (pktv : list Slice) (w : Node)
    : Authenticated :=
  let source := packet_source pktv in
  let hops := packet_hops pktv in
  let cipher := packet_cipher pktv in
  if ((cipher =? ZT_PROTO_CIPHER_POLY1305_NONE) || (cipher =? ZT_PROTO_CIPHER_NONE))
       && (packet_verb pktv =? VERB_HELLO) then
    let '(pktSize, pkt) := mergeCopy pktv in
    if pktSize <? ZT_PROTO_MIN_PACKET_LENGTH then AuthReturned w
    else
      match m_HELLO ticks path pkt pktSize (handler_call VERB_HELLO packetId 0 0 pkt pktSize w) with
      | (Some peer, w1) =>
          AuthReturned (Peer_received peer ticks path hops packetId
                                      (pktSize - ZT_PROTO_PACKET_PAYLOAD_START) VERB_HELLO VERB_NOP w1)
      | (None, w1) => AuthReturned w1
      end
  else
    match Topology_peer ticks source peer_loadFromCached_default w with
    | (Some peer, w1) => authenticate_switch packetId hops cipher peer pktv w1
    | (None, w1) => AuthContinue 0 None [] 0 w1
    end.

(** Lines 291-304: [None] when the compressed payload is invalid. *)
Definition decompress (verbFlags : Z) (pkt : list Z) (pktSize : Z) : option (list Z * Z) :=
  if negb (Z.land verbFlags ZT_PROTO_VERB_FLAG_COMPRESSED =? 0)
       && (ZT_PROTO_PACKET_PAYLOAD_START <? pktSize) then
    let '(uncompressedLen, out) :=
      LZ4_decompress_safe
        (bytes_at pkt ZT_PROTO_PACKET_PAYLOAD_START (pktSize - ZT_PROTO_PACKET_PAYLOAD_START))
        (ZT_BUF_MEM_SIZE - ZT_PROTO_PACKET_PAYLOAD_START) in
    if (0 <=? uncompressedLen)
         && (uncompressedLen <=? ZT_BUF_MEM_SIZE - ZT_PROTO_PACKET_PAYLOAD_START) then
      Some (bytes_at pkt 0 ZT_PROTO_PACKET_PAYLOAD_START ++ take (Z.to_nat uncompressedLen) out,
            ZT_PROTO_PACKET_PAYLOAD_START + uncompressedLen)
    else None
  else Some (pkt, pktSize).

Definition compiled_out_verbs : list Z :=
  [VERB_ERROR; VERB_WHOIS; VERB_RENDEZVOUS; VERB_ECHO; VERB_PUSH_DIRECT_PATHS].

Definition vl2_verbs : list Z :=
  [VERB_FRAME; VERB_EXT_FRAME; VERB_MULTICAST_LIKE; VERB_NETWORK_CREDENTIALS;
   VERB_NETWORK_CONFIG_REQUEST; VERB_NETWORK_CONFIG; VERB_MULTICAST_GATHER;
   VERB_MULTICAST_FRAME_deprecated; VERB_MULTICAST].

(** Lines 313-337: the [switch] on the verb.  The result is [ok] and
    [inReVerb], or [None] when the handler throws. *)
Definition dispatch (ticks : Z) (path : Z * Z) (packetId auth hops peer verb : Z)
    (pkt : list Z) (pktSize : Z) (w : Node) : option (bool * Z) * Node :=
  let called := handler_call verb packetId auth peer pkt pktSize w in
  if verb =? VERB_NOP then (Some (true, VERB_NOP), w)
  else if verb =? VERB_HELLO then
    let '(r, w1) := m_HELLO ticks path pkt pktSize called in
    (Some (bool_decide (is_Some r), VERB_NOP), w1)
  else if verb =? VERB_OK then
    let '(ok, inReVerb, w1) := m_OK ticks packetId auth path peer pkt pktSize called in
    (Some (ok, inReVerb), w1)
  else if bool_decide (verb ∈ compiled_out_verbs) then
    (Some (missing_return verb packetId pkt pktSize, VERB_NOP), called)
  else if bool_decide (verb ∈ vl2_verbs) then
    match VL2_handler verb packetId auth peer pkt pktSize with
    | HReturn ok => (Some (ok, VERB_NOP), called)
    | HThrow => (None, called)
    end
  else if (verb =? VERB_USER_MESSAGE) || (verb =? VERB_ENCAP) then
    (Some (true, VERB_NOP), called)
  else
    (Some (true, VERB_NOP),
     incomingPacketDropped 0xeeeeeff0 packetId (identityFromPeerPtr w (Some peer)) hops verb
                           UNRECOGNIZED_VERB w).

(** Lines 267-340: the packet is authenticated. *)
Definition process_authenticated (ticks : Z) (path : Z * Z) (packetId hops auth peer : Z)
    (pkt : list Z) (pktSize : Z) (w : Node) : Outcome :=
  if pktSize <? ZT_PROTO_MIN_PACKET_LENGTH then Completed w
  else
    let '(dup, w1) := deduplicateIncomingPacket peer packetId w in
    if dup then Completed w1
    else
      let verbFlags := byte_at pkt ZT_PROTO_PACKET_VERB_INDEX in
      let verb := Z.land verbFlags ZT_PROTO_VERB_MASK in
      match decompress verbFlags pkt pktSize with
      | None =>
          Completed (incomingPacketDropped 0xee9e4392 packetId (identityFromPeerPtr w1 (Some peer))
                                           hops verb INVALID_COMPRESSED_DATA w1)
      | Some (pkt1, pktSize1) =>
          match dispatch ticks path packetId auth hops peer verb pkt1 pktSize1 w1 with
          | (Some (ok, inReVerb), w2) =>
              Completed (if ok
                         then Peer_received peer ticks path hops packetId
                                            (pktSize1 - ZT_PROTO_PACKET_PAYLOAD_START) verb inReVerb w2
                         else w2)
          | (None, w2) => Threw w2
          end
      end.

(** Lines 350-354: the packet takes the next slot of the ring of packets that
    wait for the identity of [source]. *)
Definition whois_enqueue (source : Z) (pkt : list Z) (pktSize : Z) (w : Node) : Node :=
  let wq := default WhoisItem_new (m_whoisQueue w !! source) in
  let wpidx := waitingPacketCount wq `mod` ZT_VL1_MAX_WHOIS_WAITING_PACKETS in
  with_whoisQueue
    (<[source :=
         mkWhoisItem (lastRetry wq) (retries wq) ((waitingPacketCount wq + 1) `mod` 2 ^ 32)
                     (<[wpidx := pktSize]> (waitingPacketSize wq))
                     (<[wpidx := pkt]> (waitingPacket wq))]> (m_whoisQueue w)) w.

(** Lines 341-360: authentication did not succeed. *)
Definition queue_whois (ticks source : Z) (pktv : list Slice) (pkt : list Z) (pktSize : Z)
    (w : Node) : Node :=
  let '(pktSize1, pkt1) := if pktSize <=? 0 then mergeCopy pktv else (pktSize, pkt) in
  if ZT_PROTO_MIN_PACKET_LENGTH <=? pktSize1 then
    let sendPending :=
      ZT_WHOIS_RETRY_DELAY
        <=? ticks - lastRetry (default WhoisItem_new (m_whoisQueue w !! source)) in
    let w1 := whois_enqueue source pkt1 pktSize1 w in
    if sendPending then m_sendPendingWhois ticks w1 else w1
  else w.

(** Lines 177-360: a packet is fully assembled. *)
Definition process_assembled (ticks : Z) (path : Z * Z) (packetId : Z) (pktv : list Slice)
    (w : Node) : Outcome :=
  match authenticate ticks path packetId pktv w with
  | AuthReturned w1 => Completed w1
  | AuthContinue auth peer pkt pktSize w1 =>
      if bool_decide (auth ≠ 0) then
        match peer with
        | Some p =>
            process_authenticated ticks path packetId (packet_hops pktv) auth p pkt pktSize w1
        | None => Completed w1
        end
      else Completed (queue_whois ticks (packet_source pktv) pktv pkt pktSize w1)
  end.

(** Lines 105-360: the body of the [try] block. *)
Definition onRemotePacket_try (ticks : Z) (path : Z * Z) (data : list Z) (len : Z) (w : Node)
    : Outcome :=
  if len <? ZT_PROTO_MIN_FRAGMENT_LENGTH then Completed w
  else
    let packetId := loadMachineEndian64 data ZT_PROTO_PACKET_ID_INDEX in
    let destination := Address_at data ZT_PROTO_PACKET_DESTINATION_INDEX in
    if bool_decide (destination ≠ id_address (m_identity w)) then
      Completed (m_relay path destination data len w)
    else
      match classify ticks path packetId data len w with
      | (None, w1) => Completed w1
      | (Some pktv, w1) => process_assembled ticks path packetId pktv w1
      end.

(** Lines 362-364: [catch (...)] *)
Definition catch_all (o : Outcome) : Node :=
  match o with
  | Completed w => w
  | Threw w => unexpectedError 0xea1b6dea w
  end.

(** Lines 95-98: the path is looked up and told about the datagram before the
    [try] block is entered. *)
Definition enter (ticks localSocket fromAddr len : Z) (w : Node) : Node :=
  Path_received (localSocket, fromAddr) ticks len (Topology_path (localSocket, fromAddr) w).

(** [VL1::onRemotePacket] *)
Definition onRemotePacket (ticks localSocket fromAddr : Z) (data : list Z) (len : Z) (w : Node)
    : Node :=
  catch_all (onRemotePacket_try ticks (localSocket, fromAddr) data len
                                (enter ticks localSocket fromAddr len w)).

End Model.

(** ** The rest of Topology.cpp *)

Section Topology_rest.
Context {constants : Constants} {collaborators : Collaborators}.



(** Lines 131-139: the peer of one root identity of the trust store, looked
    up (in memory, then in the cache) or made by [new Peer()], [init] and
    [add]; [None] when [init] fails. *)
Definition trustStore_root (ticks : Z) (id : Identity) (w : Node) : option Z * Node :=
  match Topology_peer ticks (id_address id) true w with
  | (Some root, w1) => (Some root, w1)
  | (None, w1) =>
      match Peer_init (m_identity w1) id with
      | Some key =>
          let h := new_handle w1 in
          let w2 := with_objs (<[h := mkPeer id key 0 (-1) [] None 0 None]> (objs w1)) w1 in
          let '(root, w3) := Topology_add ticks h w2 in
          (Some root, w3)
      | None => (None, w1)
      end
  end.

(** Lines 130-145: the loop over [m_ctx.ts->roots()], a map from Identity to
    Locator pointer that is walked in key order.  The result is the new root
    list, the calls of [Peer::setLocator] (peer, locator) in program order, and
    the node. *)
Fixpoint trustStore_roots {Locator : Type} (ticks : Z) (roots : list (Identity * option Locator))
    (w : Node) : list Z * list (Z * Locator) * Node :=
  match roots with
  | [] => ([], [], w)
  | (id, loc) :: rest =>
      let '(root, w1) := trustStore_root ticks id w in
      let '(newRootList, located, w2) := trustStore_roots ticks rest w1 in
      match root with
      | Some r =>
          (r :: newRootList,
           match loc with Some l => (r, l) :: located | None => located end,
           w2)
      | None => (newRootList, located, w2)
      end
  end.

(** [Topology::trustStoreChanged] *)
Definition trustStoreChanged {Locator : Type} (ticks : Z)
    (roots : list (Identity * option Locator)) (w : Node) : list (Z * Locator) * Node :=
  let '(newRootList, located, w1) := trustStore_roots ticks roots w in
  (located, m_rankRoots (with_roots newRootList (m_bestRoot w1) w1)).

End Topology_rest.

(** ** The copy functions on a whole packet *)

(** Successive calls of a copy function on the chunks of a packet, each
    writing behind the bytes of the previous one. *)
Definition copy_chunks {F : Type} (call : F → list Z → F * list Z) (f : F)
    (chunks : list (list Z)) : F * list Z :=
  foldl (λ acc src, let '(f', dest) := call acc.1 src in (f', acc.2 ++ dest)) (f, []) chunks.

(** ** Trace.hpp: RuleResultLog

    [l] holds one 4-bit field per rule, two to a byte.  An index past the
    array is undefined in the source; here it leaves the log as it is. *)

Definition RuleResultLog_field (rn value : Z) : Z :=
  Z.shiftl value (Z.shiftl (Z.land rn 1) 2).

Definition RuleResultLog_or (rn value : Z) (l : list Z) : list Z :=
  let i := Z.to_nat (Z.shiftr rn 1) in
  match l !! i with
  | Some b => <[i := Z.land (Z.lor b (RuleResultLog_field rn value)) 0xff]> l
  | None => l
  end.

(** [RuleResultLog::log] *)
Definition RuleResultLog_log (rn thisRuleMatches thisSetMatches : Z) (l : list Z) : list Z :=
  RuleResultLog_or rn (Z.lor (Z.shiftl (thisRuleMatches + 1) 2) (thisSetMatches + 1)) l.

(** [RuleResultLog::logSkipped] *)
Definition RuleResultLog_logSkipped (rn thisSetMatches : Z) (l : list Z) : list Z :=
  RuleResultLog_or rn (thisSetMatches + 1) l.

(** [RuleResultLog::clear] *)
Definition RuleResultLog_clear (l : list Z) : list Z := replicate (length l) 0.

(** The 4-bit field of rule [rn]. *)
Definition RuleResultLog_get (rn : Z) (l : list Z) : Z :=
  Z.land (Z.shiftr (default 0 (l !! Z.to_nat (Z.shiftr rn 1))) (Z.shiftl (Z.land rn 1) 2)) 0xf.

(** ** Vocabulary of the statements *)

(** [w'] differs from [w] at most in the path map and in the state of the
    input packet assembler. *)
Definition same_core {collaborators : Collaborators} (w w' : Node) : Prop :=
  m_identity w' = m_identity w ∧ objs w' = objs w ∧ m_peers w' = m_peers w
  ∧ m_roots w' = m_roots w ∧ m_bestRoot w' = m_bestRoot w ∧ store w' = store w
  ∧ m_whoisQueue w' = m_whoisQueue w ∧ expect w' = expect w ∧ events w' = events w.

Definition is_send (e : Event) : Prop :=
  match e with
  | EvPeerSend _ _ _ _ => True
  | _ => False
  end.

(** The packets handed to [Peer::send], with their lengths, in program
    order. *)
Definition sent_packets (l : list Event) : list (list Z * Z) :=
  omap (λ e, match e with EvPeerSend _ bytes len _ => Some (bytes, len) | _ => None end) l.

(** The peer map sends address [a] to handle [p], and the object at [p] has
    identity [i]. *)
Definition stored {collaborators : Collaborators} (a p : Z) (i : Identity) (w : Node) : Prop :=
  m_peers w !! a = Some p ∧ ∃ o, objs w !! p = Some o ∧ m_id o = i.

(** No element of the list is ordered by [comp] before a later one. *)
Fixpoint descending {A} (comp : A → A → bool) (acc : list A) : Prop :=
  match acc with
  | [] => True
  | x :: rest => Forall (λ y, comp x y = false) rest ∧ descending comp rest
  end.

(** What is left of each chunk once the first [hdr] bytes of the whole
    sequence are taken away. *)
Fixpoint after_header (hdr : Z) (chunks : list (list Z)) : list (list Z) :=
  match chunks with
  | [] => []
  | c :: rest =>
      let n := Z.min hdr (Z.of_nat (length c)) in
      drop (Z.to_nat n) c :: after_header (hdr - n) rest
  end.

(** The records of the trace that are calls of a verb handler. *)
Definition is_handler_call (e : Event) : bool :=
  match e with
  | EvHandler _ _ _ _ _ _ => true
  | _ => false
  end.

Section Vocabulary.
Context {constants : Constants} {collaborators : Collaborators}.

(** A handler may be called for a HELLO that came in the clear, with no
    authentication flag, or for a packet whose MAC was verified. *)
Definition call_ok (verb auth : Z) : Prop :=
  (verb = VERB_HELLO ∧ auth = 0)
  ∨ (auth ≠ 0
     ∧ (auth = ZT_VL1_AUTH_RESULT_FLAG_AUTHENTICATED
        ∨ auth = Z.lor ZT_VL1_AUTH_RESULT_FLAG_AUTHENTICATED ZT_VL1_AUTH_RESULT_FLAG_ENCRYPTED)).

(** [w'] is reached from [w] by steps of [R] with at most one handler call
    between them. *)
Definition one_call (R : Node → Node → Prop) (w w' : Node) : Prop :=
  R w w'
  ∨ ∃ w1 verb packetId auth peer pkt pktSize,
      R w w1 ∧ call_ok verb auth
      ∧ R (handler_call verb packetId auth peer pkt pktSize w1) w'.


End Vocabulary.


(** One byte of the log holds two fields: what [|=] does to each of them,
    checked on every byte and every 4-bit value. *)
Definition field_check (b value : Z) : bool :=
  (Z.land (Z.shiftr (Z.land (Z.lor b (Z.shiftl value 0)) 0xff) 0) 0xf
     =? Z.lor (Z.land (Z.shiftr b 0) 0xf) value)
  && (Z.land (Z.shiftr (Z.land (Z.lor b (Z.shiftl value 4)) 0xff) 4) 0xf
        =? Z.lor (Z.land (Z.shiftr b 4) 0xf) value)
  && (Z.land (Z.shiftr (Z.land (Z.lor b (Z.shiftl value 0)) 0xff) 4) 0xf
        =? Z.land (Z.shiftr b 4) 0xf)
  && (Z.land (Z.shiftr (Z.land (Z.lor b (Z.shiftl value 4)) 0xff) 0) 0xf
        =? Z.land (Z.shiftr b 0) 0xf).

(** ** A reference configuration

    The constants have the values the specification quotes (section 5) or the
    ones of the released protocol; the collaborators are small executable
    stand-ins, used to run the model on concrete packets. *)

Definition ref_constants : Constants := {|
  ZT_PATH_KEEPALIVE_PERIOD := 20000;
  ZT_PEER_ALIVE_TIMEOUT := 600000;
  ZT_PEER_GLOBAL_TIMEOUT := 2592000000;
  ZT_PATH_ALIVE_TIMEOUT := 45000;
  ZT_WHOIS_RETRY_DELAY := 1000;
  ZT_VL1_MAX_WHOIS_WAITING_PACKETS := 8;
  ZT_BUF_MEM_SIZE := 16384;
  ZT_DEFAULT_UDP_MTU := 1432;
  ZT_PROTO_VERSION_MIN := 8;
  ZT_PROTO_VERSION := 12;
  ZEROTIER_VERSION_MAJOR := 2;
  ZEROTIER_VERSION_MINOR := 0;
  ZEROTIER_VERSION_REVISION := 0;
  ZT_PROTO_FLAG_FRAGMENTED := 0x40;
  ZT_PROTO_FLAG_FIELD_HOPS_MASK := 0x07;
  ZT_PROTO_PACKET_ENCRYPTED_SECTION_START := 27;
  ZT_VL1_AUTH_RESULT_FLAG_AUTHENTICATED := 1;
  ZT_VL1_AUTH_RESULT_FLAG_ENCRYPTED := 2;
  DEDUP_WINDOW := 32;
  ZT_EXPECT_TTL := 2000;
  peer_loadFromCached_default := false
|}.

Definition byte_sum (l : list Z) : Z := foldr Z.add 0 l.

(** Identity on the wire of the stand-in: address, type, key length, key. *)
Definition ref_Identity_unmarshal (b : list Z) : Z * Identity :=
  if bool_decide (length b < 7)%nat then (-1, Identity_NIL)
  else
    let n := byte_at b 6 in
    (7 + n, mkIdentity (loadBigEndian b 0 5) (byte_at b 5) (bytes_at b 7 n)).

Definition ref_collaborators : Collaborators := {|
  Salsa20 := unit;
  Salsa20_new := λ _ _, tt;
  Salsa20_crypt12 := λ s src, (s, src);
  Poly1305 := list Z;
  Poly1305_init := λ key, [];
  Poly1305_update := λ p src, p ++ src;
  Poly1305_finish := λ p, (byte_sum p, 0);
  salsa2012DeriveKey := λ key _ _, key;
  HMACSHA384 := λ key msg, replicate 48 ((byte_sum key + byte_sum msg) `mod` 256);
  identityHelloHmacKey := m_identityKey;
  identityHelloDictionaryEncryptionCipher := m_identityKey;
  AES_CTR_crypt := λ _ _ src, src;
  Dictionary_decode := λ b, bool_decide (0xff ∉ b);
  LZ4_decompress_safe := λ _ _, (-1, []);
  Identity_unmarshal := ref_Identity_unmarshal;
  Identity_locallyValidate := λ _, true;
  InetAddress_unmarshal := λ _, 1;
  InetAddress_marshal := λ a, [0];
  Peer_init := λ _ id, Some (id_public id);
  Peer_cipher := λ _, ZT_PROTO_CIPHER_POLY1305_SALSA2012;
  nextMessage := λ counter _ _, counter + 1;
  Protocol_armor := λ pkt _ _ _, (loadMachineEndian64 pkt 0, pkt);
  Defragmenter := unit;
  assemble := λ d _ _ _ _ _ _ _ _, (d, OK, []);
  VL2_handler := λ _ _ _ _ _ _, HReturn true;
  missing_return := λ _ _ _ _, true
|}.

Definition ref_Node : Type := @Node ref_collaborators.

(** Two roots: handle 1 was last heard at time 0, handle 2 at time 100000;
    both have a measured latency of 10. *)
Definition root_old : Peer := mkPeer (mkIdentity 0x0101010101 0 [1]) [] 0 10 [] None 0 None.
Definition root_recent : Peer := mkPeer (mkIdentity 0x0202020202 0 [2]) [] 100000 10 [] None 0 None.

Definition two_roots (roots : list Z) : ref_Node :=
  @mkNode ref_collaborators (mkIdentity 0x0a0a0a0a0a 0 [])
          (<[1 := root_old]> (<[2 := root_recent]> ∅))
          (<[0x0101010101 := 1]> (<[0x0202020202 := 2]> ∅))
          roots None ∅ ∅ ∅ ∅ tt [].

(** A node whose peer map holds one peer, address 0x0101010101 at handle 1,
    and that has no root. *)
Definition ref_self : Identity := mkIdentity 0x0a0a0a0a0a 0 [].

Definition known_peer : Peer :=
  mkPeer (mkIdentity 0x0101010101 0 [1]) [7; 7] 0 10 [] None 0 None.

Definition node1 : ref_Node :=
  @mkNode ref_collaborators ref_self (<[1 := known_peer]> ∅) (<[0x0101010101 := 1]> ∅)
          [] None ∅ ∅ ∅ ∅ tt [].

(** An unfragmented packet as it arrives in a datagram. *)
Definition mk_datagram (packetId dest src flags mac verb : Z) (payload : list Z) : list Z :=
  rev (be_bytes 8 packetId) ++ be_bytes 5 dest ++ be_bytes 5 src ++ [flags]
    ++ rev (be_bytes 8 mac) ++ [verb] ++ payload.

(** A FRAME from the known peer whose flags byte has only bit 5 set. *)
Definition datagram_bit5 : list Z :=
  mk_datagram 0x1122334455667788 0x0a0a0a0a0a 0x0101010101 0x20 0 VERB_FRAME [1; 2].


(** An authentic POLY1305_SALSA2012 FRAME from the known peer (for the
    stand-in primitives the tag is the sum of the authenticated bytes), and
    the same packet with its last payload byte changed. *)
Definition datagram_salsa : list Z :=
  mk_datagram 0x1122334455667788 0x0a0a0a0a0a 0x0101010101 0x10 469 VERB_FRAME (seqZ 1 40).



(** A node that also has a root, handle 2, with a live path. *)
Definition root_with_path : Peer :=
  mkPeer (mkIdentity 0x0202020202 0 [2]) [] 4000 10 [] None 0 (Some (1, 77)).

Definition node2 : ref_Node :=
  @mkNode ref_collaborators ref_self
          (<[1 := known_peer]> (<[2 := root_with_path]> ∅))
          (<[0x0101010101 := 1]> (<[0x0202020202 := 2]> ∅))
          [2] (Some 2) (<[(1, 77) := mkPath 2 4000 0]> ∅) ∅ ∅ ∅ tt [].

(** A HELLO of protocol version 12 sent in the clear by [src] with public key
    [pub], its dictionary length field set to [dictSize], closed by the
    HMAC of the stand-in. *)
Definition hello_body (src : Z) (pub : list Z) (dictSize : Z) (dict : list Z) : list Z :=
  mk_datagram 0x0102030405060708 0x0a0a0a0a0a src 0x08 0 VERB_HELLO
    ([12; 2; 0] ++ be_bytes 2 0 ++ be_bytes 8 1000
       ++ (be_bytes 5 src ++ [0; Z.of_nat (length pub)] ++ pub)
       ++ [0] ++ replicate 4 0 ++ replicate 12 0 ++ [0; 0] ++ be_bytes 2 dictSize ++ dict).

Definition hello (src : Z) (pub : list Z) (dictSize : Z) (dict : list Z) : list Z :=
  hello_body src pub dictSize dict
    ++ replicate 48 ((byte_sum pub + byte_sum (hello_body src pub dictSize dict)) `mod` 256).


(** From the address of the known peer, with another public key. *)
Definition hello_hijack : list Z := hello 0x0101010101 [9] 0 [].

(** Two OK packets that cite packet id 0x55 at the offset [m_OK] reads. *)
Definition ok_packet (packetId inReVerb : Z) : list Z :=
  mk_datagram packetId 0x0a0a0a0a0a 0x0101010101 0x10 0 VERB_OK
              (replicate 13 0 ++ [inReVerb] ++ be_bytes 8 0x55).

(** A node that awaits a reply to packet 0x55, sent at time 4500. *)
Definition node_expecting : ref_Node :=
  @mkNode ref_collaborators ref_self (<[1 := known_peer]> ∅) (<[0x0101010101 := 1]> ∅)
          [] None ∅ ∅ ∅ (<[0x55 := 4500]> ∅) tt [].

(** Ten peers at handles 1 to 10, silent since time 0; handle 1 is a root. *)
Definition silent_peer (n : Z) : Peer :=
  mkPeer (mkIdentity n 0 [n]) [] 0 (-1) [] None 0 None.

Definition node_ten : ref_Node :=
  @mkNode ref_collaborators ref_self
          (list_to_map ((λ n, (n, silent_peer n)) <$> seqZ 1 10))
          (list_to_map ((λ n, (n, n)) <$> seqZ 1 10))
          [1] (Some 1) ∅ ∅ ∅ ∅ tt [].

(** Two roots heard in the same quantum, with latencies 5 and 50, and a third
    one whose latency is unknown. *)
Definition root_fast : Peer := mkPeer (mkIdentity 0x0303030303 0 [3]) [] 100000 5 [] None 0 None.
Definition root_slow : Peer := mkPeer (mkIdentity 0x0404040404 0 [4]) [] 100000 50 [] None 0 None.

Definition roots_by_latency (roots : list Z) : ref_Node :=
  @mkNode ref_collaborators ref_self
          (<[3 := root_fast]> (<[4 := root_slow]> ∅))
          (<[0x0303030303 := 3]> (<[0x0404040404 := 4]> ∅))
          roots None ∅ ∅ ∅ ∅ tt [].

(** A node like [node2] in which one packet waits for the identity of
    0x0303030303, asked for at time 0. *)
Definition waiting_item : p_WhoisQueueItem :=
  mkWhoisItem 0 1 1 (<[0 := 30]> ∅) (<[0 := [1; 2; 3]]> ∅).

Definition node_waiting : ref_Node :=
  @mkNode ref_collaborators ref_self
          (<[1 := known_peer]> (<[2 := root_with_path]> ∅))
          (<[0x0101010101 := 1]> (<[0x0202020202 := 2]> ∅))
          [2] (Some 2) (<[(1, 77) := mkPath 2 4000 0]> ∅) ∅
          (<[0x0303030303 := waiting_item]> ∅) ∅ tt [].

(** A fragment, number 1 of 3, of packet 0x1122334455667788. *)
Definition datagram_fragment : list Z :=
  rev (be_bytes 8 0x1122334455667788) ++ be_bytes 5 0x0a0a0a0a0a ++ [0xff; 0x31; 0]
    ++ [1; 2; 3; 4].




(** A HELLO from a new address whose HMAC is all zero, and one from the
    known peer, with its identity, that is not signed with its key. *)
Definition hello_forged : list Z := hello_body 0x0303030303 [9] 0 [] ++ replicate 48 0.

Definition hello_known : list Z := hello 0x0101010101 [1] 0 [].

(** An authentic HELLO from a new address, the OK that [m_HELLO] sends in
    reply to it (the stand-in for [Protocol::armor] leaves the bytes as they
    are), a node that awaits the reply to that HELLO, and a node that awaits
    the reply to another packet: the one whose id is spelled by bytes 14 to 21
    of the payload of the OK. *)
Definition hello_good : list Z := hello 0x0303030303 [9] 0 [].

Definition ok_reply : list Z :=
  default []
    (fst <$> head (sent_packets
                     (events (@m_HELLO ref_constants ref_collaborators 5000 (1, 99)
                                       hello_good 118 node1).2))).

Definition node_awaiting (packetId : Z) : ref_Node :=
  @mkNode ref_collaborators ref_self (<[1 := known_peer]> ∅) (<[0x0101010101 := 1]> ∅)
          [] None ∅ ∅ ∅ (<[packetId := 4500]> ∅) tt [].

Definition node_awaiting_hello : ref_Node := node_awaiting 0x0102030405060708.

Definition node_awaiting_other : ref_Node := node_awaiting 0x0003e80c02000000.




(** Evaluate the left-hand side of an equation and close it by a checked
    conversion; decide any other goal by evaluation. *)
Ltac run :=
  lazymatch goal with
  | |- ?a = ?b =>
      let v := eval vm_compute in a in
      first [has_evar b; unify b v | idtac];
      vm_cast_no_check (@eq_refl _ v)
  | |- _ => first [vm_compute; done | vm_compute; lia]
  end.

(** * Properties *)

Section Topology_facts.
Context {constants : Constants} {collaborators : Collaborators}.

(** ** Sorting *)

Lemma linear_insert_Permutation {A} (comp : A → A → bool) x l :
  linear_insert comp x l ≡ₚ x :: l.
Proof.
  induction l as [|y l IH]; simpl; [done|].
  destruct (comp x y); [|done].
  rewrite IH. apply Permutation_swap.
Qed.

Lemma foldl_linear_insert_Permutation {A} (comp : A → A → bool) l acc :
  foldl (λ acc x, linear_insert comp x acc) acc l ≡ₚ acc ++ l.
Proof.
  revert acc. induction l as [|x l IH]; intros acc; simpl.
  - by rewrite app_nil_r.
  - rewrite IH, linear_insert_Permutation.
    by rewrite (Permutation_middle acc l x).
Qed.

Lemma std_sort_Permutation {A} (comp : A → A → bool) l : std_sort comp l ≡ₚ l.
Proof.
  unfold std_sort. rewrite <- Permutation_rev.
  by rewrite foldl_linear_insert_Permutation.
Qed.

Lemma std_sort_elem_of {A} (comp : A → A → bool) l x : x ∈ std_sort comp l ↔ x ∈ l.
Proof. by rewrite std_sort_Permutation. Qed.

Lemma binary_search_elem_of l x : binary_search l x = true ↔ x ∈ l.
Proof.
  unfold binary_search. rewrite existsb_exists. split.
  - intros (y & Hy & Heq). apply Z.eqb_eq in Heq. subst. by apply list_elem_of_In.
  - intros Hx. exists x. split; [by apply list_elem_of_In | apply Z.eqb_refl].
Qed.

(** Whatever algorithm [std::sort] runs, on two elements that the comparison
    orders strictly its result is fixed. *)
Lemma sorted_pair_front {A} (comp : A → A → bool) (a b : A) l :
  l ≡ₚ [a; b] → sorted_by comp l → comp a b = true → head l = Some a.
Proof.
  intros Hp Hs Hab.
  assert (Hlen : length l = 2%nat) by (by rewrite Hp).
  destruct l as [|x [|y [|z l]]]; simplify_eq/=.
  assert (Hx : x ∈ [a; b]) by (rewrite <- Hp; apply list_elem_of_here).
  assert (Hy : y ∈ [a; b]) by (rewrite <- Hp; apply list_elem_of_further, list_elem_of_here).
  assert (Ha : a ∈ [x; y]) by (rewrite Hp; apply list_elem_of_here).
  specialize (Hs 0%nat 1%nat x y). simpl in Hs.
  assert (Hyx : comp y x = false) by (apply Hs; [lia|done|done]).
  f_equal.
  apply list_elem_of_In in Hx, Hy, Ha. simpl in Hx, Hy, Ha.
  destruct Hx as [Hx|[Hx|[]]]; [done|].
  destruct Hy as [Hy|[Hy|[]]]; [congruence|].
  destruct Ha as [Ha|[Ha|[]]]; congruence.
Qed.

(** ** m_rankRoots *)

Lemma m_rankRoots_roots w : m_roots (m_rankRoots w) ≡ₚ m_roots w.
Proof.
  unfold m_rankRoots. destruct (m_roots w) eqn:E; simpl; [done|].
  apply std_sort_Permutation.
Qed.

Lemma m_rankRoots_other w :
  objs (m_rankRoots w) = objs w ∧ m_peers (m_rankRoots w) = m_peers w
  ∧ m_paths (m_rankRoots w) = m_paths w ∧ events (m_rankRoots w) = events w.
Proof. unfold m_rankRoots. by destruct (m_roots w). Qed.

Lemma m_rankRoots_bestRoot w :
  Topology_root (m_rankRoots w) = head (m_roots (m_rankRoots w)).
Proof. unfold m_rankRoots, Topology_root. by destruct (m_roots w). Qed.

(** With two roots heard in different quanta of [ZT_PATH_KEEPALIVE_PERIOD / 2],
    the ranking puts the one heard longer ago in front, in whatever order the
    list held them. *)
Lemma m_rankRoots_two w a b :
  m_roots w = [a; b] ∨ m_roots w = [b; a] →
  m_lastReceive (deref w a) `quot` (ZT_PATH_KEEPALIVE_PERIOD `quot` 2)
    < m_lastReceive (deref w b) `quot` (ZT_PATH_KEEPALIVE_PERIOD `quot` 2) →
  Topology_root (m_rankRoots w) = Some a.
Proof.
  intros Hr Hlt.
  assert (Hab : p_RootRankingComparisonOperator (deref w a) (deref w b) = true).
  { unfold p_RootRankingComparisonOperator.
    destruct (Z.ltb_spec (m_lastReceive (deref w a) `quot` (ZT_PATH_KEEPALIVE_PERIOD `quot` 2))
                         (m_lastReceive (deref w b) `quot` (ZT_PATH_KEEPALIVE_PERIOD `quot` 2)));
      [done|lia]. }
  assert (Hba : p_RootRankingComparisonOperator (deref w b) (deref w a) = false).
  { unfold p_RootRankingComparisonOperator.
    destruct (Z.ltb_spec (m_lastReceive (deref w b) `quot` (ZT_PATH_KEEPALIVE_PERIOD `quot` 2))
                         (m_lastReceive (deref w a) `quot` (ZT_PATH_KEEPALIVE_PERIOD `quot` 2)));
      [lia|].
    destruct (Z.eqb_spec (m_lastReceive (deref w a) `quot` (ZT_PATH_KEEPALIVE_PERIOD `quot` 2))
                         (m_lastReceive (deref w b) `quot` (ZT_PATH_KEEPALIVE_PERIOD `quot` 2)));
      [lia|done]. }
  unfold m_rankRoots, Topology_root, std_sort.
  destruct Hr as [-> | ->]; simpl; by rewrite ?Hab, ?Hba.
Qed.

(** ** doPeriodicTasks *)

Lemma flat_map_ext_elem {A B} (f g : A → list B) l :
  (∀ x, x ∈ l → f x = g x) → flat_map f l = flat_map g l.
Proof.
  induction l as [|x l IH]; intros Hfg; simpl; [done|].
  rewrite Hfg by apply list_elem_of_here.
  rewrite IH; [done|]. intros y Hy. apply Hfg. by apply list_elem_of_further.
Qed.

Lemma erase_and_save_fold ks : ∀ w,
  NoDup ks →
  let w' := foldl erase_and_save w ks in
  (∀ a, m_peers w' !! a = if bool_decide (a ∈ ks) then None else m_peers w !! a)
  ∧ events w' = events w
      ++ flat_map (λ a, match m_peers w !! a with
                        | Some p => [EvPeerSave p; EvPeerRelease p]
                        | None => []
                        end) ks
  ∧ objs w' = objs w ∧ m_roots w' = m_roots w ∧ m_paths w' = m_paths w.
Proof.
  induction ks as [|k ks IH]; intros w Hnd; simpl.
  - split_and!; [|by rewrite app_nil_r|done..].
    intros a. done.
  - apply NoDup_cons in Hnd as [Hk Hnd].
    destruct (IH (erase_and_save w k) Hnd) as (Hl & He & Ho & Hr & Hp).
    assert (Hother : ∀ a, a ≠ k → m_peers (erase_and_save w k) !! a = m_peers w !! a).
    { intros a Ha. unfold erase_and_save. destruct (m_peers w !! k); [|done].
      simpl. by rewrite lookup_delete_ne. }
    assert (Hself : m_peers (erase_and_save w k) !! k = None).
    { unfold erase_and_save. destruct (m_peers w !! k) eqn:E; [|done].
      simpl. by rewrite lookup_delete_eq. }
    split_and!.
    + intros a. rewrite Hl. destruct (decide (a = k)) as [->|Hne].
      * rewrite (bool_decide_eq_true_2 (k ∈ k :: ks)) by apply list_elem_of_here.
        by destruct (bool_decide (k ∈ ks)).
      * rewrite Hother by done.
        destruct (decide (a ∈ ks)).
        -- rewrite (bool_decide_eq_true_2 (a ∈ ks)) by done.
           by rewrite (bool_decide_eq_true_2 (a ∈ k :: ks)) by (by apply list_elem_of_further).
        -- rewrite (bool_decide_eq_false_2 (a ∈ ks)) by done.
           rewrite (bool_decide_eq_false_2 (a ∈ k :: ks)); [done|].
           rewrite elem_of_cons. tauto.
    + rewrite He.
      assert (Hfm : flat_map (λ a, match m_peers (erase_and_save w k) !! a with
                                   | Some p => [EvPeerSave p; EvPeerRelease p]
                                   | None => []
                                   end) ks
                    = flat_map (λ a, match m_peers w !! a with
                                     | Some p => [EvPeerSave p; EvPeerRelease p]
                                     | None => []
                                     end) ks).
      { apply flat_map_ext_elem. intros a Ha.
        rewrite Hother; [done|]. intros ->. done. }
      rewrite Hfm. unfold erase_and_save.
      destruct (m_peers w !! k); simpl; [|done].
      by rewrite <- !app_assoc.
    + rewrite Ho. unfold erase_and_save. by destruct (m_peers w !! k).
    + rewrite Hr. unfold erase_and_save. by destruct (m_peers w !! k).
    + rewrite Hp. unfold erase_and_save. by destruct (m_peers w !! k).
Qed.

Lemma path_events_fold (dead : list ((Z * Z) * Path)) : ∀ w : Node,
  let w' := foldl (λ w' kp, emit (EvPathDeleted kp.1) w') w dead in
  m_peers w' = m_peers w ∧ objs w' = objs w ∧ m_roots w' = m_roots w
  ∧ events w' = events w ++ ((λ kp, EvPathDeleted kp.1) <$> dead).
Proof.
  induction dead as [|kp dead IH]; intros w; simpl.
  - by rewrite app_nil_r.
  - destruct (IH (emit (EvPathDeleted kp.1) w)) as (Hp & Ho & Hr & He).
    split_and!; [by rewrite Hp|by rewrite Ho|by rewrite Hr|].
    rewrite He. simpl. by rewrite <- app_assoc.
Qed.

Lemma NoDup_fst_filter {A B} (P : A * B → Prop) `{∀ x, Decision (P x)} (l : list (A * B)) :
  NoDup l.*1 → NoDup (filter P l).*1.
Proof.
  induction l as [|x l IH]; simpl; [done|].
  intros [Hx Hl]%NoDup_cons. rewrite filter_cons.
  destruct (decide (P x)); [|by apply IH].
  simpl. apply NoDup_cons. split; [|by apply IH].
  intros (y & Hy1 & Hy2)%list_elem_of_fmap. apply Hx.
  apply list_elem_of_fmap. exists y. split; [done|].
  by apply list_elem_of_filter in Hy2 as [_ ?].
Qed.

Lemma save_events_of_pairs (m : gmap Z Z) (l : list (Z * Z)) :
  (∀ a p, (a, p) ∈ l → m !! a = Some p) →
  flat_map (λ a, match m !! a with
                 | Some p => [EvPeerSave p; EvPeerRelease p]
                 | None => []
                 end) l.*1
  = flat_map (λ ap, [EvPeerSave ap.2; EvPeerRelease ap.2]) l.
Proof.
  induction l as [|[a p] l IH]; intros Hl; simpl; [done|].
  rewrite (Hl a p) by apply list_elem_of_here. simpl. do 2 f_equal.
  apply IH. intros a' p' Hin. apply Hl. by apply list_elem_of_further.
Qed.

Lemma gc_candidate_spec ticks (w : Node) p :
  gc_candidate ticks (m_rankRoots w) (std_sort Z.ltb (m_roots (m_rankRoots w))) p = true
  ↔ ticks - m_lastReceive (deref w p) > ZT_PEER_ALIVE_TIMEOUT ∧ p ∉ m_roots w.
Proof.
  unfold gc_candidate, deref.
  destruct (m_rankRoots_other w) as (-> & _).
  rewrite andb_true_iff, negb_true_iff, Z.gtb_gt.
  assert (Hmem : binary_search (std_sort Z.ltb (m_roots (m_rankRoots w))) p = true
                 ↔ p ∈ m_roots w).
  { by rewrite binary_search_elem_of, std_sort_elem_of, m_rankRoots_roots. }
  destruct (binary_search (std_sort Z.ltb (m_roots (m_rankRoots w))) p).
  - split; [intros [_ ?]; done|]. intros [_ Hn]. destruct Hn. by apply Hmem.
  - split; [|tauto]. intros [? _]. split; [done|]. intros Hin. by apply Hmem in Hin.
Qed.

(** C5: every run of [doPeriodicTasks] removes from the peer map exactly the
    peers whose [ticks - lastReceive] exceeds [ZT_PEER_ALIVE_TIMEOUT] and whose
    object is not in the root list; a root is never removed, whatever its
    [lastReceive]; and for every removed peer the call of [save] comes before
    the handle to the object is dropped. *)
Theorem C5_doPeriodicTasks_removes_stale_non_roots (ticks : Z) (w : Node) :
  (∀ a, m_peers (doPeriodicTasks ticks w) !! a =
        match m_peers w !! a with
        | Some p => if bool_decide (peer_stale ticks w p ∧ p ∉ m_roots w) then None else Some p
        | None => None
        end)
  ∧ (∀ a p, m_peers w !! a = Some p → p ∈ m_roots w →
            m_peers (doPeriodicTasks ticks w) !! a = Some p)
  ∧ ∃ (removed : list (Z * Z)) (dead : list (Z * Z * Path)),
      (∀ a p, (a, p) ∈ removed
              ↔ m_peers w !! a = Some p ∧ peer_stale ticks w p ∧ p ∉ m_roots w)
      ∧ events (doPeriodicTasks ticks w) = events w
          ++ flat_map (λ ap, [EvPeerSave ap.2; EvPeerRelease ap.2]) removed
          ++ ((λ kp, EvPathDeleted kp.1) <$> dead).
Proof.
  set (stale := peer_stale ticks w). unfold doPeriodicTasks.
  set (w1 := m_rankRoots w).
  set (rootLookup := std_sort Z.ltb (m_roots w1)).
  set (removed := filter (λ ap : Z * Z, gc_candidate ticks w1 rootLookup ap.2 = true)
                         (map_to_list (m_peers w1))).
  destruct (m_rankRoots_other w) as (Ho1 & Hp1 & _ & He1). fold w1 in Ho1, Hp1, He1.
  assert (Hrem : ∀ a p, (a, p) ∈ removed ↔ m_peers w !! a = Some p ∧ stale p ∧ p ∉ m_roots w).
  { intros a p. unfold removed. rewrite list_elem_of_filter, elem_of_map_to_list, Hp1. simpl.
    unfold rootLookup, w1. rewrite gc_candidate_spec. unfold stale, peer_stale. tauto. }
  assert (Hnd : NoDup removed.*1).
  { apply NoDup_fst_filter, NoDup_fst_map_to_list. }
  destruct (erase_and_save_fold removed.*1 w1 Hnd) as (Hl & He & Ho & Hr & Hpa).
  set (w2 := foldl erase_and_save w1 removed.*1) in *.
  set (dead := filter (λ kp : Z * Z * Path, weakGC kp.2 = true) (map_to_list (m_paths w2))).
  destruct (path_events_fold dead
              (with_paths (filter (λ kp : Z * Z * Path, weakGC kp.2 = false) (m_paths w2)) w2))
    as (Hp3 & _ & _ & He3).
  simpl in Hp3, He3.
  assert (Hlookup : ∀ a, m_peers w2 !! a =
            match m_peers w !! a with
            | Some p => if bool_decide (stale p ∧ p ∉ m_roots w) then None else Some p
            | None => None
            end).
  { intros a. rewrite Hl, Hp1.
    destruct (m_peers w !! a) as [p|] eqn:Ea.
    - destruct (decide (stale p ∧ p ∉ m_roots w)) as [Hs|Hs].
      + rewrite (bool_decide_eq_true_2 (stale p ∧ p ∉ m_roots w)) by done.
        rewrite bool_decide_eq_true_2; [done|].
        apply list_elem_of_fmap. exists (a, p). split; [done|]. apply Hrem. tauto.
      + rewrite (bool_decide_eq_false_2 (stale p ∧ p ∉ m_roots w)) by done.
        rewrite bool_decide_eq_false_2; [done|].
        intros ([a' p'] & -> & Hin)%list_elem_of_fmap. simpl in *.
        apply Hrem in Hin as (Hin & ?). rewrite Ea in Hin. simplify_eq. tauto.
    - by destruct (bool_decide (a ∈ removed.*1)). }
  split_and!.
  - intros a. rewrite Hp3. apply Hlookup.
  - intros a p Ha Hroot. rewrite Hp3, Hlookup, Ha.
    rewrite bool_decide_eq_false_2; [done|]. tauto.
  - exists removed, dead. split; [done|].
    rewrite He3, He, He1. rewrite <- app_assoc. do 2 f_equal.
    apply save_events_of_pairs. intros a p Hin.
    rewrite Hp1. by apply Hrem in Hin as (? & _).
Qed.

End Topology_facts.

Section VL1_facts.
Context {constants : Constants} {collaborators : Collaborators}.

(** ** The cipher field *)

Lemma cipher_of_flags_div_mod flags : cipher_of_flags flags = (flags `div` 8) `mod` 4.
Proof.
  unfold cipher_of_flags.
  rewrite Z.shiftr_div_pow2 by lia.
  change 3 with (Z.ones 2). rewrite Z.land_ones by lia. done.
Qed.

Lemma cipher_of_flags_defined flags :
  cipher_of_flags flags = ZT_PROTO_CIPHER_NONE
  ∨ cipher_of_flags flags = ZT_PROTO_CIPHER_POLY1305_NONE
  ∨ cipher_of_flags flags = ZT_PROTO_CIPHER_POLY1305_SALSA2012
  ∨ cipher_of_flags flags = ZT_PROTO_CIPHER_AES_GMAC_SIV.
Proof.
  rewrite cipher_of_flags_div_mod.
  unfold ZT_PROTO_CIPHER_NONE, ZT_PROTO_CIPHER_POLY1305_NONE,
    ZT_PROTO_CIPHER_POLY1305_SALSA2012, ZT_PROTO_CIPHER_AES_GMAC_SIV.
  pose proof (Z.mod_pos_bound (flags `div` 8) 4). lia.
Qed.

Lemma cipher_of_flags_bit5 flags k : cipher_of_flags (flags + 32 * k) = cipher_of_flags flags.
Proof.
  rewrite !cipher_of_flags_div_mod.
  replace (flags + 32 * k) with (flags + (4 * k) * 8) by lia.
  rewrite Z.div_add by lia.
  replace (flags `div` 8 + 4 * k) with (flags `div` 8 + k * 4) by lia.
  by rewrite Z.mod_add by lia.
Qed.

(** ** Entering the pipeline *)

Lemma deref_ext (w w' : Node) p : objs w' = objs w → deref w' p = deref w p.
Proof. unfold deref. by intros ->. Qed.

Lemma same_core_refl (w : Node) : same_core w w.
Proof. by repeat split. Qed.

Lemma same_core_trans (w1 w2 w3 : Node) : same_core w1 w2 → same_core w2 w3 → same_core w1 w3.
Proof.
  unfold same_core. intros (?&?&?&?&?&?&?&?&?) (?&?&?&?&?&?&?&?&?).
  split_and!; congruence.
Qed.

Lemma enter_core ticks localSocket fromAddr len (w : Node) :
  same_core w (enter ticks localSocket fromAddr len w).
Proof.
  unfold enter, Path_received, Topology_path, m_newPath.
  destruct (m_paths w !! (localSocket, fromAddr)); by repeat split.
Qed.

Lemma classify_core ticks path packetId data len (w : Node) r w1 :
  classify ticks path packetId data len w = (r, w1) → same_core w w1.
Proof.
  unfold classify. intros Hc.
  destruct (_ =? _) in Hc.
  - destruct (assemble _ _ _ _ _ _ _ _ _) as [[asm []] pktv]; simplify_eq; by repeat split.
  - destruct (len <? _) in Hc; [simplify_eq; by repeat split|].
    destruct (negb _) in Hc; [|simplify_eq; by repeat split].
    destruct (assemble _ _ _ _ _ _ _ _ _) as [[asm []] pktv]; simplify_eq; by repeat split.
Qed.


(** ** A packet that fails its MAC *)

Lemma new_handle_fresh (w : Node) : objs w !! new_handle w = None.
Proof. apply not_elem_of_dom. unfold new_handle. apply is_fresh. Qed.

Lemma Topology_peer_frame ticks zta b (w : Node) :
  events (Topology_peer ticks zta b w).2 = events w
  ∧ m_whoisQueue (Topology_peer ticks zta b w).2 = m_whoisQueue w
  ∧ expect (Topology_peer ticks zta b w).2 = expect w
  ∧ (∀ p o, objs w !! p = Some o → objs (Topology_peer ticks zta b w).2 !! p = Some o)
  ∧ (∀ hp, m_peers w !! zta = Some hp → Topology_peer ticks zta b w = (Some hp, w)).
Proof.
  unfold Topology_peer, m_peerFromCached.
  destruct (m_peers w !! zta) eqn:E.
  { split_and!; try done. intros hp Hhp. by simplify_eq. }
  destruct b; [|by split_and!].
  destruct (m_loadCached ticks zta w) as [cached|]; [|by split_and!].
  split_and!; try done.
  intros p o Ho. cbn [snd objs with_peers with_objs].
  rewrite lookup_insert_ne; [done|].
  intros Heq. pose proof (new_handle_fresh w) as Hf. rewrite Heq in Hf. congruence.
Qed.


(** ** The WHOIS branch *)

Lemma whois_send_loop_spec fuel : ∀ ticks root rootPath a (w : Node),
  m_whoisQueue (whois_send_loop fuel ticks root rootPath a w) = m_whoisQueue w
  ∧ m_peers (whois_send_loop fuel ticks root rootPath a w) = m_peers w
  ∧ ∃ sends, events (whois_send_loop fuel ticks root rootPath a w) = events w ++ sends
             ∧ Forall is_send sends.
Proof.
  induction fuel as [|fuel IH]; intros ticks root rootPath a w.
  - simpl. split_and!; [done..|]. exists []. by rewrite app_nil_r.
  - destruct a as [|x a]; cbn [whois_send_loop].
    { split_and!; [done..|]. exists []. by rewrite app_nil_r. }
    unfold Peer_key_nextMessage.
    destruct (whois_fill _ _ _) as [[p outp1] rest].
    destruct (Protocol_armor _ _ _ _) as [armoredId outp].
    match goal with
    | |- context [whois_send_loop fuel ticks root rootPath rest ?w1] =>
        destruct (IH ticks root rootPath rest w1) as (Hq & Hp & sends & He & Hs)
    end.
    rewrite Hq, Hp, He. split_and!; [done..|].
    exists (EvPeerSend root outp p rootPath :: sends). split.
    + simpl. by rewrite <- app_assoc.
    + by constructor.
Qed.




(** ** Stored identities *)

Lemma stored_emit a p i e (w : Node) : stored a p i w → stored a p i (emit e w).
Proof. done. Qed.

Lemma stored_update_peer a p i q f (w : Node) :
  (∀ o, m_id (f o) = m_id o) → stored a p i w → stored a p i (update_peer q f w).
Proof.
  intros Hf (Hm & o & Ho & Hi). split; [done|].
  unfold update_peer. cbn [objs with_objs].
  destruct (decide (q = p)) as [->|Hne].
  - exists (f (deref w p)). rewrite lookup_insert_eq. split; [done|].
    unfold deref. rewrite Ho. simpl. by rewrite Hf.
  - exists o. by rewrite lookup_insert_ne.
Qed.

Lemma stored_learn a p i z o' (w : Node) :
  m_peers w !! z = None →
  stored a p i w →
  stored a p i (with_peers (<[z := new_handle w]> (m_peers w))
                           (with_objs (<[new_handle w := o']> (objs w)) w)).
Proof.
  intros Hz (Hm & o & Ho & Hi). split; cbn [m_peers objs with_peers with_objs].
  - rewrite lookup_insert_ne; [done|]. intros ->. congruence.
  - exists o. split; [|done]. rewrite lookup_insert_ne; [done|].
    intros Heq. pose proof (new_handle_fresh w) as Hf. rewrite Heq in Hf. congruence.
Qed.

Lemma stored_m_peerFromCached a p i ticks zta (w : Node) :
  m_peers w !! zta = None → stored a p i w → stored a p i (m_peerFromCached ticks zta w).2.
Proof.
  intros Hz Hs. unfold m_peerFromCached.
  destruct (m_loadCached ticks zta w); [|done].
  rewrite Hz. by apply stored_learn.
Qed.

Lemma stored_Topology_peer a p i ticks zta b (w : Node) :
  stored a p i w → stored a p i (Topology_peer ticks zta b w).2.
Proof.
  intros Hs. unfold Topology_peer.
  destruct (m_peers w !! zta) eqn:Hz; [done|].
  destruct b; [|done]. by apply stored_m_peerFromCached.
Qed.

Lemma stored_Topology_add a p i ticks h (w : Node) :
  stored a p i w → stored a p i (Topology_add ticks h w).2.
Proof.
  intros Hs. unfold Topology_add.
  destruct (m_peers w !! address (deref w h)) eqn:Hz; [done|].
  destruct (m_loadCached ticks (address (deref w h)) w).
  - by apply stored_learn.
  - destruct Hs as (Hm & Ho). split; [|done]. cbn [snd m_peers with_peers].
    rewrite lookup_insert_ne; [done|]. intros Heq. rewrite Heq in Hz. congruence.
Qed.

Lemma stored_deduplicateIncomingPacket a p i q packetId (w : Node) :
  stored a p i w → stored a p i (deduplicateIncomingPacket q packetId w).2.
Proof.
  intros Hs. unfold deduplicateIncomingPacket.
  destruct (bool_decide _); [done|]. by apply stored_update_peer.
Qed.

Lemma stored_HELLO_peer a p i ticks packetId hops id (w : Node) :
  stored a p i w → stored a p i (HELLO_peer ticks packetId hops id w).2.
Proof.
  intros Hs. unfold HELLO_peer.
  pose proof (stored_Topology_peer a p i ticks (id_address id) true w Hs) as Hs1.
  destruct (Topology_peer ticks (id_address id) true w) as [[peer|] w1]; cbn [snd] in Hs1.
  - destruct (bool_decide _); [done|].
    pose proof (stored_deduplicateIncomingPacket a p i peer packetId w1 Hs1) as Hs2.
    destruct (deduplicateIncomingPacket peer packetId w1) as [[] w2]; done.
  - destruct (negb _); [done|].
    destruct (Peer_init (m_identity w1) id) as [key|]; [|done].
    match goal with
    | |- context [Topology_add ticks ?h ?w2] =>
        pose proof (stored_Topology_add a p i ticks h w2) as Hs3;
        destruct (Topology_add ticks h w2) as [peer w3]
    end.
    apply Hs3. destruct Hs1 as (Hm & o & Ho & Hi). split; [done|].
    exists o. split; [|done]. cbn [objs with_objs].
    rewrite lookup_insert_ne; [done|].
    intros Heq. pose proof (new_handle_fresh w1) as Hf. rewrite Heq in Hf. congruence.
Qed.

Lemma HELLO_authenticate_node packetId mac hops protoVersion peer id pkt packetSize (w : Node) :
  (∀ r w1, HELLO_authenticate packetId mac hops protoVersion peer id pkt packetSize w
           = (Some r, w1) → w1 = w)
  ∧ ∀ a p i, stored a p i w →
      stored a p i (HELLO_authenticate packetId mac hops protoVersion peer id pkt packetSize w).2.
Proof.
  unfold HELLO_authenticate. split.
  - intros r w1.
    repeat match goal with |- context [if ?b then _ else _] => destruct b end;
      intros; by simplify_eq.
  - intros a p i Hs.
    repeat match goal with |- context [if ?b then _ else _] => destruct b end; done.
Qed.

Lemma stored_HELLO_reply a p i packetId timestamp protoVersion versionMajor versionMinor versionRev
    peer path pkt (w : Node) :
  stored a p i w →
  stored a p i (HELLO_reply packetId timestamp protoVersion versionMajor versionMinor versionRev
                            peer path pkt w).2.
Proof.
  intros Hs. unfold HELLO_reply, Peer_key_nextMessage, Peer_setRemoteVersion, Peer_send.
  assert (Hk : ∀ c, stored a p i (update_peer peer (Peer_with_keyCounter c) w))
    by (intros c; by apply stored_update_peer).
  repeat match goal with |- context [if ?b then _ else _] => destruct b end;
    cbn [snd]; try done;
    by repeat first [apply stored_emit | apply stored_update_peer; [done|]].
Qed.

Lemma stored_HELLO_finish a p i packetId hops timestamp protoVersion versionMajor versionMinor
    versionRev peer path pkt packetSize ii (w : Node) :
  stored a p i w →
  stored a p i (HELLO_finish packetId hops timestamp protoVersion versionMajor versionMinor
                             versionRev peer path pkt packetSize ii w).2.
Proof.
  intros Hs. unfold HELLO_finish.
  destruct (rO _ pkt ii) as [[ms []] ii1].
  destruct (ms <? 0); [done|].
  destruct (11 <=? protoVersion); [|by apply stored_HELLO_reply].
  destruct (HELLO_dictionary _ _ _ _); try done; by apply stored_HELLO_reply.
Qed.

Lemma stored_m_HELLO a p i ticks path pkt packetSize (w : Node) :
  stored a p i w → stored a p i (m_HELLO ticks path pkt packetSize w).2.
Proof.
  intros Hs. unfold m_HELLO.
  destruct (_ <? ZT_PROTO_VERSION_MIN); [done|].
  destruct (rO Identity_unmarshal pkt _) as [[ms id] ii].
  destruct (ms <? 0); [done|].
  destruct (bool_decide _); [done|].
  match goal with
  | |- context [HELLO_peer ticks ?pid ?hops id w] =>
      pose proof (stored_HELLO_peer a p i ticks pid hops id w Hs) as Hs1;
      destruct (HELLO_peer ticks pid hops id w) as [[peer|] w1]; [|done]
  end.
  cbn [snd] in Hs1.
  match goal with
  | |- context [HELLO_authenticate ?pid ?mac ?hops ?pv peer id pkt packetSize w1] =>
      pose proof (proj2 (HELLO_authenticate_node pid mac hops pv peer id pkt packetSize w1)
                        a p i Hs1) as Hs2;
      destruct (HELLO_authenticate pid mac hops pv peer id pkt packetSize w1)
        as [[[pkt1 packetSize1]|] w2]; [|done]
  end.
  by apply stored_HELLO_finish.
Qed.

Lemma stored_frame a p i (w w' : Node) :
  m_peers w' = m_peers w → objs w' = objs w → stored a p i w → stored a p i w'.
Proof. unfold stored. by intros -> ->. Qed.

Lemma stored_Peer_received a p i q ticks path hops packetId payloadLen verb inReVerb (w : Node) :
  stored a p i w →
  stored a p i (Peer_received q ticks path hops packetId payloadLen verb inReVerb w).
Proof. intros Hs. unfold Peer_received. by apply stored_emit, stored_update_peer. Qed.

Lemma stored_m_OK a p i ticks packetId auth path peer pkt packetSize (w : Node) :
  stored a p i w → stored a p i (m_OK ticks packetId auth path peer pkt packetSize w).2.
Proof.
  intros Hs. unfold m_OK.
  destruct (readOverflow _ _); [done|].
  unfold Expect_expecting.
  destruct (expect w !! _); [|done].
  by destruct (negb _).
Qed.

Lemma stored_dispatch a p i ticks path packetId auth hops peer verb pkt pktSize (w : Node) :
  stored a p i w →
  stored a p i (dispatch ticks path packetId auth hops peer verb pkt pktSize w).2.
Proof.
  intros Hs. unfold dispatch.
  destruct (verb =? VERB_NOP); [done|].
  destruct (verb =? VERB_HELLO).
  { pose proof (stored_m_HELLO a p i ticks path pkt pktSize
                  (handler_call verb packetId auth peer pkt pktSize w) Hs) as H1.
    by destruct (m_HELLO _ _ _ _ _) as [r w1]. }
  destruct (verb =? VERB_OK).
  { pose proof (stored_m_OK a p i ticks packetId auth path peer pkt pktSize
                  (handler_call verb packetId auth peer pkt pktSize w) Hs) as H1.
    by destruct (m_OK _ _ _ _ _ _ _ _) as [[ok inReVerb] w1]. }
  destruct (bool_decide (verb ∈ compiled_out_verbs)); [done|].
  destruct (bool_decide (verb ∈ vl2_verbs)); [by destruct (VL2_handler _ _ _ _ _ _)|].
  by destruct (_ || _).
Qed.

Lemma stored_process_authenticated a p i ticks path packetId hops auth peer pkt pktSize (w : Node) :
  stored a p i w →
  stored a p i (catch_all (process_authenticated ticks path packetId hops auth peer pkt pktSize w)).
Proof.
  intros Hs. unfold process_authenticated.
  destruct (pktSize <? _); [done|].
  pose proof (stored_deduplicateIncomingPacket a p i peer packetId w Hs) as H1.
  destruct (deduplicateIncomingPacket peer packetId w) as [[] w1]; [done|].
  cbn [snd] in H1.
  destruct (decompress _ pkt pktSize) as [[pkt1 pktSize1]|]; [|done].
  match goal with
  | |- context [dispatch ticks path packetId auth hops peer ?verb pkt1 pktSize1 w1] =>
      pose proof (stored_dispatch a p i ticks path packetId auth hops peer verb pkt1 pktSize1
                    w1 H1) as H2;
      destruct (dispatch ticks path packetId auth hops peer verb pkt1 pktSize1 w1)
        as [[[[] inReVerb]|] w2]
  end; cbn [catch_all]; try done.
  by apply stored_Peer_received.
Qed.

Lemma stored_whois_send_loop a p i fuel ticks root rootPath toSend (w : Node) :
  stored a p i w → stored a p i (whois_send_loop fuel ticks root rootPath toSend w).
Proof.
  revert toSend w. induction fuel as [|fuel IH]; intros toSend w Hs; [done|].
  destruct toSend as [|x rest]; [done|].
  cbn [whois_send_loop]. unfold Peer_key_nextMessage.
  destruct (whois_fill _ _ _) as [[q outp1] rest'].
  destruct (Protocol_armor _ _ _ _) as [armoredId outp].
  apply IH. unfold Peer_send, Expect_sending. apply stored_emit.
  eapply stored_frame; [done|done|]. by apply stored_update_peer.
Qed.

Lemma stored_m_sendPendingWhois a p i ticks (w : Node) :
  stored a p i w → stored a p i (m_sendPendingWhois ticks w).
Proof.
  intros Hs. unfold m_sendPendingWhois.
  destruct (Topology_root w); [|done].
  destruct (Peer_path _ _ _); [|done].
  by apply stored_whois_send_loop.
Qed.

Lemma stored_queue_whois a p i ticks source pktv pkt pktSize (w : Node) :
  stored a p i w → stored a p i (queue_whois ticks source pktv pkt pktSize w).
Proof.
  intros Hs. unfold queue_whois.
  destruct (if pktSize <=? 0 then mergeCopy pktv else (pktSize, pkt)) as [pktSize1 pkt1].
  destruct (_ <=? pktSize1); [|done].
  destruct (_ <=? _); [|done].
  by apply stored_m_sendPendingWhois.
Qed.

Lemma stored_authenticate a p i ticks path packetId pktv (w : Node) :
  stored a p i w →
  match authenticate ticks path packetId pktv w with
  | AuthReturned w1 | AuthContinue _ _ _ _ w1 => stored a p i w1
  end.
Proof.
  intros Hs. unfold authenticate.
  destruct (_ && _).
  - destruct (mergeCopy pktv) as [pktSize pkt].
    destruct (pktSize <? _); [done|].
    pose proof (stored_m_HELLO a p i ticks path pkt pktSize
                  (handler_call VERB_HELLO packetId 0 0 pkt pktSize w) Hs) as H1.
    destruct (m_HELLO _ _ _ _ _) as [[peer|] w1]; [|done].
    by apply stored_Peer_received.
  - pose proof (stored_Topology_peer a p i ticks (packet_source pktv)
                  peer_loadFromCached_default w Hs) as H1.
    destruct (Topology_peer _ _ _ _) as [[peer|] w1]; [|done].
    cbn [snd] in H1. unfold authenticate_switch.
    destruct (_ =? ZT_PROTO_CIPHER_POLY1305_NONE).
    { destruct (merge_poly1305 _ _ _) as [[pktSize pkt] s20cf].
      destruct (pktSize <? _); [done|]. by destruct (bool_decide _). }
    destruct (_ =? ZT_PROTO_CIPHER_POLY1305_SALSA2012).
    { destruct (merge_salsa2012 _ _ _) as [[pktSize pkt] s20cf].
      destruct (pktSize <? _); [done|]. by destruct (bool_decide _). }
    destruct (_ =? ZT_PROTO_CIPHER_NONE); [done|].
    by destruct (_ =? ZT_PROTO_CIPHER_AES_GMAC_SIV).
Qed.

Lemma stored_onRemotePacket a p i ticks localSocket fromAddr data len (w : Node) :
  stored a p i w → stored a p i (onRemotePacket ticks localSocket fromAddr data len w).
Proof.
  intros Hs. unfold onRemotePacket, onRemotePacket_try.
  assert (He : stored a p i (enter ticks localSocket fromAddr len w)).
  { destruct (enter_core ticks localSocket fromAddr len w) as (_ & Ho & Hp & _).
    by apply (stored_frame a p i w). }
  destruct (len <? _); [done|].
  destruct (bool_decide _); [done|].
  destruct (classify _ _ _ _ _ _) as [[pktv|] wc] eqn:Hc;
    (destruct (classify_core _ _ _ _ _ _ _ _ Hc) as (_ & Ho & Hp & _);
     pose proof (stored_frame a p i _ wc Hp Ho He) as Hsc); [|done].
  unfold process_assembled.
  pose proof (stored_authenticate a p i ticks (localSocket, fromAddr)
                (loadMachineEndian64 data ZT_PROTO_PACKET_ID_INDEX) pktv wc Hsc) as Ha.
  destruct (authenticate _ _ _ _ _) as [w1|auth [peer|] pkt pktSize w1]; [done| |].
  - destruct (bool_decide _); [by apply stored_process_authenticated|].
    by apply stored_queue_whois.
  - destruct (bool_decide _); [done|]. by apply stored_queue_whois.
Qed.

(** C3: when the peer map already holds a Peer for the address of the
    identity parsed from a HELLO (of an acceptable protocol version) and that
    Peer's identity differs from the parsed one, [m_HELLO] returns no peer and
    reports MAC_FAILED, changing nothing else; and whatever HELLO is
    processed, by [m_HELLO] alone or as a datagram given to [onRemotePacket],
    the peer map keeps that Peer for the address and the Peer keeps its
    identity. *)
Theorem C3_hello_never_replaces_stored_identity
    ticks path pkt packetSize (w : Node) peer stored_id ms id ii :
  ZT_PROTO_VERSION_MIN ≤ byte_at pkt ZT_PROTO_PACKET_PAYLOAD_START →
  rO Identity_unmarshal pkt (ZT_PROTO_PACKET_PAYLOAD_START + 13) = (ms, id, ii) →
  0 ≤ ms →
  stored (id_address id) peer stored_id w →
  stored_id ≠ id →
  (∃ code ident,
     m_HELLO ticks path pkt packetSize w
     = (None,
        incomingPacketDropped code (loadMachineEndian64 pkt ZT_PROTO_PACKET_ID_INDEX) ident
          (Z.land (byte_at pkt ZT_PROTO_PACKET_FLAGS_INDEX) ZT_PROTO_FLAG_FIELD_HOPS_MASK)
          VERB_HELLO MAC_FAILED w))
  ∧ (∀ ticks' path' pkt' packetSize',
       stored (id_address id) peer stored_id (m_HELLO ticks' path' pkt' packetSize' w).2)
  ∧ (∀ ticks' localSocket fromAddr data len,
       stored (id_address id) peer stored_id
              (onRemotePacket ticks' localSocket fromAddr data len w)).
Proof.
  intros Hver Hid Hms Hs Hne.
  split; [|split; intros; [by apply stored_m_HELLO | by apply stored_onRemotePacket]].
  unfold m_HELLO.
  destruct (Z.ltb_spec (byte_at pkt ZT_PROTO_PACKET_PAYLOAD_START) ZT_PROTO_VERSION_MIN); [lia|].
  rewrite Hid.
  destruct (Z.ltb_spec ms 0); [lia|].
  destruct (bool_decide _); [by eauto|].
  unfold HELLO_peer, Topology_peer.
  destruct Hs as (Hm & o & Ho & Hi). rewrite Hm.
  assert (Hd : m_id (deref w peer) = stored_id) by (unfold deref; by rewrite Ho).
  rewrite bool_decide_eq_true_2 by (by rewrite Hd). eauto.
Qed.

(** ** A HELLO whose dictionary is malformed *)

Lemma Topology_peer_events ticks zta b (w : Node) :
  events (Topology_peer ticks zta b w).2 = events w.
Proof.
  unfold Topology_peer, m_peerFromCached.
  destruct (m_peers w !! zta) eqn:E; [done|]. destruct b; [|done].
  by destruct (m_loadCached ticks zta w).
Qed.

Lemma Topology_add_events ticks h (w : Node) : events (Topology_add ticks h w).2 = events w.
Proof.
  unfold Topology_add. destruct (m_peers w !! _); [done|].
  by destruct (m_loadCached _ _ _).
Qed.

Lemma deduplicateIncomingPacket_events p packetId (w : Node) :
  events (deduplicateIncomingPacket p packetId w).2 = events w.
Proof. unfold deduplicateIncomingPacket. by destruct (bool_decide _). Qed.





(** ** Exceptions *)



(** ** Deduplication *)






End VL1_facts.

(** * The model at work on the reference configuration *)

(** C4: the claim says the best root is the one heard most recently, then the
    one of lowest latency, as the comment above the comparison operator does.
    The operator orders by ascending last-receive quantum: of a root last
    heard at time 0 and one heard at time 100000 the ranking returns the
    first, in whatever order the list held them and for any sorting
    algorithm; and of two roots heard in the same quantum with latencies 5
    and 50 it returns the slower one. *)
Theorem C4_ranking_returns_the_root_heard_longest_ago :
  m_lastReceive root_old < m_lastReceive root_recent
  ∧ @Topology_root ref_collaborators (@m_rankRoots ref_constants ref_collaborators (two_roots [2; 1]))
    = Some 1
  ∧ @Topology_root ref_collaborators (@m_rankRoots ref_constants ref_collaborators (two_roots [1; 2]))
    = Some 1
  ∧ (∀ l, l ≡ₚ [2; 1] →
       sorted_by (λ a b, @p_RootRankingComparisonOperator ref_constants
                           (@deref ref_collaborators (two_roots [2; 1]) a)
                           (@deref ref_collaborators (two_roots [2; 1]) b)) l →
       head l = Some 1)
  ∧ m_latency root_fast < m_latency root_slow
  ∧ @Topology_root ref_collaborators
      (@m_rankRoots ref_constants ref_collaborators (roots_by_latency [3; 4])) = Some 4
  ∧ @Topology_root ref_collaborators
      (@m_rankRoots ref_constants ref_collaborators (roots_by_latency [4; 3])) = Some 4.
Proof.
  split_and!; try run.
  intros l Hp Hs.
  assert (Hp' : l ≡ₚ [1; 2]) by (rewrite Hp; apply Permutation_swap).
  apply (sorted_pair_front _ 1 2 l Hp') in Hs; [done|run].
Qed.

(** C5 on ten silent peers of which one is a root: the root stays, a peer
    that is not a root goes. *)
Lemma C5_witness :
  m_peers (@doPeriodicTasks ref_constants ref_collaborators 700000 node_ten) !! 1 = Some 1
  ∧ m_peers (@doPeriodicTasks ref_constants ref_collaborators 700000 node_ten) !! 2 = None.
Proof.
  destruct (@C5_doPeriodicTasks_removes_stale_non_roots ref_constants ref_collaborators
              700000 node_ten) as (Hl & Hr & _).
  split.
  - apply Hr; [run|]. apply list_elem_of_here.
  - rewrite (Hl 2). run.
Defined.

(** C6: the claim is what the switch on the cipher is written for, but not
    what the code does.  Line 182 reads the cipher as [(flags >> 3) & 3], two
    bits: bit 5 of the flags byte is ignored, every flags byte yields one of
    the four defined ciphers, and the [default] arm of the switch (line 263,
    INVALID_OBJECT) is taken for no packet.  A FRAME from a known peer whose
    flags byte is 0x20, the value 4 in bits 3..5, is read as cipher NONE: it
    is not dropped with INVALID_OBJECT, nothing is traced, and the packet is
    queued for a WHOIS. *)
Theorem C6_cipher_values_above_three_are_not_rejected :
  (∀ flags, cipher_of_flags flags = (flags `div` 8) `mod` 4)
  ∧ (∀ flags k, cipher_of_flags (flags + 32 * k) = cipher_of_flags flags)
  ∧ (∀ flags,
       cipher_of_flags flags ∈ [ZT_PROTO_CIPHER_NONE; ZT_PROTO_CIPHER_POLY1305_NONE;
                                ZT_PROTO_CIPHER_POLY1305_SALSA2012; ZT_PROTO_CIPHER_AES_GMAC_SIV])
  ∧ byte_at datagram_bit5 ZT_PROTO_PACKET_FLAGS_INDEX = 0x20
  ∧ Z.land (Z.shiftr 0x20 3) 7 = 4
  ∧ cipher_of_flags 0x20 = ZT_PROTO_CIPHER_NONE
  ∧ events (@onRemotePacket ref_constants ref_collaborators 5000 1 99 datagram_bit5 30 node1) = []
  ∧ is_Some (m_whoisQueue
               (@onRemotePacket ref_constants ref_collaborators 5000 1 99 datagram_bit5 30 node1)
               !! 0x0101010101).
Proof.
  split_and!.
  - apply cipher_of_flags_div_mod.
  - apply cipher_of_flags_bit5.
  - intros flags. rewrite !elem_of_cons.
    destruct (cipher_of_flags_defined flags) as [->|[->|[->| ->]]]; tauto.
  - run.
  - run.
  - run.
  - run.
  - vm_compute. eauto.
Qed.

(** C7: the claim is right and [m_OK] is not.  [m_OK] takes the in-re verb
    from byte 13 of the payload and asks [expecting] about the number in
    bytes 14 to 21 (line 625), while the OK that [m_HELLO] writes (lines
    547-551) has the in-re verb in byte 0 and the in-re packet id in bytes 1
    to 8.  So the reply to a HELLO, received by the node that awaits it, is
    dropped with REPLY_NOT_EXPECTED and the expectation is left in place; and
    the same OK is accepted by a node that does not await its in-re packet id
    but a packet whose id is spelled by the end of the timestamp and the
    version fields of the reply. *)
Theorem C7_m_OK_reads_the_in_re_fields_13_bytes_behind_where_m_HELLO_writes_them :
  (∀ (constants : Constants) (collaborators : Collaborators)
     ticks packetId auth path peer pkt packetSize (w : Node),
     ZT_PROTO_PACKET_PAYLOAD_START + 22 ≤ packetSize →
     (m_OK ticks packetId auth path peer pkt packetSize w).1
     = ((Expect_expecting (loadBigEndian pkt (ZT_PROTO_PACKET_PAYLOAD_START + 14) 8) ticks w).1,
        byte_at pkt (ZT_PROTO_PACKET_PAYLOAD_START + 13)))
  ∧ sent_packets (events (@m_HELLO ref_constants ref_collaborators 5000 (1, 99)
                                   hello_good 118 node1).2) = [(ok_reply, 103)]
  ∧ byte_at ok_reply ZT_PROTO_PACKET_VERB_INDEX = VERB_OK
  ∧ byte_at ok_reply ZT_PROTO_PACKET_PAYLOAD_START = VERB_HELLO
  ∧ loadBigEndian ok_reply (ZT_PROTO_PACKET_PAYLOAD_START + 1) 8
    = loadMachineEndian64 hello_good ZT_PROTO_PACKET_ID_INDEX
  ∧ loadMachineEndian64 hello_good ZT_PROTO_PACKET_ID_INDEX = 0x0102030405060708
  ∧ (@Expect_expecting ref_constants ref_collaborators 0x0102030405060708 5000
       node_awaiting_hello).1 = true
  ∧ @m_OK ref_constants ref_collaborators 5000 1 3 (1, 99) 1 ok_reply 103 node_awaiting_hello
    = (false, 0,
       @incomingPacketDropped ref_collaborators 0x4c1f1ff8 1 (mkIdentity 0x0101010101 0 [1]) 0
         VERB_OK REPLY_NOT_EXPECTED node_awaiting_hello)
  ∧ (@Expect_expecting ref_constants ref_collaborators 0x0102030405060708 5000
       node_awaiting_other).1 = false
  ∧ (@m_OK ref_constants ref_collaborators 5000 1 3 (1, 99) 1 ok_reply 103
       node_awaiting_other).1.1 = true.
Proof.
  split.
  { intros constants collaborators ticks packetId auth path peer pkt packetSize w Hlen.
    unfold m_OK, readOverflow.
    change (ZT_PROTO_PACKET_PAYLOAD_START + 13 + 9) with (ZT_PROTO_PACKET_PAYLOAD_START + 22).
    change (ZT_PROTO_PACKET_PAYLOAD_START + 13 + 1) with (ZT_PROTO_PACKET_PAYLOAD_START + 14).
    destruct (Z.ltb_spec packetSize (ZT_PROTO_PACKET_PAYLOAD_START + 22)); [lia|].
    by destruct (Expect_expecting _ ticks w) as [[] w1]. }
  split_and!; run.
Qed.



Lemma C3_witness :
  (@m_HELLO ref_constants ref_collaborators 5000 (1, 99) hello_hijack 118 node1).1 = None
  ∧ stored 0x0101010101 1 (mkIdentity 0x0101010101 0 [1])
           (@m_HELLO ref_constants ref_collaborators 5000 (1, 99) hello_hijack 118 node1).2.
Proof.
  edestruct (@C3_hello_never_replaces_stored_identity ref_constants ref_collaborators
               5000 (1, 99) hello_hijack 118 node1 1 (mkIdentity 0x0101010101 0 [1]))
    as ((code & ident & Hm) & Hs & _);
    [run | run | run | split; [run | eexists; split; run] | run |].
  split; [by rewrite Hm | apply Hs].
Defined.



(** * Further properties of Topology.cpp *)

Section Topology_more.
Context {constants : Constants} {collaborators : Collaborators}.

(** X1: [Topology::add] never replaces a peer.  After the call the peer map
    sends the address of the given peer to the handle the call returns; every
    entry the map had is still there; when the address was already taken the
    call returns the peer that holds it and changes nothing; and a later call
    for any peer of that address returns the same handle and changes
    nothing. *)
Theorem X1_add_keeps_the_first_peer_of_an_address ticks h (w : Node) :
  m_peers (Topology_add ticks h w).2 !! address (deref w h) = Some (Topology_add ticks h w).1
  ∧ (∀ a hp, m_peers w !! a = Some hp → m_peers (Topology_add ticks h w).2 !! a = Some hp)
  ∧ (∀ hp, m_peers w !! address (deref w h) = Some hp → Topology_add ticks h w = (hp, w))
  ∧ (∀ ticks' h',
       address (deref (Topology_add ticks h w).2 h') = address (deref w h) →
       Topology_add ticks' h' (Topology_add ticks h w).2
       = ((Topology_add ticks h w).1, (Topology_add ticks h w).2)).
Proof.
  assert (Hl : m_peers (Topology_add ticks h w).2 !! address (deref w h)
               = Some (Topology_add ticks h w).1).
  { unfold Topology_add.
    destruct (m_peers w !! address (deref w h)) eqn:E; [done|].
    destruct (m_loadCached _ _ _); cbn [fst snd m_peers with_peers with_objs];
      by rewrite lookup_insert_eq. }
  split_and!.
  - done.
  - intros a hp Ha. unfold Topology_add.
    destruct (m_peers w !! address (deref w h)) eqn:E; [done|].
    assert (a ≠ address (deref w h)) by congruence.
    destruct (m_loadCached _ _ _); cbn [fst snd m_peers with_peers with_objs];
      by rewrite lookup_insert_ne.
  - intros hp Hhp. unfold Topology_add. by rewrite Hhp.
  - intros ticks' h' Ha. unfold Topology_add at 1. by rewrite Ha, Hl.
Qed.

(** X2: [Topology::m_peerFromCached].  With no record in the store (or one
    of at most eight bytes), with a record that [Peer::unmarshal] refuses, or
    with one that is [ZT_PEER_GLOBAL_TIMEOUT] old or older, the call returns
    nothing and changes nothing, whether or not the peer is in memory.  With
    a fresh record and a peer already in the map, the peer of the map is
    returned and the loaded copy is dropped.  With a fresh record and no peer
    in the map, the record becomes a new object: its handle designated no
    object before, the map now sends the address to it, every other map entry
    and object is kept, and a later call while the record is still fresh
    returns that same handle without changing anything. *)
Theorem X2_a_cached_peer_is_loaded_only_while_fresh_and_never_over_one_in_memory
    ticks zta (w : Node) :
  (store w !! zta = None
   ∨ (∃ ts, store w !! zta = Some (ts, None))
   ∨ (∃ ts p, store w !! zta = Some (ts, p) ∧ ZT_PEER_GLOBAL_TIMEOUT ≤ ticks - ts) →
   m_peerFromCached ticks zta w = (None, w))
  ∧ (∀ ts p hp, store w !! zta = Some (ts, Some p) → ticks - ts < ZT_PEER_GLOBAL_TIMEOUT →
                m_peers w !! zta = Some hp →
                m_peerFromCached ticks zta w = (Some hp, w))
  ∧ (∀ ts p, store w !! zta = Some (ts, Some p) → ticks - ts < ZT_PEER_GLOBAL_TIMEOUT →
             m_peers w !! zta = None →
             ∃ h w', m_peerFromCached ticks zta w = (Some h, w')
                     ∧ objs w !! h = None
                     ∧ deref w' h = p
                     ∧ m_peers w' !! zta = Some h
                     ∧ (∀ a hp, m_peers w !! a = Some hp → m_peers w' !! a = Some hp)
                     ∧ (∀ q o, objs w !! q = Some o → objs w' !! q = Some o)
                     ∧ ∀ ticks', ticks' - ts < ZT_PEER_GLOBAL_TIMEOUT →
                                 m_peerFromCached ticks' zta w' = (Some h, w')).
Proof.
  split_and!.
  - intros Hwhy. unfold m_peerFromCached, m_loadCached.
    destruct Hwhy as [Hs | [(ts & Hs) | (ts & p & Hs & Hold)]]; rewrite Hs; [done|done|].
    destruct p; [|done].
    by destruct (Z.ltb_spec (ticks - ts) ZT_PEER_GLOBAL_TIMEOUT); [lia|].
  - intros ts p hp Hs Hfresh Hhp. unfold m_peerFromCached, m_loadCached. rewrite Hs.
    destruct (Z.ltb_spec (ticks - ts) ZT_PEER_GLOBAL_TIMEOUT); [|lia]. by rewrite Hhp.
  - intros ts p Hs Hfresh Hnone.
    unfold m_peerFromCached at 1, m_loadCached. rewrite Hs, Hnone.
    destruct (Z.ltb_spec (ticks - ts) ZT_PEER_GLOBAL_TIMEOUT); [|lia].
    eexists _, _. split; [done|].
    split_and!.
    + apply new_handle_fresh.
    + unfold deref. cbn [objs with_peers with_objs]. by rewrite lookup_insert_eq.
    + cbn [m_peers with_peers]. by rewrite lookup_insert_eq.
    + intros a hp Ha. cbn [m_peers with_peers]. rewrite lookup_insert_ne; [done|]. congruence.
    + intros q o Hq. cbn [objs with_peers with_objs]. rewrite lookup_insert_ne; [done|].
      intros <-. pose proof (new_handle_fresh w). congruence.
    + intros ticks' Hfresh'. unfold m_peerFromCached, m_loadCached.
      cbn [store m_peers with_peers with_objs]. rewrite Hs.
      destruct (Z.ltb_spec (ticks' - ts) ZT_PEER_GLOBAL_TIMEOUT); [|lia].
      by rewrite lookup_insert_eq.
Qed.

Lemma comparator_true (a b : Peer) :
  p_RootRankingComparisonOperator a b = true
  ↔ m_lastReceive a `quot` (ZT_PATH_KEEPALIVE_PERIOD `quot` 2)
      < m_lastReceive b `quot` (ZT_PATH_KEEPALIVE_PERIOD `quot` 2)
    ∨ (m_lastReceive a `quot` (ZT_PATH_KEEPALIVE_PERIOD `quot` 2)
         = m_lastReceive b `quot` (ZT_PATH_KEEPALIVE_PERIOD `quot` 2)
       ∧ (m_latency b < 0 ∨ m_latency b < m_latency a)).
Proof.
  unfold p_RootRankingComparisonOperator.
  destruct (Z.ltb_spec (m_lastReceive a `quot` (ZT_PATH_KEEPALIVE_PERIOD `quot` 2))
                       (m_lastReceive b `quot` (ZT_PATH_KEEPALIVE_PERIOD `quot` 2))).
  { split; [by left|done]. }
  destruct (Z.eqb_spec (m_lastReceive b `quot` (ZT_PATH_KEEPALIVE_PERIOD `quot` 2))
                       (m_lastReceive a `quot` (ZT_PATH_KEEPALIVE_PERIOD `quot` 2))).
  - destruct (Z.ltb_spec (m_latency b) 0).
    { split; [intros _; right; split; [done|by left]|done]. }
    destruct (Z.ltb_spec (m_latency b) (m_latency a)).
    + split; [intros _; right; split; [done|by right]|done].
    + split; [done|]. intros [?|[_ [?|?]]]; lia.
  - split; [done|]. intros [?|[? _]]; lia.
Qed.

Lemma comparator_false (a b : Peer) :
  p_RootRankingComparisonOperator a b = false
  ↔ m_lastReceive b `quot` (ZT_PATH_KEEPALIVE_PERIOD `quot` 2)
      ≤ m_lastReceive a `quot` (ZT_PATH_KEEPALIVE_PERIOD `quot` 2)
    ∧ (m_lastReceive a `quot` (ZT_PATH_KEEPALIVE_PERIOD `quot` 2)
         = m_lastReceive b `quot` (ZT_PATH_KEEPALIVE_PERIOD `quot` 2)
       → 0 ≤ m_latency b ∧ m_latency a ≤ m_latency b).
Proof.
  rewrite <- not_true_iff_false, comparator_true. split.
  - intros Hn. split; [lia|]. intros Heq. split; lia.
  - intros [Hle Himp] [Hlt|[Heq Hlat]]; [lia|]. specialize (Himp Heq). lia.
Qed.

(** X3: the comparison that ranks the roots is transitive and its negation
    is transitive, as [std::sort] requires, but it is not irreflexive: a peer
    whose latency is unknown (negative) is ordered before itself, and two
    peers are each ordered before the other exactly when they were last heard
    in the same half keep-alive period and neither has a known latency. *)
Theorem X3_root_comparison_is_a_strict_weak_order_but_for_unknown_latency (a b c : Peer) :
  (p_RootRankingComparisonOperator a b = true → p_RootRankingComparisonOperator b c = true →
   p_RootRankingComparisonOperator a c = true)
  ∧ (p_RootRankingComparisonOperator a b = false → p_RootRankingComparisonOperator b c = false →
     p_RootRankingComparisonOperator a c = false)
  ∧ (p_RootRankingComparisonOperator a b = true ∧ p_RootRankingComparisonOperator b a = true
     ↔ m_lastReceive a `quot` (ZT_PATH_KEEPALIVE_PERIOD `quot` 2)
         = m_lastReceive b `quot` (ZT_PATH_KEEPALIVE_PERIOD `quot` 2)
       ∧ m_latency a < 0 ∧ m_latency b < 0)
  ∧ (p_RootRankingComparisonOperator a a = true ↔ m_latency a < 0).
Proof.
  rewrite !comparator_true, !comparator_false. split_and!.
  - lia.
  - lia.
  - lia.
  - lia.
Qed.

Lemma linear_insert_descending {A} (comp : A → A → bool) (P : A → Prop) val acc :
  (∀ x y, P x → P y → comp x y = true → comp y x = false) →
  (∀ x y z, P x → P y → P z → comp x y = false → comp y z = false → comp x z = false) →
  P val → Forall P acc →
  descending comp acc → descending comp (linear_insert comp val acc).
Proof.
  intros Hasym Hneg Hval. induction acc as [|next rest IH]; intros HP Hd.
  - simpl. split; [constructor|done].
  - apply Forall_cons in HP as [Hnext Hrest]. destruct Hd as [Hall Hd].
    simpl. destruct (comp val next) eqn:E.
    + split; [|by apply IH].
      apply Forall_forall. intros y Hy.
      rewrite linear_insert_Permutation in Hy.
      apply elem_of_cons in Hy as [-> | Hy]; [by apply Hasym|].
      by apply (proj1 (Forall_forall _ _) Hall).
    + split; [|done]. constructor; [done|].
      apply Forall_forall. intros y Hy.
      apply (Hneg val next y); [done..| | |].
      * by apply (proj1 (Forall_forall _ _) Hrest).
      * done.
      * by apply (proj1 (Forall_forall _ _) Hall).
Qed.

Lemma foldl_linear_insert_descending {A} (comp : A → A → bool) (P : A → Prop) l : ∀ acc,
  (∀ x y, P x → P y → comp x y = true → comp y x = false) →
  (∀ x y z, P x → P y → P z → comp x y = false → comp y z = false → comp x z = false) →
  Forall P l → Forall P acc → descending comp acc →
  descending comp (foldl (λ acc x, linear_insert comp x acc) acc l).
Proof.
  induction l as [|x l IH]; intros acc Hasym Hneg Hl Hacc Hd; [done|].
  apply Forall_cons in Hl as [Hx Hl]. simpl. apply IH; [done..| |].
  - apply Forall_forall. intros y Hy.
    rewrite linear_insert_Permutation in Hy.
    apply elem_of_cons in Hy as [-> | Hy]; [done|].
    by apply (proj1 (Forall_forall _ _) Hacc).
  - by apply (linear_insert_descending comp P).
Qed.

Lemma descending_rev_sorted {A} (comp : A → A → bool) acc :
  descending comp acc → sorted_by comp (rev acc).
Proof.
  induction acc as [|x rest IH]; intros Hd i j a b Hij Ha Hb.
  - by destruct i.
  - destruct Hd as [Hall Hd]. simpl in Ha, Hb.
    destruct (decide (j < length (rev rest))%nat) as [Hj|Hj].
    + rewrite lookup_app_l in Ha by lia. rewrite lookup_app_l in Hb by lia.
      by apply (IH Hd i j).
    + rewrite lookup_app_r in Hb by lia.
      destruct (j - length (rev rest))%nat eqn:Ej; [|done].
      simpl in Hb. simplify_eq.
      rewrite lookup_app_l in Ha by lia.
      apply (proj1 (Forall_forall _ _) Hall).
      apply list_elem_of_In, in_rev, list_elem_of_In. by apply list_elem_of_lookup_2 in Ha.
Qed.

Lemma std_sort_sorted {A} (comp : A → A → bool) (P : A → Prop) l :
  (∀ x y, P x → P y → comp x y = true → comp y x = false) →
  (∀ x y z, P x → P y → P z → comp x y = false → comp y z = false → comp x z = false) →
  Forall P l → sorted_by comp (std_sort comp l).
Proof.
  intros Hasym Hneg Hl. unfold std_sort. apply descending_rev_sorted.
  by apply (foldl_linear_insert_descending comp P).
Qed.

Lemma sorted_by_head {A} (comp : A → A → bool) l best x :
  sorted_by comp l → head l = Some best → x ∈ l → x = best ∨ comp x best = false.
Proof.
  intros Hs Hh Hx. apply list_elem_of_lookup in Hx as [j Hj].
  destruct l as [|b l]; [done|]. simpl in Hh. simplify_eq.
  destruct j as [|j]; [left; by simplify_eq/=|].
  right. apply (Hs 0%nat (S j)); [lia|done|done].
Qed.

(** X4: when every root has a known latency, [m_rankRoots] leaves the roots
    sorted by the comparison operator, and the best root is one with the least
    last-receive time, counted in half keep-alive periods; among the roots of
    that period no root has a higher latency than the best one. *)
Theorem X4_ranking_sorts_the_roots_whose_latency_is_known (w : Node) :
  (∀ r, r ∈ m_roots w → 0 ≤ m_latency (deref w r)) →
  sorted_by (λ a b, p_RootRankingComparisonOperator (deref w a) (deref w b))
            (m_roots (m_rankRoots w))
  ∧ ∀ best r, Topology_root (m_rankRoots w) = Some best → r ∈ m_roots w →
      m_lastReceive (deref w best) `quot` (ZT_PATH_KEEPALIVE_PERIOD `quot` 2)
        ≤ m_lastReceive (deref w r) `quot` (ZT_PATH_KEEPALIVE_PERIOD `quot` 2)
      ∧ (m_lastReceive (deref w best) `quot` (ZT_PATH_KEEPALIVE_PERIOD `quot` 2)
           = m_lastReceive (deref w r) `quot` (ZT_PATH_KEEPALIVE_PERIOD `quot` 2)
         → m_latency (deref w r) ≤ m_latency (deref w best)).
Proof.
  intros Hknown.
  set (comp := λ a b : Z, p_RootRankingComparisonOperator (deref w a) (deref w b)).
  assert (Hs : sorted_by comp (m_roots (m_rankRoots w))).
  { unfold m_rankRoots. destruct (m_roots w) as [|r0 rs] eqn:E.
    - intros i j x y _ Hx. by destruct i.
    - cbn [m_roots with_roots]. fold comp.
      apply (std_sort_sorted comp (λ r, 0 ≤ m_latency (deref w r))).
      + intros x y Hx Hy. unfold comp. rewrite comparator_true, comparator_false. lia.
      + intros x y z _ _ _. unfold comp. rewrite !comparator_false. lia.
      + apply Forall_forall. intros r Hr. apply Hknown. by rewrite ?E. }
  split; [done|].
  intros best r Hbest Hr. rewrite m_rankRoots_bestRoot in Hbest.
  assert (Hr' : r ∈ m_roots (m_rankRoots w)) by (by rewrite m_rankRoots_roots).
  destruct (sorted_by_head comp _ best r Hs Hbest Hr') as [-> | Hc]; [lia|].
  unfold comp in Hc. apply comparator_false in Hc. lia.
Qed.

(** X5: [m_rankRoots] keeps the roots, as a rearrangement of the list it
    found; the best root is the first of the ranked list, there is none
    exactly when there are no roots, and it is always one of the roots; the
    peers, the peer map and the trace are not touched. *)
Theorem X5_ranking_keeps_the_roots_and_takes_the_first_as_best (w : Node) :
  m_roots (m_rankRoots w) ≡ₚ m_roots w
  ∧ Topology_root (m_rankRoots w) = head (m_roots (m_rankRoots w))
  ∧ (Topology_root (m_rankRoots w) = None ↔ m_roots w = [])
  ∧ (∀ r, Topology_root (m_rankRoots w) = Some r → r ∈ m_roots w)
  ∧ objs (m_rankRoots w) = objs w ∧ m_peers (m_rankRoots w) = m_peers w
  ∧ events (m_rankRoots w) = events w.
Proof.
  pose proof (m_rankRoots_roots w) as Hp.
  pose proof (m_rankRoots_bestRoot w) as Hb.
  destruct (m_rankRoots_other w) as (Ho & Hm & _ & He).
  split_and!; [done|done| | |done..].
  - rewrite Hb. split.
    + intros Hh. destruct (m_roots (m_rankRoots w)); [|done].
      symmetry. by apply Permutation_nil_l.
    + intros Hn. rewrite Hn in Hp. apply Permutation_nil_r in Hp. by rewrite Hp.
  - intros r Hr. rewrite Hb in Hr. rewrite <- Hp.
    destruct (m_roots (m_rankRoots w)); simplify_eq/=. apply list_elem_of_here.
Qed.

Lemma path_events_fold_paths (dead : list ((Z * Z) * Path)) : ∀ w : Node,
  m_paths (foldl (λ w' kp, emit (EvPathDeleted kp.1) w') w dead) = m_paths w.
Proof. induction dead as [|kp dead IH]; intros w; simpl; [done|]. by rewrite IH. Qed.

Lemma doPeriodicTasks_unfold ticks (w : Node) :
  ∃ (removed : list (Z * Z)) (dead : list (Z * Z * Path)),
    (∀ a p, (a, p) ∈ removed ↔ m_peers w !! a = Some p ∧ peer_stale ticks w p ∧ p ∉ m_roots w)
    ∧ NoDup dead.*1
    ∧ (∀ k p, (k, p) ∈ dead ↔ m_paths w !! k = Some p ∧ weakGC p = true)
    ∧ events (doPeriodicTasks ticks w) = events w
        ++ flat_map (λ ap, [EvPeerSave ap.2; EvPeerRelease ap.2]) removed
        ++ ((λ kp, EvPathDeleted kp.1) <$> dead)
    ∧ m_paths (doPeriodicTasks ticks w) = filter (λ kp, weakGC kp.2 = false) (m_paths w)
    ∧ (∀ a, m_peers (doPeriodicTasks ticks w) !! a =
            match m_peers w !! a with
            | Some p => if bool_decide (peer_stale ticks w p ∧ p ∉ m_roots w) then None else Some p
            | None => None
            end)
    ∧ objs (doPeriodicTasks ticks w) = objs w
    ∧ m_roots (doPeriodicTasks ticks w) ≡ₚ m_roots w.
Proof.
  set (stale := peer_stale ticks w). unfold doPeriodicTasks.
  set (w1 := m_rankRoots w).
  set (rootLookup := std_sort Z.ltb (m_roots w1)).
  set (removed := filter (λ ap : Z * Z, gc_candidate ticks w1 rootLookup ap.2 = true)
                         (map_to_list (m_peers w1))).
  destruct (m_rankRoots_other w) as (Ho1 & Hp1 & Hpa1 & He1). fold w1 in Ho1, Hp1, Hpa1, He1.
  assert (Hrem : ∀ a p, (a, p) ∈ removed ↔ m_peers w !! a = Some p ∧ stale p ∧ p ∉ m_roots w).
  { intros a p. unfold removed. rewrite list_elem_of_filter, elem_of_map_to_list, Hp1. simpl.
    unfold rootLookup, w1. rewrite gc_candidate_spec. unfold stale, peer_stale. tauto. }
  assert (Hnd : NoDup removed.*1).
  { apply NoDup_fst_filter, NoDup_fst_map_to_list. }
  destruct (erase_and_save_fold removed.*1 w1 Hnd) as (Hl & He & Ho & Hr & Hpa).
  set (w2 := foldl erase_and_save w1 removed.*1) in *.
  set (dead := filter (λ kp : Z * Z * Path, weakGC kp.2 = true) (map_to_list (m_paths w2))).
  destruct (path_events_fold dead
              (with_paths (filter (λ kp : Z * Z * Path, weakGC kp.2 = false) (m_paths w2)) w2))
    as (Hp3 & Ho3 & Hr3 & He3).
  pose proof (path_events_fold_paths dead
              (with_paths (filter (λ kp : Z * Z * Path, weakGC kp.2 = false) (m_paths w2)) w2))
    as Hpa3.
  simpl in Hp3, Ho3, Hr3, He3, Hpa3.
  exists removed, dead. split_and!.
  - done.
  - apply NoDup_fst_filter, NoDup_fst_map_to_list.
  - intros k p. unfold dead. rewrite list_elem_of_filter, elem_of_map_to_list, Hpa, Hpa1.
    simpl. tauto.
  - rewrite He3, He, He1. rewrite <- app_assoc. do 2 f_equal.
    apply save_events_of_pairs. intros a p Hin.
    rewrite Hp1. by apply Hrem in Hin as (? & _).
  - by rewrite Hpa3, Hpa, Hpa1.
  - intros a. rewrite Hp3, Hl, Hp1.
    destruct (m_peers w !! a) as [p|] eqn:Ea.
    + destruct (decide (stale p ∧ p ∉ m_roots w)) as [Hs|Hs].
      * rewrite (bool_decide_eq_true_2 (stale p ∧ p ∉ m_roots w)) by done.
        rewrite bool_decide_eq_true_2; [done|].
        apply list_elem_of_fmap. exists (a, p). split; [done|]. apply Hrem. tauto.
      * rewrite (bool_decide_eq_false_2 (stale p ∧ p ∉ m_roots w)) by done.
        rewrite bool_decide_eq_false_2; [done|].
        intros ([a' p'] & -> & Hin)%list_elem_of_fmap. simpl in *.
        apply Hrem in Hin as (Hin & ?). rewrite Ea in Hin. simplify_eq. tauto.
    + by destruct (bool_decide (a ∈ removed.*1)).
  - by rewrite Ho3, Ho, Ho1.
  - rewrite Hr3, Hr. apply m_rankRoots_roots.
Qed.


(** X7: running [doPeriodicTasks] a second time at the same tick changes
    neither the peer map nor the path map and adds nothing to the trace: the
    first run left no peer and no path for the second to delete. *)
Theorem X7_doPeriodicTasks_twice_at_one_time_is_once ticks (w : Node) :
  m_peers (doPeriodicTasks ticks (doPeriodicTasks ticks w)) = m_peers (doPeriodicTasks ticks w)
  ∧ m_paths (doPeriodicTasks ticks (doPeriodicTasks ticks w)) = m_paths (doPeriodicTasks ticks w)
  ∧ events (doPeriodicTasks ticks (doPeriodicTasks ticks w)) = events (doPeriodicTasks ticks w).
Proof.
  destruct (doPeriodicTasks_unfold ticks w)
    as (removed & dead & Hrem & Hnd & Hdead & Hev & Hpaths & Hpeers & Hobjs & Hroots).
  destruct (doPeriodicTasks_unfold ticks (doPeriodicTasks ticks w))
    as (removed' & dead' & Hrem' & Hnd' & Hdead' & Hev' & Hpaths' & Hpeers' & Hobjs' & Hroots').
  set (w1 := doPeriodicTasks ticks w) in *.
  assert (Hstale : ∀ p, peer_stale ticks w1 p ↔ peer_stale ticks w p).
  { intros p. unfold peer_stale, deref. by rewrite Hobjs. }
  assert (Hkeep : ∀ a p, m_peers w1 !! a = Some p → ¬ (peer_stale ticks w1 p ∧ p ∉ m_roots w1)).
  { intros a p Ha. rewrite Hpeers in Ha.
    destruct (m_peers w !! a) as [q|]; [|done].
    destruct (decide (peer_stale ticks w q ∧ q ∉ m_roots w)) as [Hd|Hd].
    - by rewrite bool_decide_eq_true_2 in Ha.
    - rewrite bool_decide_eq_false_2 in Ha by done. simplify_eq.
      rewrite Hstale, Hroots. done. }
  split_and!.
  - apply map_eq. intros a. rewrite Hpeers'.
    destruct (m_peers w1 !! a) as [p|] eqn:Ea; [|done].
    rewrite bool_decide_eq_false_2; [done|]. by apply (Hkeep a).
  - rewrite Hpaths', Hpaths. apply map_eq. intros k.
    rewrite !map_lookup_filter. destruct (m_paths w !! k) as [p|]; [|done]. simpl.
    destruct (weakGC p) eqn:Eg.
    + by rewrite option_guard_False by done.
    + rewrite option_guard_True by done. simpl. by rewrite option_guard_True by done.
  - assert (removed' = []) as ->.
    { destruct removed' as [|[a p] l]; [done|].
      destruct (proj1 (Hrem' a p)) as (Ha & Hs); [apply list_elem_of_here|].
      by destruct (Hkeep a p Ha). }
    assert (dead' = []) as ->.
    { destruct dead' as [|[k p] l]; [done|].
      destruct (proj1 (Hdead' k p)) as (Hk & Hg); [apply list_elem_of_here|].
      rewrite Hpaths, map_lookup_filter in Hk.
      destruct (m_paths w !! k) as [q|]; [|done]. simpl in Hk.
      destruct (weakGC q) eqn:Eg.
      - by rewrite option_guard_False in Hk by done.
      - rewrite option_guard_True in Hk by done. simplify_eq. congruence. }
    rewrite Hev'. simpl. by rewrite app_nil_r.
Qed.

Lemma trustStore_root_spec ticks id (w : Node) :
  (∀ a hp, m_peers w !! a = Some hp → m_peers (trustStore_root ticks id w).2 !! a = Some hp)
  ∧ m_identity (trustStore_root ticks id w).2 = m_identity w
  ∧ (∀ r, (trustStore_root ticks id w).1 = Some r →
          m_peers (trustStore_root ticks id w).2 !! id_address id = Some r)
  ∧ ((trustStore_root ticks id w).1 = None → Peer_init (m_identity w) id = None).
Proof.
  unfold trustStore_root.
  destruct (Topology_peer_frame ticks (id_address id) true w) as (_ & _ & _ & _ & Hfound).
  unfold Topology_peer, m_peerFromCached in *.
  destruct (m_peers w !! id_address id) as [hp|] eqn:Ea.
  { cbn [fst snd]. split_and!; [done|done| |done]. intros r ?. by simplify_eq. }
  destruct (m_loadCached ticks (id_address id) w) as [cached|] eqn:Ec.
  { cbn [fst snd m_peers m_identity with_peers with_objs]. split_and!; [|done| |done].
    - intros a hp Ha. rewrite lookup_insert_ne; [done|]. congruence.
    - intros r ?. simplify_eq. by rewrite lookup_insert_eq. }
  destruct (Peer_init (m_identity w) id) as [key|] eqn:Ei; [|done].
  set (w2 := with_objs (<[new_handle w := mkPeer id key 0 (-1) [] None 0 None]> (objs w)) w).
  assert (Haddr : address (deref w2 (new_handle w)) = id_address id).
  { unfold address, deref, w2. cbn [objs with_objs]. by rewrite lookup_insert_eq. }
  unfold Topology_add. rewrite Haddr.
  change (m_peers w2) with (m_peers w). rewrite Ea.
  change (m_loadCached ticks (id_address id) w2) with (m_loadCached ticks (id_address id) w).
  rewrite Ec.
  cbn [fst snd m_peers m_identity with_peers with_objs]. split_and!; [|done| |done].
  - intros a hp Ha. rewrite lookup_insert_ne; [done|]. congruence.
  - intros r ?. simplify_eq. by rewrite lookup_insert_eq.
Qed.

Lemma trustStore_roots_spec {Locator : Type} ticks (roots : list (Identity * option Locator)) :
  ∀ w : Node,
  (∀ a hp, m_peers w !! a = Some hp → m_peers (trustStore_roots ticks roots w).2 !! a = Some hp)
  ∧ m_identity (trustStore_roots ticks roots w).2 = m_identity w
  ∧ (∀ r, r ∈ (trustStore_roots ticks roots w).1.1 →
          ∃ id loc, (id, loc) ∈ roots
                    ∧ m_peers (trustStore_roots ticks roots w).2 !! id_address id = Some r)
  ∧ (∀ r l, (r, l) ∈ (trustStore_roots ticks roots w).1.2 →
            ∃ id, (id, Some l) ∈ roots
                  ∧ m_peers (trustStore_roots ticks roots w).2 !! id_address id = Some r)
  ∧ (length (trustStore_roots ticks roots w).1.1 ≤ length roots)%nat
  ∧ ((∀ id loc, (id, loc) ∈ roots → is_Some (Peer_init (m_identity w) id)) →
     length (trustStore_roots ticks roots w).1.1 = length roots).
Proof.
  induction roots as [|[id loc] rest IH]; intros w.
  - simpl. split_and!; [done|done| | |done|done].
    + intros r Hr. by apply elem_of_nil in Hr.
    + intros r l Hr. by apply elem_of_nil in Hr.
  - cbn [trustStore_roots].
    destruct (trustStore_root_spec ticks id w) as (Hm1 & Hi1 & Hr1 & Hn1).
    destruct (trustStore_root ticks id w) as [root w1]. cbn [fst snd] in Hm1, Hi1, Hr1, Hn1.
    destruct (IH w1) as (Hm2 & Hi2 & Hr2 & Hl2 & Hlen & Hfull).
    destruct (trustStore_roots ticks rest w1) as [[newRootList located] w2].
    cbn [fst snd] in Hm2, Hi2, Hr2, Hl2, Hlen, Hfull.
    assert (Hrest : ∀ r, r ∈ newRootList →
              ∃ id0 loc0, (id0, loc0) ∈ (id, loc) :: rest ∧ m_peers w2 !! id_address id0 = Some r).
    { intros r Hr. destruct (Hr2 r Hr) as (id0 & loc0 & Hin & Hp).
      exists id0, loc0. split; [by apply list_elem_of_further|done]. }
    assert (Hlrest : ∀ r l, (r, l) ∈ located →
              ∃ id0, (id0, Some l) ∈ (id, loc) :: rest ∧ m_peers w2 !! id_address id0 = Some r).
    { intros r l Hr. destruct (Hl2 r l Hr) as (id0 & Hin & Hp).
      exists id0. split; [by apply list_elem_of_further|done]. }
    destruct root as [r0|]; cbn [fst snd length].
    + split_and!.
      * intros a hp Ha. by apply Hm2, Hm1.
      * by rewrite Hi2.
      * intros r [-> | Hr]%elem_of_cons; [|by apply Hrest].
        exists id, loc. split; [apply list_elem_of_here|]. by apply Hm2, Hr1.
      * destruct loc as [l0|]; [|done].
        intros r l [Heq | Hr]%elem_of_cons; [|by apply Hlrest].
        simplify_eq. exists id. split; [apply list_elem_of_here|]. by apply Hm2, Hr1.
      * lia.
      * intros Hall. f_equal. apply Hfull. intros id0 loc0 Hin. rewrite Hi1.
        apply (Hall id0 loc0). by apply list_elem_of_further.
    + split_and!.
      * intros a hp Ha. by apply Hm2, Hm1.
      * by rewrite Hi2.
      * done.
      * done.
      * lia.
      * intros Hall. destruct (Hall id loc) as [key Hkey]; [apply list_elem_of_here|].
        rewrite Hn1 in Hkey; done.
Qed.

(** X8: [Topology::trustStoreChanged].  Every root of the new root list is
    in the peer map at the address of one of the trust store's identities, and
    so is every peer whose locator is handed to [Peer::setLocator]; no entry
    of the peer map is lost; the best root is the first of the ranked list;
    there are at most as many roots as identities, and exactly as many when
    [Peer::init] succeeds on all of them (an identity for which it fails is
    skipped). *)
Theorem X8_trustStoreChanged_makes_every_root_a_registered_peer
    {Locator : Type} ticks (roots : list (Identity * option Locator)) (w : Node) :
  (∀ r, r ∈ m_roots (trustStoreChanged ticks roots w).2 →
        ∃ id loc, (id, loc) ∈ roots
                  ∧ m_peers (trustStoreChanged ticks roots w).2 !! id_address id = Some r)
  ∧ (∀ r l, (r, l) ∈ (trustStoreChanged ticks roots w).1 →
            ∃ id, (id, Some l) ∈ roots
                  ∧ m_peers (trustStoreChanged ticks roots w).2 !! id_address id = Some r)
  ∧ (∀ a hp, m_peers w !! a = Some hp →
             m_peers (trustStoreChanged ticks roots w).2 !! a = Some hp)
  ∧ Topology_root (trustStoreChanged ticks roots w).2
    = head (m_roots (trustStoreChanged ticks roots w).2)
  ∧ (length (m_roots (trustStoreChanged ticks roots w).2) ≤ length roots)%nat
  ∧ ((∀ id loc, (id, loc) ∈ roots → is_Some (Peer_init (m_identity w) id)) →
     length (m_roots (trustStoreChanged ticks roots w).2) = length roots).
Proof.
  unfold trustStoreChanged.
  destruct (trustStore_roots_spec ticks roots w) as (Hm & Hi & Hr & Hl & Hlen & Hfull).
  destruct (trustStore_roots ticks roots w) as [[newRootList located] w1].
  cbn [fst snd] in *.
  set (w2 := with_roots newRootList (m_bestRoot w1) w1).
  pose proof (m_rankRoots_roots w2) as Hp.
  destruct (m_rankRoots_other w2) as (_ & Hpe & _).
  change (m_roots w2) with newRootList in Hp. change (m_peers w2) with (m_peers w1) in Hpe.
  split_and!.
  - intros r Hin. rewrite Hp in Hin. rewrite Hpe. by apply Hr.
  - intros r l Hin. rewrite Hpe. by apply Hl.
  - intros a hp Ha. rewrite Hpe. by apply Hm.
  - apply m_rankRoots_bestRoot.
  - by rewrite Hp.
  - intros Hall. rewrite Hp. by apply Hfull.
Qed.

End Topology_more.

(** * The copy functions of the merge *)

Section Copy_functions.
Context {constants : Constants} {collaborators : Collaborators}.

Lemma copy_chunks_snoc {F : Type} (call : F → list Z → F * list Z) f chunks c :
  copy_chunks call f (chunks ++ [c])
  = ((call (copy_chunks call f chunks).1 c).1,
     (copy_chunks call f chunks).2 ++ (call (copy_chunks call f chunks).1 c).2).
Proof.
  unfold copy_chunks. rewrite foldl_app. simpl.
  by destruct (call _ c).
Qed.

Lemma copy_chunks_cons_gen {F : Type} (call : F → list Z → F * list Z) chunks : ∀ f out,
  foldl (λ acc src, let '(f', dest) := call acc.1 src in (f', acc.2 ++ dest)) (f, out) chunks
  = ((copy_chunks call f chunks).1, out ++ (copy_chunks call f chunks).2).
Proof.
  unfold copy_chunks.
  induction chunks as [|c chunks IH]; intros f out; simpl.
  - by rewrite app_nil_r.
  - destruct (call f c) as [f' dest]. simpl.
    rewrite (IH f' (out ++ dest)), (IH f' dest). simpl. by rewrite app_assoc.
Qed.

Lemma copy_chunks_cons {F : Type} (call : F → list Z → F * list Z) f c chunks :
  copy_chunks call f (c :: chunks)
  = ((copy_chunks call (call f c).1 chunks).1,
     (call f c).2 ++ (copy_chunks call (call f c).1 chunks).2).
Proof.
  unfold copy_chunks at 1. simpl. destruct (call f c) as [f' dest]. simpl.
  apply copy_chunks_cons_gen.
Qed.

Lemma header_bytes (hdr len : Z) :
  0 ≤ hdr → 0 ≤ len →
  (if hdr =? 0 then 0 else if hdr <? len then hdr else len) = Z.min hdr len.
Proof.
  intros. destruct (Z.eqb_spec hdr 0); [lia|]. destruct (Z.ltb_spec hdr len); lia.
Qed.

Lemma after_header_concat chunks : ∀ hdr,
  0 ≤ hdr → concat (after_header hdr chunks) = drop (Z.to_nat hdr) (concat chunks).
Proof.
  induction chunks as [|c chunks IH]; intros hdr Hh; simpl.
  - by rewrite drop_nil.
  - rewrite IH by lia. rewrite drop_app.
    destruct (Z.min_spec hdr (Z.of_nat (length c))) as [[Hlt ->] | [Hge ->]].
    + replace (hdr - hdr) with 0 by lia. simpl.
      replace (Z.to_nat hdr - length c)%nat with 0%nat by lia. done.
    + rewrite Nat2Z.id. rewrite drop_all.
      rewrite (drop_ge c) by lia. simpl. f_equal. lia.
Qed.

(** X9: [p_PolyCopyFunction], called on the successive chunks of a packet,
    copies every byte unchanged, and feeds Poly1305 the bytes that follow the
    first [hdrRemaining] ones, chunk by chunk, wherever the chunk boundaries
    fall; what is left of [hdrRemaining] at the end is what the packet did not
    cover. *)
Theorem X9_PolyCopyFunction_copies_all_and_authenticates_past_the_header
    (f : p_PolyCopyFunction) (chunks : list (list Z)) :
  0 ≤ pc_hdrRemaining f →
  (copy_chunks p_PolyCopyFunction_call f chunks).2 = concat chunks
  ∧ pc_poly1305 (copy_chunks p_PolyCopyFunction_call f chunks).1
    = foldl Poly1305_update (pc_poly1305 f) (after_header (pc_hdrRemaining f) chunks)
  ∧ concat (after_header (pc_hdrRemaining f) chunks)
    = drop (Z.to_nat (pc_hdrRemaining f)) (concat chunks)
  ∧ pc_hdrRemaining (copy_chunks p_PolyCopyFunction_call f chunks).1
    = Z.max 0 (pc_hdrRemaining f - Z.of_nat (length (concat chunks))).
Proof.
  intros Hh. split_and!; [| | by apply after_header_concat |].
  - revert f Hh. induction chunks as [|c chunks IH]; intros f Hh; [done|].
    rewrite copy_chunks_cons. cbn [snd concat]. f_equal. apply IH.
    unfold p_PolyCopyFunction_call. cbn [fst pc_hdrRemaining].
    rewrite header_bytes by lia. lia.
  - revert f Hh. induction chunks as [|c chunks IH]; intros f Hh; [done|].
    rewrite copy_chunks_cons. cbn [fst after_header foldl].
    rewrite IH.
    + unfold p_PolyCopyFunction_call. cbn [fst pc_hdrRemaining pc_poly1305].
      by rewrite header_bytes by lia.
    + unfold p_PolyCopyFunction_call. cbn [fst pc_hdrRemaining].
      rewrite header_bytes by lia. lia.
  - revert f Hh. induction chunks as [|c chunks IH]; intros f Hh.
    + unfold copy_chunks. simpl. lia.
    + rewrite copy_chunks_cons. cbn [fst concat]. rewrite IH.
      * unfold p_PolyCopyFunction_call. cbn [fst pc_hdrRemaining].
        rewrite header_bytes by lia. rewrite length_app. lia.
      * unfold p_PolyCopyFunction_call. cbn [fst pc_hdrRemaining].
        rewrite header_bytes by lia. lia.
Qed.

(** X10: on the same chunks and with the same key and IV,
    [p_SalsaPolyCopyFunction] and [p_PolyCopyFunction] end with the same
    Poly1305 state: the tag is computed over the bytes as they arrive, before
    Salsa20/12 is applied, so the MAC of a packet does not depend on whether
    it is decrypted. *)
Theorem X10_both_copy_functions_compute_the_same_tag
    (salsaKey : list Z) (salsaIv : Z) (chunks : list (list Z)) :
  sp_poly1305 (copy_chunks p_SalsaPolyCopyFunction_call
                 (p_SalsaPolyCopyFunction_new salsaKey salsaIv) chunks).1
  = pc_poly1305 (copy_chunks p_PolyCopyFunction_call
                   (p_PolyCopyFunction_new salsaKey salsaIv) chunks).1
  ∧ sp_hdrRemaining (copy_chunks p_SalsaPolyCopyFunction_call
                       (p_SalsaPolyCopyFunction_new salsaKey salsaIv) chunks).1
    = pc_hdrRemaining (copy_chunks p_PolyCopyFunction_call
                         (p_PolyCopyFunction_new salsaKey salsaIv) chunks).1.
Proof.
  assert (Hgen : ∀ (fs : p_SalsaPolyCopyFunction) (fp : p_PolyCopyFunction),
            sp_poly1305 fs = pc_poly1305 fp → sp_hdrRemaining fs = pc_hdrRemaining fp →
            sp_poly1305 (copy_chunks p_SalsaPolyCopyFunction_call fs chunks).1
            = pc_poly1305 (copy_chunks p_PolyCopyFunction_call fp chunks).1
            ∧ sp_hdrRemaining (copy_chunks p_SalsaPolyCopyFunction_call fs chunks).1
              = pc_hdrRemaining (copy_chunks p_PolyCopyFunction_call fp chunks).1).
  { induction chunks as [|c chunks IH]; intros fs fp Hp Hr; [done|].
    rewrite !copy_chunks_cons. cbn [fst]. apply IH.
    - unfold p_SalsaPolyCopyFunction_call, p_PolyCopyFunction_call.
      destruct (Salsa20_crypt12 _ _) as [s20 dest]. cbn [fst sp_poly1305 pc_poly1305].
      by rewrite Hp, Hr.
    - unfold p_SalsaPolyCopyFunction_call, p_PolyCopyFunction_call.
      destruct (Salsa20_crypt12 _ _) as [s20 dest]. cbn [fst sp_hdrRemaining pc_hdrRemaining].
      by rewrite Hr. }
  apply Hgen.
  - unfold p_SalsaPolyCopyFunction_new, p_PolyCopyFunction_new.
    by destruct (Salsa20_crypt12 _ _).
  - unfold p_SalsaPolyCopyFunction_new, p_PolyCopyFunction_new.
    by destruct (Salsa20_crypt12 _ _).
Qed.

(** X11: [p_SalsaPolyCopyFunction] with a Salsa20/12 that keeps lengths:
    the output is as long as the input, its first [hdrRemaining] bytes are
    the input's (the header is not decrypted), and Poly1305 is fed the bytes
    that follow them. *)
Theorem X11_SalsaPolyCopyFunction_leaves_the_header_in_the_clear
    (f : p_SalsaPolyCopyFunction) (chunks : list (list Z)) :
  0 ≤ sp_hdrRemaining f →
  (∀ s src, length (Salsa20_crypt12 s src).2 = length src) →
  length (copy_chunks p_SalsaPolyCopyFunction_call f chunks).2 = length (concat chunks)
  ∧ take (Z.to_nat (sp_hdrRemaining f)) (copy_chunks p_SalsaPolyCopyFunction_call f chunks).2
    = take (Z.to_nat (sp_hdrRemaining f)) (concat chunks)
  ∧ sp_poly1305 (copy_chunks p_SalsaPolyCopyFunction_call f chunks).1
    = foldl Poly1305_update (sp_poly1305 f) (after_header (sp_hdrRemaining f) chunks).
Proof.
  intros Hh Hlen.
  assert (Hcall : ∀ (g : p_SalsaPolyCopyFunction) c, 0 ≤ sp_hdrRemaining g →
            sp_hdrRemaining (p_SalsaPolyCopyFunction_call g c).1
              = sp_hdrRemaining g - Z.min (sp_hdrRemaining g) (Z.of_nat (length c))
            ∧ sp_poly1305 (p_SalsaPolyCopyFunction_call g c).1
              = Poly1305_update (sp_poly1305 g)
                  (drop (Z.to_nat (Z.min (sp_hdrRemaining g) (Z.of_nat (length c)))) c)
            ∧ length (p_SalsaPolyCopyFunction_call g c).2 = length c
            ∧ take (Z.to_nat (Z.min (sp_hdrRemaining g) (Z.of_nat (length c))))
                   (p_SalsaPolyCopyFunction_call g c).2
              = take (Z.to_nat (Z.min (sp_hdrRemaining g) (Z.of_nat (length c)))) c).
  { intros g c Hg. unfold p_SalsaPolyCopyFunction_call.
    rewrite header_bytes by lia.
    pose proof (Hlen (sp_s20 g)
                  (drop (Z.to_nat (Z.min (sp_hdrRemaining g) (Z.of_nat (length c)))) c)) as Hl.
    destruct (Salsa20_crypt12 _ _) as [s20 dest]. cbn [fst snd] in *.
    cbn [sp_hdrRemaining sp_poly1305]. split_and!; [done|done| |].
    - rewrite length_app, Hl, length_take, length_drop. lia.
    - rewrite take_app_le by (rewrite length_take; lia).
      rewrite take_take. f_equal. lia. }
  split_and!.
  - revert f Hh. induction chunks as [|c chunks IH]; intros f Hh; [done|].
    destruct (Hcall f c Hh) as (Hr & _ & Hl & _).
    rewrite copy_chunks_cons. cbn [snd concat]. rewrite !length_app, Hl. f_equal.
    apply IH. lia.
  - revert f Hh. induction chunks as [|c chunks IH]; intros f Hh.
    + unfold copy_chunks. simpl. by rewrite !take_nil.
    + destruct (Hcall f c Hh) as (Hr & _ & Hl & Ht).
      rewrite copy_chunks_cons. cbn [snd concat].
      rewrite !take_app. rewrite Hl.
      destruct (Z.min_spec (sp_hdrRemaining f) (Z.of_nat (length c))) as [[Hlt Hm] | [Hge Hm]];
        rewrite Hm in *.
      * rewrite Ht.
        replace (Z.to_nat (sp_hdrRemaining f) - length c)%nat with 0%nat by lia.
        by rewrite !take_0.
      * rewrite Nat2Z.id in Ht.
        rewrite !(take_ge _ (Z.to_nat (sp_hdrRemaining f))) by lia.
        rewrite (take_ge c) in Ht by lia. rewrite take_ge in Ht by lia. rewrite Ht. f_equal.
        specialize (IH (p_SalsaPolyCopyFunction_call f c).1).
        rewrite Hr in IH.
        replace (Z.to_nat (sp_hdrRemaining f) - length c)%nat
          with (Z.to_nat (sp_hdrRemaining f - Z.of_nat (length c))) by lia.
        apply IH. lia.
  - revert f Hh. induction chunks as [|c chunks IH]; intros f Hh; [done|].
    destruct (Hcall f c Hh) as (Hr & Hp & _ & _).
    rewrite copy_chunks_cons. cbn [fst after_header foldl].
    rewrite IH by lia. by rewrite Hp, Hr.
Qed.

End Copy_functions.

(** * What one call of onRemotePacket can do

    Every state change that [onRemotePacket] makes is one of the primitive
    updates listed below.  A relation [R] between states that is reflexive,
    transitive and holds of each primitive update therefore holds between the
    state before and the state after every stage that calls no handler; and
    the whole function makes at most one handler call between two such
    stretches. *)

Section Steps.
Context {constants : Constants} {collaborators : Collaborators}.
Variable R : Node → Node → Prop.
Hypothesis R_refl : ∀ w, R w w.
Hypothesis R_trans : ∀ w1 w2 w3, R w1 w2 → R w2 w3 → R w1 w3.
Hypothesis R_emit : ∀ e w, is_handler_call e = false → R w (emit e w).
Hypothesis R_update : ∀ p f w,
  (∀ o, m_id (f o) = m_id o ∧ m_identityKey (f o) = m_identityKey o
        ∧ m_dedup (f o) = m_dedup o) →
  R w (update_peer p f w).
Hypothesis R_record : ∀ p ring w, R w (update_peer p (Peer_with_dedup ring) w).
Hypothesis R_assembler : ∀ d w, R w (with_assembler d w).
Hypothesis R_expect_insert : ∀ k v w, R w (with_expect (<[k := v]> (expect w)) w).
Hypothesis R_expect_delete : ∀ k w, R w (with_expect (delete k (expect w)) w).
Hypothesis R_enqueue : ∀ source pkt size w, R w (whois_enqueue source pkt size w).
Hypothesis R_retry : ∀ ticks w,
  R w (with_whoisQueue (whois_retry ticks <$> m_whoisQueue w) w).
Hypothesis R_learn : ∀ z o w,
  m_peers w !! z = None →
  R w (with_peers (<[z := new_handle w]> (m_peers w))
                  (with_objs (<[new_handle w := o]> (objs w)) w)).
Hypothesis R_new : ∀ o w, R w (with_objs (<[new_handle w := o]> (objs w)) w).
Hypothesis R_register : ∀ a h w,
  m_peers w !! a = None → R w (with_peers (<[a := h]> (m_peers w)) w).

Lemma R_drop code packetId ident hops verb reason (w : Node) :
  R w (incomingPacketDropped code packetId ident hops verb reason w).
Proof. by apply R_emit. Qed.

Lemma R_Topology_peer ticks zta b (w : Node) : R w (Topology_peer ticks zta b w).2.
Proof.
  unfold Topology_peer, m_peerFromCached.
  destruct (m_peers w !! zta) eqn:E; [done|]. destruct b; [|done].
  destruct (m_loadCached ticks zta w); [|done]. by apply R_learn.
Qed.

Lemma R_Topology_add ticks h (w : Node) : R w (Topology_add ticks h w).2.
Proof.
  unfold Topology_add.
  destruct (m_peers w !! address (deref w h)) eqn:E; [done|].
  destruct (m_loadCached _ _ _); [by apply R_learn|by apply R_register].
Qed.

Lemma R_deduplicateIncomingPacket p packetId (w : Node) :
  R w (deduplicateIncomingPacket p packetId w).2.
Proof.
  unfold deduplicateIncomingPacket. destruct (bool_decide _); [done|]. apply R_record.
Qed.

Lemma R_Peer_received p ticks path hops packetId payloadLen verb inReVerb (w : Node) :
  R w (Peer_received p ticks path hops packetId payloadLen verb inReVerb w).
Proof.
  unfold Peer_received. eapply R_trans; [|by apply R_emit]. by apply R_update.
Qed.

Lemma R_HELLO_peer ticks packetId hops id (w : Node) :
  R w (HELLO_peer ticks packetId hops id w).2.
Proof.
  unfold HELLO_peer.
  pose proof (R_Topology_peer ticks (id_address id) true w) as H1.
  destruct (Topology_peer ticks (id_address id) true w) as [[peer|] w1]; cbn [snd] in H1.
  - destruct (bool_decide _).
    { eapply R_trans; [exact H1|apply R_drop]. }
    pose proof (R_deduplicateIncomingPacket peer packetId w1) as H2.
    destruct (deduplicateIncomingPacket peer packetId w1) as [[] w2];
      cbn [snd] in *; by eapply R_trans.
  - destruct (negb _).
    { eapply R_trans; [exact H1|apply R_drop]. }
    destruct (Peer_init (m_identity w1) id) as [key|].
    + match goal with
      | |- context [Topology_add ticks ?h ?w2] =>
          pose proof (R_Topology_add ticks h w2) as H3;
          destruct (Topology_add ticks h w2) as [peer w3]
      end.
      cbn [snd] in *. eapply R_trans; [exact H1|]. eapply R_trans; [apply R_new|exact H3].
    + eapply R_trans; [exact H1|apply R_drop].
Qed.

Lemma R_HELLO_authenticate packetId mac hops protoVersion peer id pkt packetSize (w : Node) :
  R w (HELLO_authenticate packetId mac hops protoVersion peer id pkt packetSize w).2.
Proof.
  unfold HELLO_authenticate.
  repeat match goal with |- context [if ?b then _ else _] => destruct b end;
    cbn [snd]; first [apply R_refl | apply R_drop].
Qed.

Lemma R_Peer_setRemoteVersion p proto major minor rev (w : Node) :
  R w (Peer_setRemoteVersion p proto major minor rev w).
Proof.
  unfold Peer_setRemoteVersion. eapply R_trans; [|by apply R_emit]. by apply R_update.
Qed.

Lemma R_Peer_send p bytes len path (w : Node) : R w (Peer_send p bytes len path w).
Proof. by apply R_emit. Qed.

Lemma R_Peer_key_nextMessage p (w : Node) : R w (Peer_key_nextMessage p w).2.
Proof. unfold Peer_key_nextMessage. cbn [snd]. by apply R_update. Qed.

Lemma R_HELLO_reply packetId timestamp protoVersion versionMajor versionMinor versionRev
    peer path pkt (w : Node) :
  R w (HELLO_reply packetId timestamp protoVersion versionMajor versionMinor versionRev
                   peer path pkt w).2.
Proof.
  unfold HELLO_reply.
  pose proof (R_Peer_key_nextMessage peer w) as Hk.
  destruct (Peer_key_nextMessage peer w) as [replyId w1]. cbn [snd] in Hk.
  destruct (11 <=? protoVersion).
  - destruct (ZT_BUF_MEM_SIZE <? _); cbn [snd]; [done|].
    eapply R_trans; [exact Hk|].
    eapply R_trans; [apply R_Peer_setRemoteVersion|apply R_Peer_send].
  - cbn [snd]. eapply R_trans; [exact Hk|].
    eapply R_trans; [apply R_Peer_setRemoteVersion|apply R_Peer_send].
Qed.

Lemma R_HELLO_finish packetId hops timestamp protoVersion versionMajor versionMinor
    versionRev peer path pkt packetSize ii (w : Node) :
  R w (HELLO_finish packetId hops timestamp protoVersion versionMajor versionMinor
                    versionRev peer path pkt packetSize ii w).2.
Proof.
  unfold HELLO_finish.
  destruct (rO _ pkt ii) as [[ms []] ii1].
  destruct (ms <? 0); [apply R_drop|].
  destruct (11 <=? protoVersion); [|by apply R_HELLO_reply].
  destruct (HELLO_dictionary _ _ _ _);
    first [apply R_drop | apply R_HELLO_reply].
Qed.

Lemma R_m_HELLO ticks path pkt packetSize (w : Node) :
  R w (m_HELLO ticks path pkt packetSize w).2.
Proof.
  unfold m_HELLO.
  destruct (_ <? ZT_PROTO_VERSION_MIN); [apply R_drop|].
  destruct (rO Identity_unmarshal pkt _) as [[ms id] ii].
  destruct (ms <? 0); [apply R_drop|].
  destruct (bool_decide _); [apply R_drop|].
  match goal with
  | |- context [HELLO_peer ticks ?pid ?hops id w] =>
      pose proof (R_HELLO_peer ticks pid hops id w) as H1;
      destruct (HELLO_peer ticks pid hops id w) as [[peer|] w1]; [|done]
  end.
  cbn [snd] in H1.
  match goal with
  | |- context [HELLO_authenticate ?pid ?mac ?hops ?pv peer id pkt packetSize w1] =>
      pose proof (R_HELLO_authenticate pid mac hops pv peer id pkt packetSize w1) as H2;
      destruct (HELLO_authenticate pid mac hops pv peer id pkt packetSize w1)
        as [[[pkt1 packetSize1]|] w2]; cbn [snd] in H2; [|by eapply R_trans]
  end.
  eapply R_trans; [exact H1|]. eapply R_trans; [exact H2|]. apply R_HELLO_finish.
Qed.

Lemma R_m_OK ticks packetId auth path peer pkt packetSize (w : Node) :
  R w (m_OK ticks packetId auth path peer pkt packetSize w).2.
Proof.
  unfold m_OK.
  destruct (readOverflow _ _); [apply R_drop|].
  unfold Expect_expecting.
  destruct (expect w !! _).
  - destruct (negb _); cbn [snd]; [|apply R_expect_delete].
    eapply R_trans; [apply R_expect_delete|apply R_drop].
  - cbn [negb snd]. apply R_drop.
Qed.

Lemma R_whois_send_loop fuel ticks root rootPath toSend (w : Node) :
  R w (whois_send_loop fuel ticks root rootPath toSend w).
Proof.
  revert toSend w. induction fuel as [|fuel IH]; intros toSend w; [done|].
  destruct toSend as [|x rest]; [done|].
  cbn [whois_send_loop]. unfold Peer_key_nextMessage.
  destruct (whois_fill _ _ _) as [[q outp1] rest'].
  destruct (Protocol_armor _ _ _ _) as [armoredId outp].
  eapply R_trans; [|apply IH].
  eapply R_trans; [|apply R_Peer_send].
  unfold Expect_sending. eapply R_trans; [|apply R_expect_insert].
  by apply R_update.
Qed.

Lemma R_m_sendPendingWhois ticks (w : Node) : R w (m_sendPendingWhois ticks w).
Proof.
  unfold m_sendPendingWhois.
  destruct (Topology_root w); [|done].
  destruct (Peer_path _ _ _); [|done].
  eapply R_trans; [apply R_retry|apply R_whois_send_loop].
Qed.

Lemma R_queue_whois ticks source pktv pkt pktSize (w : Node) :
  R w (queue_whois ticks source pktv pkt pktSize w).
Proof.
  unfold queue_whois.
  destruct (if pktSize <=? 0 then mergeCopy pktv else (pktSize, pkt)) as [pktSize1 pkt1].
  destruct (_ <=? pktSize1); [|done].
  destruct (_ <=? _); [|apply R_enqueue].
  eapply R_trans; [apply R_enqueue|apply R_m_sendPendingWhois].
Qed.

Lemma one_call_R (w w' : Node) : R w w' → one_call R w w'.
Proof. by left. Qed.

Lemma one_call_pre (w w1 w' : Node) : R w w1 → one_call R w1 w' → one_call R w w'.
Proof.
  intros H1 [H2 | (w2 & verb & pid & auth & peer & pkt & size & H2 & Hok & H3)].
  - left. by eapply R_trans.
  - right. exists w2, verb, pid, auth, peer, pkt, size. split_and!; [by eapply R_trans|done..].
Qed.

Lemma one_call_post (w w1 w' : Node) : one_call R w w1 → R w1 w' → one_call R w w'.
Proof.
  intros [H1 | (w2 & verb & pid & auth & peer & pkt & size & H1 & Hok & H2)] H3.
  - left. by eapply R_trans.
  - right. exists w2, verb, pid, auth, peer, pkt, size. split_and!; [done..|by eapply R_trans].
Qed.

Lemma one_call_handler verb packetId auth peer pkt pktSize (w w' : Node) :
  call_ok verb auth →
  R (handler_call verb packetId auth peer pkt pktSize w) w' → one_call R w w'.
Proof. intros Hok H. right. exists w, verb, packetId, auth, peer, pkt, pktSize. by split_and!. Qed.

Lemma one_call_dispatch ticks path packetId auth hops peer verb pkt pktSize (w : Node) :
  auth ≠ 0 →
  auth = ZT_VL1_AUTH_RESULT_FLAG_AUTHENTICATED
  ∨ auth = Z.lor ZT_VL1_AUTH_RESULT_FLAG_AUTHENTICATED ZT_VL1_AUTH_RESULT_FLAG_ENCRYPTED →
  one_call R w (dispatch ticks path packetId auth hops peer verb pkt pktSize w).2.
Proof.
  intros Hne Hauth.
  assert (Hok : call_ok verb auth) by (right; by split).
  unfold dispatch.
  destruct (verb =? VERB_NOP); [by left|].
  destruct (verb =? VERB_HELLO).
  { pose proof (R_m_HELLO ticks path pkt pktSize
                  (handler_call verb packetId auth peer pkt pktSize w)) as H1.
    destruct (m_HELLO _ _ _ _ _) as [r w1]. by apply (one_call_handler verb packetId auth peer pkt pktSize). }
  destruct (verb =? VERB_OK).
  { pose proof (R_m_OK ticks packetId auth path peer pkt pktSize
                  (handler_call verb packetId auth peer pkt pktSize w)) as H1.
    destruct (m_OK _ _ _ _ _ _ _ _) as [[ok inReVerb] w1].
    by apply (one_call_handler verb packetId auth peer pkt pktSize). }
  destruct (bool_decide (verb ∈ compiled_out_verbs)).
  { by apply (one_call_handler verb packetId auth peer pkt pktSize). }
  destruct (bool_decide (verb ∈ vl2_verbs)).
  { destruct (VL2_handler _ _ _ _ _ _);
      by apply (one_call_handler verb packetId auth peer pkt pktSize). }
  destruct (_ || _).
  { by apply (one_call_handler verb packetId auth peer pkt pktSize). }
  left. apply R_drop.
Qed.

Lemma one_call_process_authenticated ticks path packetId hops auth peer pkt pktSize (w : Node) :
  auth ≠ 0 →
  auth = ZT_VL1_AUTH_RESULT_FLAG_AUTHENTICATED
  ∨ auth = Z.lor ZT_VL1_AUTH_RESULT_FLAG_AUTHENTICATED ZT_VL1_AUTH_RESULT_FLAG_ENCRYPTED →
  one_call R w (catch_all (process_authenticated ticks path packetId hops auth peer pkt pktSize w)).
Proof.
  intros Hne Hauth. unfold process_authenticated.
  destruct (pktSize <? _); [by left|].
  pose proof (R_deduplicateIncomingPacket peer packetId w) as H1.
  destruct (deduplicateIncomingPacket peer packetId w) as [[] w1]; cbn [snd] in H1; [by left|].
  destruct (decompress _ pkt pktSize) as [[pkt1 pktSize1]|].
  2:{ left. eapply R_trans; [exact H1|apply R_drop]. }
  apply (one_call_pre w w1); [done|].
  match goal with
  | |- context [dispatch ticks path packetId auth hops peer ?verb pkt1 pktSize1 w1] =>
      pose proof (one_call_dispatch ticks path packetId auth hops peer verb pkt1 pktSize1
                    w1 Hne Hauth) as H2;
      destruct (dispatch ticks path packetId auth hops peer verb pkt1 pktSize1 w1)
        as [[[[] inReVerb]|] w2]
  end; cbn [catch_all snd] in *.
  - eapply one_call_post; [exact H2|apply R_Peer_received].
  - done.
  - eapply one_call_post; [exact H2|]. by apply R_emit.
Qed.

Lemma authenticate_shape ticks path packetId pktv (w : Node) :
  match authenticate ticks path packetId pktv w with
  | AuthReturned w1 => one_call R w w1
  | AuthContinue auth _ _ _ w1 =>
      R w w1
      ∧ (auth = 0 ∨ auth = ZT_VL1_AUTH_RESULT_FLAG_AUTHENTICATED
         ∨ auth = Z.lor ZT_VL1_AUTH_RESULT_FLAG_AUTHENTICATED ZT_VL1_AUTH_RESULT_FLAG_ENCRYPTED)
  end.
Proof.
  unfold authenticate.
  destruct (_ && _) eqn:Ehello.
  - destruct (mergeCopy pktv) as [pktSize pkt].
    destruct (pktSize <? _); [by left|].
    pose proof (R_m_HELLO ticks path pkt pktSize
                  (handler_call VERB_HELLO packetId 0 0 pkt pktSize w)) as H1.
    destruct (m_HELLO _ _ _ _ _) as [[peer|] w1]; cbn [snd] in H1.
    + apply (one_call_handler VERB_HELLO packetId 0 0 pkt pktSize); [by left|].
      eapply R_trans; [exact H1|apply R_Peer_received].
    + by apply (one_call_handler VERB_HELLO packetId 0 0 pkt pktSize); [left|].
  - pose proof (R_Topology_peer ticks (packet_source pktv) peer_loadFromCached_default w) as H1.
    destruct (Topology_peer _ _ _ _) as [[peer|] w1]; cbn [snd] in H1; [|by split; [|left]].
    unfold authenticate_switch.
    destruct (_ =? ZT_PROTO_CIPHER_POLY1305_NONE).
    { destruct (merge_poly1305 _ _ _) as [[pktSize pkt] s20cf].
      destruct (pktSize <? _); [by left|]. destruct (bool_decide _).
      - left. eapply R_trans; [exact H1|apply R_drop].
      - split; [done|]. right. by left. }
    destruct (_ =? ZT_PROTO_CIPHER_POLY1305_SALSA2012).
    { destruct (merge_salsa2012 _ _ _) as [[pktSize pkt] s20cf].
      destruct (pktSize <? _); [by left|]. destruct (bool_decide _).
      - left. eapply R_trans; [exact H1|apply R_drop].
      - split; [done|]. right. by right. }
    destruct (_ =? ZT_PROTO_CIPHER_NONE); [by split; [|left]|].
    destruct (_ =? ZT_PROTO_CIPHER_AES_GMAC_SIV); [by split; [|left]|].
    left. eapply R_trans; [exact H1|apply R_drop].
Qed.

Lemma R_classify ticks path packetId data len (w : Node) r w1 :
  classify ticks path packetId data len w = (r, w1) → R w w1.
Proof.
  unfold classify. intros Hc.
  destruct (_ =? _) in Hc.
  - destruct (assemble _ _ _ _ _ _ _ _ _) as [[asm []] pktv]; simplify_eq;
      apply R_assembler.
  - destruct (len <? _) in Hc; [simplify_eq; apply R_refl|].
    destruct (negb _) in Hc; [|simplify_eq; apply R_refl].
    destruct (assemble _ _ _ _ _ _ _ _ _) as [[asm []] pktv]; simplify_eq;
      apply R_assembler.
Qed.

Lemma one_call_try ticks path data len (w : Node) :
  one_call R w (catch_all (onRemotePacket_try ticks path data len w)).
Proof.
  unfold onRemotePacket_try.
  destruct (len <? _); [by left|].
  destruct (bool_decide _); [by left|].
  destruct (classify _ _ _ _ _ _) as [[pktv|] wc] eqn:Hc;
    pose proof (R_classify _ _ _ _ _ _ _ _ Hc) as Hwc; [|by left].
  apply (one_call_pre w wc); [done|].
  unfold process_assembled.
  pose proof (authenticate_shape ticks path (loadMachineEndian64 data ZT_PROTO_PACKET_ID_INDEX)
                pktv wc) as Ha.
  destruct (authenticate _ _ _ _ _) as [w1|auth [peer|] pkt pktSize w1]; [done| |].
  - destruct Ha as [Ha Hauth].
    destruct (decide (auth ≠ 0)) as [Hne|He].
    + rewrite bool_decide_eq_true_2 by done.
      apply (one_call_pre wc w1); [done|].
      apply one_call_process_authenticated; [done|].
      destruct Hauth as [?|?]; [done|done].
    + rewrite bool_decide_eq_false_2 by done. left.
      eapply R_trans; [exact Ha|apply R_queue_whois].
  - destruct Ha as [Ha Hauth].
    destruct (bool_decide _); [by left|]. left.
    eapply R_trans; [exact Ha|apply R_queue_whois].
Qed.

End Steps.

(** * Further properties of VL1.cpp *)

Section VL1_more.
Context {constants : Constants} {collaborators : Collaborators}.

Lemma enter_events ticks localSocket fromAddr len (w : Node) :
  events (enter ticks localSocket fromAddr len w) = events w.
Proof. by destruct (enter_core ticks localSocket fromAddr len w) as (_&_&_&_&_&_&_&_&?). Qed.

(** X12: one call of [onRemotePacket] only appends to the trace, and it
    calls at most one verb handler; when it calls one, either the verb is
    HELLO and the authentication flags passed are 0, or the flags are
    AUTHENTICATED or AUTHENTICATED|ENCRYPTED: no other packet reaches a
    handler before its MAC was checked. *)
Theorem X12_at_most_one_handler_call_and_only_for_an_authenticated_packet_or_a_HELLO
    ticks localSocket fromAddr data len (w : Node) :
  ∃ l, events (onRemotePacket ticks localSocket fromAddr data len w) = events w ++ l
       ∧ (Forall (λ e, is_handler_call e = false) l
          ∨ ∃ l1 l2 verb packetId auth peer pkt pktSize,
              l = l1 ++ EvHandler verb packetId auth peer pkt pktSize :: l2
              ∧ Forall (λ e, is_handler_call e = false) l1
              ∧ Forall (λ e, is_handler_call e = false) l2
              ∧ call_ok verb auth).
Proof.
  set (R := λ w1 w2 : Node,
         ∃ l, events w2 = events w1 ++ l ∧ Forall (λ e, is_handler_call e = false) l).
  assert (Hsame : ∀ w1 w2 : Node, events w2 = events w1 → R w1 w2).
  { intros w1 w2 He. exists []. by rewrite He, app_nil_r. }
  assert (Hone : one_call R (enter ticks localSocket fromAddr len w)
                   (onRemotePacket ticks localSocket fromAddr data len w)).
  { apply one_call_try.
    - intros w1. by apply Hsame.
    - intros w1 w2 w3 (l1 & H1 & F1) (l2 & H2 & F2). exists (l1 ++ l2).
      split; [by rewrite H2, H1, app_assoc|by apply Forall_app].
    - intros e w1 He. exists [e]. split; [done|by constructor].
    - intros. by apply Hsame.
    - intros. by apply Hsame.
    - intros. by apply Hsame.
    - intros. by apply Hsame.
    - intros. by apply Hsame.
    - intros. by apply Hsame.
    - intros. by apply Hsame.
    - intros. by apply Hsame.
    - intros. by apply Hsame.
    - intros. by apply Hsame. }
  destruct Hone as [(l & He & Hl)
                   | (w1 & verb & pid & auth & peer & pkt & size & (l1 & H1 & F1) & Hok & (l2 & H2 & F2))].
  - exists l. rewrite He, enter_events. split; [done|by left].
  - exists (l1 ++ EvHandler verb pid auth peer pkt size :: l2). split.
    + rewrite H2. cbn [handler_call emit events]. rewrite H1, enter_events.
      by rewrite <- !app_assoc.
    + right. exists l1, l2, verb, pid, auth, peer, pkt, size. by split_and!.
Qed.

(** X13: whatever the datagram, [onRemotePacket] changes neither the
    node's own identity, nor the root list and the best root, nor the
    persistent store; no entry of the peer map is removed or redirected; and
    every peer object that existed still exists with the same identity and
    the same identity key. *)
Theorem X13_a_datagram_never_changes_roots_identity_or_store_and_peers_only_grow
    ticks localSocket fromAddr data len (w : Node) :
  m_identity (onRemotePacket ticks localSocket fromAddr data len w) = m_identity w
  ∧ m_roots (onRemotePacket ticks localSocket fromAddr data len w) = m_roots w
  ∧ m_bestRoot (onRemotePacket ticks localSocket fromAddr data len w) = m_bestRoot w
  ∧ store (onRemotePacket ticks localSocket fromAddr data len w) = store w
  ∧ (∀ a h, m_peers w !! a = Some h →
            m_peers (onRemotePacket ticks localSocket fromAddr data len w) !! a = Some h)
  ∧ (∀ p o, objs w !! p = Some o →
            ∃ o', objs (onRemotePacket ticks localSocket fromAddr data len w) !! p = Some o'
                  ∧ m_id o' = m_id o ∧ m_identityKey o' = m_identityKey o).
Proof.
  set (R := λ w1 w2 : Node,
         m_identity w2 = m_identity w1 ∧ m_roots w2 = m_roots w1
         ∧ m_bestRoot w2 = m_bestRoot w1 ∧ store w2 = store w1
         ∧ (∀ a h, m_peers w1 !! a = Some h → m_peers w2 !! a = Some h)
         ∧ (∀ p o, objs w1 !! p = Some o →
                   ∃ o', objs w2 !! p = Some o' ∧ m_id o' = m_id o
                         ∧ m_identityKey o' = m_identityKey o)).
  assert (Hrefl : ∀ w1, R w1 w1).
  { intros w1. split_and!; [done..|]. intros p o Ho. by exists o. }
  assert (Htrans : ∀ w1 w2 w3, R w1 w2 → R w2 w3 → R w1 w3).
  { intros w1 w2 w3 (A1 & A2 & A3 & A4 & A5 & A6) (B1 & B2 & B3 & B4 & B5 & B6).
    split_and!; [congruence..| |].
    - intros a h Ha. by apply B5, A5.
    - intros p o Ho. destruct (A6 p o Ho) as (o1 & Ho1 & I1 & K1).
      destruct (B6 p o1 Ho1) as (o2 & Ho2 & I2 & K2).
      exists o2. split_and!; [done|congruence..]. }
  assert (Hsame : ∀ w1 w2 : Node,
            m_identity w2 = m_identity w1 → m_roots w2 = m_roots w1 →
            m_bestRoot w2 = m_bestRoot w1 → store w2 = store w1 →
            m_peers w2 = m_peers w1 → objs w2 = objs w1 → R w1 w2).
  { intros w1 w2 E1 E2 E3 E4 E5 E6. split_and!; [done..| |].
    - intros a h. by rewrite E5.
    - intros p o. rewrite E6. intros Ho. by exists o. }
  assert (Hfresh : ∀ (w1 : Node) p o, objs w1 !! p = Some o → p ≠ new_handle w1).
  { intros w1 p o Ho ->. pose proof (new_handle_fresh w1). congruence. }
  assert (Hone : one_call R (enter ticks localSocket fromAddr len w)
                   (onRemotePacket ticks localSocket fromAddr data len w)).
  { apply one_call_try; [done|done|..].
    - intros. by apply Hsame.
    - intros p f w1 Hf. split_and!; [done..|].
      intros q o Ho. unfold update_peer. cbn [objs with_objs].
      destruct (decide (p = q)) as [->|Hne].
      + exists (f (deref w1 q)). rewrite lookup_insert_eq. split; [done|].
        unfold deref. rewrite Ho. simpl. destruct (Hf o) as (? & ? & _). by split.
      + exists o. by rewrite lookup_insert_ne.
    - intros p ring w1. split_and!; [done..|].
      intros q o Ho. unfold update_peer. cbn [objs with_objs].
      destruct (decide (p = q)) as [->|Hne].
      + exists (Peer_with_dedup ring (deref w1 q)). rewrite lookup_insert_eq. split; [done|].
        unfold deref. by rewrite Ho.
      + exists o. by rewrite lookup_insert_ne.
    - intros. by apply Hsame.
    - intros. by apply Hsame.
    - intros. by apply Hsame.
    - intros. by apply Hsame.
    - intros. by apply Hsame.
    - intros z o w1 Hz. split_and!; [done..| |].
      + intros a h Ha. cbn [m_peers with_peers]. rewrite lookup_insert_ne; [done|]. congruence.
      + intros p o1 Ho. exists o1. cbn [objs with_peers with_objs].
        rewrite lookup_insert_ne; [done|]. intros Heq. by apply (Hfresh w1 p o1).
    - intros o w1. split_and!; [done..|].
      intros p o1 Ho. exists o1. cbn [objs with_objs].
      rewrite lookup_insert_ne; [done|]. intros Heq. by apply (Hfresh w1 p o1).
    - intros a h w1 Ha. split_and!; [done..| |].
      + intros a' h' Ha'. cbn [m_peers with_peers]. rewrite lookup_insert_ne; [done|]. congruence.
      + intros p o Ho. by exists o. }
  assert (Hall : R (enter ticks localSocket fromAddr len w)
                   (onRemotePacket ticks localSocket fromAddr data len w)).
  { destruct Hone as [H | (w1 & verb & pid & auth & peer & pkt & size & H1 & _ & H2)]; [done|].
    eapply Htrans; [exact H1|]. eapply Htrans; [|exact H2]. by apply Hsame. }
  destruct (enter_core ticks localSocket fromAddr len w) as (E1 & E2 & E3 & E4 & E5 & E6 & _).
  destruct Hall as (A1 & A2 & A3 & A4 & A5 & A6).
  split_and!; [congruence..| |].
  - intros a h Ha. apply A5. by rewrite E3.
  - intros p o Ho. apply A6. by rewrite E2.
Qed.


Lemma enter_paths ticks localSocket fromAddr len (w : Node) :
  m_paths (enter ticks localSocket fromAddr len w)
  = <[(localSocket, fromAddr) :=
        mkPath (path_refs (default (mkPath 1 0 0) (m_paths w !! (localSocket, fromAddr)))) ticks
               (path_bytesIn (default (mkPath 1 0 0) (m_paths w !! (localSocket, fromAddr)))
                + len)]> (m_paths w).
Proof.
  unfold enter, Path_received, Topology_path, m_newPath.
  destruct (m_paths w !! (localSocket, fromAddr)) as [p|] eqn:E; cbn [m_paths with_paths default].
  - apply map_eq. intros k. destruct (decide (k = (localSocket, fromAddr))) as [->|Hne].
    + by rewrite lookup_alter_eq, lookup_insert_eq, E.
    + by rewrite lookup_alter_ne, lookup_insert_ne.
  - apply map_eq. intros k. destruct (decide (k = (localSocket, fromAddr))) as [->|Hne].
    + by rewrite lookup_alter_eq, !lookup_insert_eq.
    + by rewrite lookup_alter_ne, !lookup_insert_ne.
Qed.

(** X14: every datagram, even one dropped at once, is counted on the path
    it came in on (interned by [Topology::path], then [Path::received], as
    the specification describes them): after the call that path is in the
    path map, with the arrival time as its last-receive time and [len] more
    bytes received than before ([len] for a path that is new); the path map
    has gained no other key and lost none.  Nothing is said of reference
    counts, nor of what a send leaves on a path. *)
Theorem X14_every_datagram_is_counted_on_its_path_and_the_path_map_only_gains_that_path
    ticks localSocket fromAddr data len (w : Node) :
  (∃ p, m_paths (onRemotePacket ticks localSocket fromAddr data len w) !! (localSocket, fromAddr)
        = Some p
        ∧ path_lastIn p = ticks
        ∧ path_bytesIn p
          = match m_paths w !! (localSocket, fromAddr) with
            | Some q => path_bytesIn q
            | None => 0
            end + len)
  ∧ ∀ k, is_Some (m_paths (onRemotePacket ticks localSocket fromAddr data len w) !! k)
         ↔ k = (localSocket, fromAddr) ∨ is_Some (m_paths w !! k).
Proof.
  set (R := λ w1 w2 : Node, m_paths w2 = m_paths w1).
  assert (Hone : one_call R (enter ticks localSocket fromAddr len w)
                   (onRemotePacket ticks localSocket fromAddr data len w)).
  { apply one_call_try; unfold R; try done. intros w1 w2 w3. congruence. }
  assert (Hall : m_paths (onRemotePacket ticks localSocket fromAddr data len w)
                 = m_paths (enter ticks localSocket fromAddr len w)).
  { destruct Hone as [H | (w1 & verb & pid & auth & peer & pkt & size & H1 & _ & H2)]; [done|].
    unfold R in *. rewrite H2. cbn [handler_call emit m_paths]. done. }
  rewrite Hall, enter_paths. split.
  - rewrite lookup_insert_eq. eexists. split; [done|]. cbn [path_lastIn path_bytesIn].
    split; [done|]. by destruct (m_paths w !! (localSocket, fromAddr)).
  - intros k. destruct (decide (k = (localSocket, fromAddr))) as [->|Hne].
    + rewrite lookup_insert_eq. split; [by left|by eexists].
    + rewrite lookup_insert_ne by done. split; [by right|]. by intros [?|?].
Qed.

(** X16: a datagram shorter than a fragment, one addressed to another
    node ([m_relay] is empty), and one that is not a fragment and is shorter
    than a packet header are dropped without a trace: only the path counters
    move. *)
Theorem X16_short_and_foreign_datagrams_are_dropped_without_a_trace
    ticks localSocket fromAddr data len (w : Node) :
  len < ZT_PROTO_MIN_FRAGMENT_LENGTH
  ∨ Address_at data ZT_PROTO_PACKET_DESTINATION_INDEX ≠ id_address (m_identity w)
  ∨ (byte_at data ZT_PROTO_PACKET_FRAGMENT_INDICATOR_INDEX ≠ ZT_PROTO_PACKET_FRAGMENT_INDICATOR
     ∧ len < ZT_PROTO_MIN_PACKET_LENGTH) →
  onRemotePacket ticks localSocket fromAddr data len w = enter ticks localSocket fromAddr len w
  ∧ same_core w (onRemotePacket ticks localSocket fromAddr data len w).
Proof.
  intros Hwhy.
  assert (Hrun : onRemotePacket ticks localSocket fromAddr data len w
                 = enter ticks localSocket fromAddr len w).
  { unfold onRemotePacket, onRemotePacket_try.
    destruct (Z.ltb_spec len ZT_PROTO_MIN_FRAGMENT_LENGTH); [done|].
    destruct (enter_core ticks localSocket fromAddr len w) as (Hi & _).
    rewrite Hi.
    destruct (decide (Address_at data ZT_PROTO_PACKET_DESTINATION_INDEX
                      ≠ id_address (m_identity w))) as [Hd|Hd].
    { by rewrite bool_decide_eq_true_2. }
    rewrite bool_decide_eq_false_2 by done.
    destruct Hwhy as [?|[?|[Hfrag Hshort]]]; [lia|done|].
    unfold classify.
    rewrite (proj2 (Z.eqb_neq _ _) Hfrag).
    by destruct (Z.ltb_spec len ZT_PROTO_MIN_PACKET_LENGTH); [|lia]. }
  split; [done|]. rewrite Hrun. apply enter_core.
Qed.

(** X17: a fragment, or the head of a fragmented packet, with which the
    assembler does not complete a packet changes nothing but the assembler
    and the path counters, whatever the assembler answers (also on an
    error). *)
Theorem X17_a_fragment_that_does_not_complete_a_packet_only_feeds_the_assembler
    ticks localSocket fromAddr data len (w : Node) :
  ZT_PROTO_MIN_FRAGMENT_LENGTH ≤ len →
  Address_at data ZT_PROTO_PACKET_DESTINATION_INDEX = id_address (m_identity w) →
  (byte_at data ZT_PROTO_PACKET_FRAGMENT_INDICATOR_INDEX = ZT_PROTO_PACKET_FRAGMENT_INDICATOR
   ∧ (assemble (m_inputPacketAssembler w) (loadMachineEndian64 data ZT_PROTO_PACKET_ID_INDEX) data
               ZT_PROTO_PACKET_FRAGMENT_PAYLOAD_START_AT
               (len - ZT_PROTO_PACKET_FRAGMENT_PAYLOAD_START_AT)
               (Z.land (byte_at data ZT_PROTO_PACKET_FRAGMENT_COUNTS) 0x0f)
               (Z.land (Z.shiftr (byte_at data ZT_PROTO_PACKET_FRAGMENT_COUNTS) 4) 0x0f)
               ticks (localSocket, fromAddr)).1.2 ≠ COMPLETE)
  ∨ (byte_at data ZT_PROTO_PACKET_FRAGMENT_INDICATOR_INDEX ≠ ZT_PROTO_PACKET_FRAGMENT_INDICATOR
     ∧ ZT_PROTO_MIN_PACKET_LENGTH ≤ len
     ∧ Z.land (byte_at data ZT_PROTO_PACKET_FLAGS_INDEX) ZT_PROTO_FLAG_FRAGMENTED ≠ 0
     ∧ (assemble (m_inputPacketAssembler w) (loadMachineEndian64 data ZT_PROTO_PACKET_ID_INDEX)
                 data 0 len 0 0 ticks (localSocket, fromAddr)).1.2 ≠ COMPLETE) →
  same_core w (onRemotePacket ticks localSocket fromAddr data len w)
  ∧ m_paths (onRemotePacket ticks localSocket fromAddr data len w)
    = m_paths (enter ticks localSocket fromAddr len w).
Proof.
  intros Hlen Hdest Hwhy.
  assert (Hasm : m_inputPacketAssembler (enter ticks localSocket fromAddr len w)
                 = m_inputPacketAssembler w).
  { unfold enter, Path_received, Topology_path, m_newPath.
    by destruct (m_paths w !! (localSocket, fromAddr)). }
  pose proof (enter_core ticks localSocket fromAddr len w) as Hcore.
  assert (Hc : ∃ wc, classify ticks (localSocket, fromAddr)
                 (loadMachineEndian64 data ZT_PROTO_PACKET_ID_INDEX) data len
                 (enter ticks localSocket fromAddr len w) = (None, wc)
               ∧ m_paths wc = m_paths (enter ticks localSocket fromAddr len w)).
  { unfold classify. rewrite Hasm.
    destruct Hwhy as [(Hfrag & Hres) | (Hfrag & Hmin & Hflag & Hres)].
    - rewrite (proj2 (Z.eqb_eq _ _) Hfrag).
      destruct (assemble _ _ _ _ _ _ _ _ _) as [[asm r] pktv]. cbn [fst snd] in Hres.
      destruct r; try done; by eexists.
    - rewrite (proj2 (Z.eqb_neq _ _) Hfrag).
      destruct (Z.ltb_spec len ZT_PROTO_MIN_PACKET_LENGTH); [lia|].
      rewrite (proj2 (Z.eqb_neq _ _) Hflag). cbn [negb].
      destruct (assemble _ _ _ _ _ _ _ _ _) as [[asm r] pktv]. cbn [fst snd] in Hres.
      destruct r; try done; by eexists. }
  destruct Hc as (wc & Hc & Hp).
  assert (Hrun : onRemotePacket ticks localSocket fromAddr data len w = wc).
  { unfold onRemotePacket, onRemotePacket_try.
    destruct (Z.ltb_spec len ZT_PROTO_MIN_FRAGMENT_LENGTH); [lia|].
    destruct Hcore as (Hi & _). rewrite Hi.
    rewrite bool_decide_eq_false_2 by (intros Hne; by apply Hne).
    by rewrite Hc. }
  rewrite Hrun. split; [|done].
  eapply same_core_trans; [exact Hcore|]. by eapply classify_core.
Qed.




Lemma process_authenticated_fresh ticks path packetId hops auth peer pkt pktSize (w : Node) :
  ZT_PROTO_MIN_PACKET_LENGTH ≤ pktSize →
  packetId ∉ m_dedup (deref w peer) →
  Z.land (byte_at pkt ZT_PROTO_PACKET_VERB_INDEX) ZT_PROTO_VERB_FLAG_COMPRESSED = 0 →
  process_authenticated ticks path packetId hops auth peer pkt pktSize w
  = match dispatch ticks path packetId auth hops peer
            (Z.land (byte_at pkt ZT_PROTO_PACKET_VERB_INDEX) ZT_PROTO_VERB_MASK) pkt pktSize
            (update_peer peer
               (Peer_with_dedup (take DEDUP_WINDOW (packetId :: m_dedup (deref w peer)))) w) with
    | (Some (ok, inReVerb), w2) =>
        Completed (if ok
                   then Peer_received peer ticks path hops packetId
                          (pktSize - ZT_PROTO_PACKET_PAYLOAD_START)
                          (Z.land (byte_at pkt ZT_PROTO_PACKET_VERB_INDEX) ZT_PROTO_VERB_MASK)
                          inReVerb w2
                   else w2)
    | (None, w2) => Threw w2
    end.
Proof.
  intros Hsize Hfresh Hflag. unfold process_authenticated.
  destruct (Z.ltb_spec pktSize ZT_PROTO_MIN_PACKET_LENGTH); [lia|].
  unfold deduplicateIncomingPacket. rewrite bool_decide_eq_false_2 by done.
  unfold decompress. rewrite Hflag. done.
Qed.




Lemma with_whoisQueue_same (w : Node) : with_whoisQueue (m_whoisQueue w) w = w.
Proof. by destruct w. Qed.

Lemma filter_nil_not {A} (P : A → Prop) `{∀ x, Decision (P x)} (l : list A) :
  (∀ x, x ∈ l → ¬ P x) → filter P l = [].
Proof.
  intros Hn. destruct (filter P l) as [|x l'] eqn:E; [done|].
  assert (Hx : x ∈ filter P l) by (rewrite E; apply list_elem_of_here).
  apply list_elem_of_filter in Hx as [Hp Hx]. by destruct (Hn x Hx).
Qed.

Lemma m_sendPendingWhois_nothing_due ticks (w : Node) :
  (∀ a item, m_whoisQueue w !! a = Some item → whois_due ticks item = false) →
  m_sendPendingWhois ticks w = w.
Proof.
  intros Hnone. unfold m_sendPendingWhois.
  destruct (Topology_root w) as [root|]; [|done].
  destruct (Peer_path ticks root w) as [rootPath|]; [|done].
  rewrite filter_nil_not.
  - simpl.
    assert (Hq : whois_retry ticks <$> m_whoisQueue w = m_whoisQueue w).
    { rewrite <- (map_fmap_id (m_whoisQueue w)) at 2.
      apply map_fmap_ext. intros a item Ha. unfold whois_retry. by rewrite (Hnone a item Ha). }
    rewrite Hq. apply with_whoisQueue_same.
  - intros [a item] Hin. apply elem_of_map_to_list in Hin. simpl.
    rewrite (Hnone a item Hin). done.
Qed.

(** X21: [m_sendPendingWhois] with a positive retry delay.  A second call
    at the same tick does nothing; a call when no entry is
    [ZT_WHOIS_RETRY_DELAY] old does nothing; and when there is a root with a
    live path, every entry that is due gets the current time as its last
    retry and one more retry counted. *)
Theorem X21_WHOIS_requests_are_not_repeated_before_the_retry_delay ticks (w : Node) :
  0 < ZT_WHOIS_RETRY_DELAY →
  m_sendPendingWhois ticks (m_sendPendingWhois ticks w) = m_sendPendingWhois ticks w
  ∧ ((∀ a item, m_whoisQueue w !! a = Some item → ticks - lastRetry item < ZT_WHOIS_RETRY_DELAY) →
     m_sendPendingWhois ticks w = w)
  ∧ (∀ root rootPath a item,
       Topology_root w = Some root → Peer_path ticks root w = Some rootPath →
       m_whoisQueue w !! a = Some item →
       ZT_WHOIS_RETRY_DELAY ≤ ticks - lastRetry item →
       ∃ item', m_whoisQueue (m_sendPendingWhois ticks w) !! a = Some item'
                ∧ lastRetry item' = ticks ∧ retries item' = retries item + 1).
Proof.
  intros Hdelay.
  assert (Hdue : ∀ item, whois_due ticks (whois_retry ticks item) = false).
  { intros item. unfold whois_retry. destruct (whois_due ticks item) eqn:E; [|done].
    unfold whois_due. cbn [lastRetry]. apply Z.leb_gt. lia. }
  split_and!.
  - assert (Hshape : m_sendPendingWhois ticks w = w
                     ∨ ∀ a item, m_whoisQueue (m_sendPendingWhois ticks w) !! a = Some item →
                                 whois_due ticks item = false).
    { unfold m_sendPendingWhois.
      destruct (Topology_root w) as [root|]; [|by left].
      destruct (Peer_path ticks root w) as [rootPath|]; [|by left].
      right. intros a item.
      match goal with
      | |- context [whois_send_loop ?f ticks root rootPath ?l ?w1] =>
          destruct (whois_send_loop_spec f ticks root rootPath l w1) as (-> & _)
      end.
      cbn [m_whoisQueue with_whoisQueue]. rewrite lookup_fmap.
      destruct (m_whoisQueue w !! a) as [it|]; [|done]. simpl. intros ?; simplify_eq.
      apply Hdue. }
    destruct Hshape as [Hsame | Hnone]; [by rewrite !Hsame|].
    by apply m_sendPendingWhois_nothing_due.
  - intros Hnot. apply m_sendPendingWhois_nothing_due. intros a item Ha.
    unfold whois_due. apply Z.leb_gt. by apply (Hnot a item).
  - intros root rootPath a item Hr Hp Ha Hold. unfold m_sendPendingWhois. rewrite Hr, Hp.
    match goal with
    | |- context [whois_send_loop ?f ticks root rootPath ?l ?w1] =>
        destruct (whois_send_loop_spec f ticks root rootPath l w1) as (-> & _)
    end.
    cbn [m_whoisQueue with_whoisQueue]. rewrite lookup_fmap, Ha. simpl.
    eexists. split; [done|]. unfold whois_retry, whois_due.
    destruct (Z.leb_spec ZT_WHOIS_RETRY_DELAY (ticks - lastRetry item)); [done|lia].
Qed.

Lemma whois_fill_spec a : ∀ p outp,
  ∃ taken, a = taken ++ (whois_fill p outp a).2
    ∧ (whois_fill p outp a).1.1 = p + ZT_ADDRESS_LENGTH * Z.of_nat (length taken)
    ∧ (p < ZT_DEFAULT_UDP_MTU - ZT_PROTO_MIN_PACKET_LENGTH →
       (whois_fill p outp a).1.1 < ZT_DEFAULT_UDP_MTU - ZT_PROTO_MIN_PACKET_LENGTH)
    ∧ (p < ZT_DEFAULT_UDP_MTU - ZT_PROTO_MIN_PACKET_LENGTH - ZT_ADDRESS_LENGTH →
       a ≠ [] → taken ≠ []).
Proof.
  induction a as [|x a IH]; intros p outp.
  - exists []. simpl. split_and!; [done|lia|done|done].
  - cbn [whois_fill].
    destruct (Z.ltb_spec p (ZT_DEFAULT_UDP_MTU - ZT_PROTO_MIN_PACKET_LENGTH - ZT_ADDRESS_LENGTH)).
    + destruct (IH (p + ZT_ADDRESS_LENGTH) (Buf_write outp p (be_bytes ZT_ADDRESS_LENGTH x)))
        as (taken & Ha & Hp & Hb & _).
      exists (x :: taken). split_and!.
      * simpl. by rewrite <- Ha.
      * rewrite Hp. cbn [length]. lia.
      * intros _. apply Hb. unfold ZT_ADDRESS_LENGTH in *. lia.
      * done.
    + exists []. simpl. split_and!; [done|lia|done|lia].
Qed.

Lemma whois_send_loop_sends fuel : ∀ ticks root rootPath a (w : Node),
  ZT_PROTO_PACKET_PAYLOAD_START
    < ZT_DEFAULT_UDP_MTU - ZT_PROTO_MIN_PACKET_LENGTH - ZT_ADDRESS_LENGTH →
  (length a ≤ fuel)%nat →
  ∃ pkts : list (list Z * Z),
    events (whois_send_loop fuel ticks root rootPath a w)
    = events w ++ ((λ bp, EvPeerSend root bp.1 bp.2 rootPath) <$> pkts)
    ∧ Forall (λ bp, ZT_PROTO_PACKET_PAYLOAD_START < bp.2
                    < ZT_DEFAULT_UDP_MTU - ZT_PROTO_MIN_PACKET_LENGTH) pkts
    ∧ foldr (λ bp acc, (bp.2 - ZT_PROTO_PACKET_PAYLOAD_START) + acc) 0 pkts
      = ZT_ADDRESS_LENGTH * Z.of_nat (length a)
    ∧ (a = [] ↔ pkts = []).
Proof.
  induction fuel as [|fuel IH]; intros ticks root rootPath a w Hcap Hfuel.
  - destruct a; [|simpl in Hfuel; lia]. exists []. simpl. rewrite app_nil_r.
    split_and!; [done|done|lia|done].
  - destruct a as [|x a]; cbn [whois_send_loop].
    { exists []. simpl. rewrite app_nil_r. split_and!; [done|done|lia|done]. }
    unfold Peer_key_nextMessage.
    match goal with
    | |- context [whois_fill ?p ?o (x :: a)] =>
        destruct (whois_fill_spec (x :: a) p o) as (taken & Ha & Hp & Hb & Hprog);
        destruct (whois_fill p o (x :: a)) as [[q outp1] rest]
    end.
    cbn [fst snd] in Ha, Hp, Hb, Hprog.
    destruct (Protocol_armor _ _ _ _) as [armoredId outp].
    assert (Htaken : taken ≠ []) by (apply Hprog; [lia|done]).
    assert (Hlen : length (x :: a) = (length taken + length rest)%nat)
      by (by rewrite Ha at 1; rewrite length_app).
    assert (Htl : (0 < length taken)%nat) by (destruct taken; [done|simpl; lia]).
    match goal with
    | |- context [whois_send_loop fuel ticks root rootPath rest ?w1] =>
        destruct (IH ticks root rootPath rest w1 Hcap) as (pkts & He & Hall & Hsum & Hnil)
    end.
    { simpl in Hlen, Hfuel. lia. }
    exists ((outp, q) :: pkts). split_and!.
    + rewrite He. unfold Peer_send. cbn [events emit fmap list_fmap fst snd].
      by rewrite <- app_assoc.
    + constructor; [|done]. cbn [snd]. split.
      * rewrite Hp. unfold ZT_ADDRESS_LENGTH. lia.
      * apply Hb. unfold ZT_ADDRESS_LENGTH in *. lia.
    + cbn [foldr snd]. rewrite Hsum, Hp, Hlen. unfold ZT_ADDRESS_LENGTH. lia.
    + done.
Qed.

Lemma whois_send_loop_fuel n : ∀ fuel ticks root rootPath a (w : Node),
  ZT_PROTO_PACKET_PAYLOAD_START
    < ZT_DEFAULT_UDP_MTU - ZT_PROTO_MIN_PACKET_LENGTH - ZT_ADDRESS_LENGTH →
  (length a ≤ n)%nat → (n ≤ fuel)%nat →
  whois_send_loop fuel ticks root rootPath a w = whois_send_loop n ticks root rootPath a w.
Proof.
  induction n as [|n IH]; intros fuel ticks root rootPath a w Hcap Hlen Hfuel.
  - destruct a; [|simpl in Hlen; lia]. by destruct fuel.
  - destruct fuel as [|fuel]; [lia|].
    destruct a as [|x a]; [done|]. cbn [whois_send_loop].
    unfold Peer_key_nextMessage.
    match goal with
    | |- context [whois_fill ?p ?o (x :: a)] =>
        destruct (whois_fill_spec (x :: a) p o) as (taken & Ha & Hp & Hb & Hprog);
        destruct (whois_fill p o (x :: a)) as [[q outp1] rest]
    end.
    cbn [fst snd] in Ha, Hp, Hb, Hprog.
    destruct (Protocol_armor _ _ _ _) as [armoredId outp].
    assert (Htaken : taken ≠ []) by (apply Hprog; [lia|done]).
    assert (Hl : length (x :: a) = (length taken + length rest)%nat)
      by (by rewrite Ha at 1; rewrite length_app).
    assert (Htl : (0 < length taken)%nat) by (destruct taken; [done|simpl; lia]).
    simpl in Hl, Hlen. apply IH; [done|lia|lia].
Qed.

(** X22: the send loop of [m_sendPendingWhois], when one address fits in a
    packet, ends after at most one round per address (more rounds change
    nothing); all it does is send packets to the root over the root's path;
    each packet carries at least one address and is shorter than
    [ZT_DEFAULT_UDP_MTU - ZT_PROTO_MIN_PACKET_LENGTH]; together the packets
    carry five bytes for each address due; none is sent when none is due. *)
Theorem X22_the_WHOIS_loop_sends_every_due_address_in_packets_that_fit_the_buffer
    fuel ticks root rootPath a (w : Node) :
  ZT_PROTO_PACKET_PAYLOAD_START
    < ZT_DEFAULT_UDP_MTU - ZT_PROTO_MIN_PACKET_LENGTH - ZT_ADDRESS_LENGTH →
  (length a ≤ fuel)%nat →
  whois_send_loop fuel ticks root rootPath a w
  = whois_send_loop (length a) ticks root rootPath a w
  ∧ ∃ pkts : list (list Z * Z),
      events (whois_send_loop (length a) ticks root rootPath a w)
      = events w ++ ((λ bp, EvPeerSend root bp.1 bp.2 rootPath) <$> pkts)
      ∧ Forall (λ bp, ZT_PROTO_PACKET_PAYLOAD_START < bp.2
                      < ZT_DEFAULT_UDP_MTU - ZT_PROTO_MIN_PACKET_LENGTH) pkts
      ∧ foldr (λ bp acc, (bp.2 - ZT_PROTO_PACKET_PAYLOAD_START) + acc) 0 pkts
        = ZT_ADDRESS_LENGTH * Z.of_nat (length a)
      ∧ (a = [] ↔ pkts = []).
Proof.
  intros Hcap Hfuel. split; [by apply whois_send_loop_fuel|].
  by apply whois_send_loop_sends.
Qed.

Lemma HELLO_peer_log ticks packetId hops id (w : Node) :
  ∃ l, events (HELLO_peer ticks packetId hops id w).2 = events w ++ l
       ∧ match (HELLO_peer ticks packetId hops id w).1 with
         | Some _ => l = []
         | None =>
             l = [] ∨ ∃ code ident reason,
                        l = [EvIncomingPacketDropped code packetId ident hops VERB_HELLO reason]
         end.
Proof.
  unfold HELLO_peer.
  pose proof (Topology_peer_events ticks (id_address id) true w) as He.
  destruct (Topology_peer ticks (id_address id) true w) as [[p|] w0]; cbn [snd] in He.
  - destruct (bool_decide _).
    { eexists. cbn [fst snd incomingPacketDropped emit events]. rewrite He.
      split; [done|]. right. by eexists _, _, _. }
    pose proof (deduplicateIncomingPacket_events p packetId w0) as Hd.
    destruct (deduplicateIncomingPacket p packetId w0) as [[] w2]; cbn [fst snd] in *;
      exists []; rewrite app_nil_r, Hd, He; (split; [done|]); [by left|done].
  - destruct (negb _).
    { eexists. cbn [fst snd incomingPacketDropped emit events]. rewrite He.
      split; [done|]. right. by eexists _, _, _. }
    destruct (Peer_init _ _).
    + match goal with
      | |- context [Topology_add ticks ?h ?w2] =>
          pose proof (Topology_add_events ticks h w2) as Ha;
          destruct (Topology_add ticks h w2) as [p w3]
      end.
      cbn [fst snd] in *. exists []. rewrite app_nil_r, Ha. cbn [events with_objs].
      by rewrite He.
    + eexists. cbn [fst snd incomingPacketDropped emit events]. rewrite He.
      split; [done|]. right. by eexists _, _, _.
Qed.

Lemma HELLO_authenticate_log packetId mac hops protoVersion peer id pkt packetSize (w : Node) :
  match (HELLO_authenticate packetId mac hops protoVersion peer id pkt packetSize w).1 with
  | Some _ => (HELLO_authenticate packetId mac hops protoVersion peer id pkt packetSize w).2 = w
  | None =>
      ∃ code ident verb,
        events (HELLO_authenticate packetId mac hops protoVersion peer id pkt packetSize w).2
        = events w ++ [EvIncomingPacketDropped code packetId ident hops verb MAC_FAILED]
  end.
Proof.
  unfold HELLO_authenticate.
  destruct (11 <=? protoVersion).
  - destruct (packetSize <? ZT_HMACSHA384_LEN); cbn [fst snd]; [by eexists _, _, _|].
    destruct (bool_decide _); cbn [fst snd]; [done|by eexists _, _, _].
  - destruct (ZT_PROTO_PACKET_ENCRYPTED_SECTION_START <? packetSize); cbn [fst snd];
      [|by eexists _, _, _].
    destruct (bool_decide _); cbn [fst snd]; [by eexists _, _, _|done].
Qed.

Lemma HELLO_reply_log packetId timestamp protoVersion versionMajor versionMinor versionRev
    peer path pkt (w : Node) :
  ∃ l, events (HELLO_reply packetId timestamp protoVersion versionMajor versionMinor versionRev
                           peer path pkt w).2 = events w ++ l
       ∧ match (HELLO_reply packetId timestamp protoVersion versionMajor versionMinor versionRev
                            peer path pkt w).1 with
         | Some p =>
             p = peer
             ∧ ∃ bytes len,
                 l = [EvSetRemoteVersion peer protoVersion versionMajor versionMinor versionRev;
                      EvPeerSend peer bytes len path]
         | None => l = []
         end.
Proof.
  unfold HELLO_reply, Peer_key_nextMessage.
  destruct (11 <=? protoVersion).
  - destruct (ZT_BUF_MEM_SIZE <? _); cbn [fst snd].
    + exists []. by rewrite app_nil_r.
    + eexists. split; [|split; [done|by eexists _, _]].
      unfold Peer_send, Peer_setRemoteVersion. cbn [events emit update_peer with_objs].
      by rewrite <- app_assoc.
  - cbn [fst snd]. eexists. split; [|split; [done|by eexists _, _]].
    unfold Peer_send, Peer_setRemoteVersion. cbn [events emit update_peer with_objs].
    by rewrite <- app_assoc.
Qed.

(** X23: what [m_HELLO] does besides changing peers.  When it returns a
    peer it has either recorded the peer's version and sent one reply, on the
    path the HELLO came in on, or it has traced one drop with INVALID_OBJECT
    (code 0x707a9815 or 0x707a9816: the dictionary is malformed, after the
    HMAC was accepted).  When it returns no peer it has sent nothing: it
    made no call at all or traced exactly one drop. *)
Theorem X23_m_HELLO_answers_exactly_the_HELLOs_it_accepts ticks path pkt packetSize (w : Node) :
  ∃ l, events (m_HELLO ticks path pkt packetSize w).2 = events w ++ l
       ∧ match (m_HELLO ticks path pkt packetSize w).1 with
         | Some peer =>
             (∃ bytes len,
                l = [EvSetRemoteVersion peer (byte_at pkt ZT_PROTO_PACKET_PAYLOAD_START)
                       (byte_at pkt (ZT_PROTO_PACKET_PAYLOAD_START + 1))
                       (byte_at pkt (ZT_PROTO_PACKET_PAYLOAD_START + 2))
                       (loadBigEndian pkt (ZT_PROTO_PACKET_PAYLOAD_START + 3) 2);
                     EvPeerSend peer bytes len path])
             ∨ (∃ code ident hops,
                  (code = 0x707a9815 ∨ code = 0x707a9816)
                  ∧ l = [EvIncomingPacketDropped code
                           (loadMachineEndian64 pkt ZT_PROTO_PACKET_ID_INDEX) ident hops
                           VERB_HELLO INVALID_OBJECT])
         | None =>
             l = []
             ∨ ∃ code ident hops verb reason,
                 l = [EvIncomingPacketDropped code
                        (loadMachineEndian64 pkt ZT_PROTO_PACKET_ID_INDEX) ident hops verb reason]
         end.
Proof.
  unfold m_HELLO.
  destruct (_ <? ZT_PROTO_VERSION_MIN).
  { eexists. split; [done|]. right. by eexists _, _, _, _, _. }
  destruct (rO Identity_unmarshal pkt _) as [[ms id] ii].
  destruct (ms <? 0).
  { eexists. split; [done|]. right. by eexists _, _, _, _, _. }
  destruct (bool_decide _).
  { eexists. split; [done|]. right. by eexists _, _, _, _, _. }
  match goal with
  | |- context [HELLO_peer ticks ?pid ?hops id w] =>
      destruct (HELLO_peer_log ticks pid hops id w) as (l0 & He0 & Hl0);
      destruct (HELLO_peer ticks pid hops id w) as [[peer|] w1]
  end; cbn [fst snd] in He0, Hl0.
  2:{ cbn [fst snd]. exists l0. split; [done|]. destruct Hl0 as [-> | (code & ident & reason & ->)]; [by left|].
      right. by eexists _, _, _, _, _. }
  subst l0. rewrite app_nil_r in He0.
  match goal with
  | |- context [HELLO_authenticate ?pid ?mac ?hops ?pv peer id pkt packetSize w1] =>
      pose proof (HELLO_authenticate_log pid mac hops pv peer id pkt packetSize w1) as Ha;
      destruct (HELLO_authenticate pid mac hops pv peer id pkt packetSize w1)
        as [[[pkt1 packetSize1]|] w2]
  end; cbn [fst snd] in Ha.
  2:{ destruct Ha as (code & ident & verb & Ha). cbn [fst snd]. eexists. rewrite Ha, He0.
      split; [done|]. right. by eexists _, _, _, _, _. }
  subst w2. unfold HELLO_finish.
  destruct (rO _ pkt1 ii) as [[ms2 []] ii1].
  destruct (ms2 <? 0).
  { eexists. cbn [fst snd incomingPacketDropped emit events]. rewrite He0.
    split; [done|]. right. by eexists _, _, _, _, _. }
  assert (Hreply : ∀ pkt2,
    ∃ l, events (HELLO_reply (loadMachineEndian64 pkt ZT_PROTO_PACKET_ID_INDEX)
                   (loadBigEndian pkt (ZT_PROTO_PACKET_PAYLOAD_START + 5) 8)
                   (byte_at pkt ZT_PROTO_PACKET_PAYLOAD_START)
                   (byte_at pkt (ZT_PROTO_PACKET_PAYLOAD_START + 1))
                   (byte_at pkt (ZT_PROTO_PACKET_PAYLOAD_START + 2))
                   (loadBigEndian pkt (ZT_PROTO_PACKET_PAYLOAD_START + 3) 2)
                   peer path pkt2 w1).2 = events w ++ l
      ∧ match (HELLO_reply (loadMachineEndian64 pkt ZT_PROTO_PACKET_ID_INDEX)
                 (loadBigEndian pkt (ZT_PROTO_PACKET_PAYLOAD_START + 5) 8)
                 (byte_at pkt ZT_PROTO_PACKET_PAYLOAD_START)
                 (byte_at pkt (ZT_PROTO_PACKET_PAYLOAD_START + 1))
                 (byte_at pkt (ZT_PROTO_PACKET_PAYLOAD_START + 2))
                 (loadBigEndian pkt (ZT_PROTO_PACKET_PAYLOAD_START + 3) 2)
                 peer path pkt2 w1).1 with
        | Some peer0 =>
            (∃ bytes len,
               l = [EvSetRemoteVersion peer0 (byte_at pkt ZT_PROTO_PACKET_PAYLOAD_START)
                      (byte_at pkt (ZT_PROTO_PACKET_PAYLOAD_START + 1))
                      (byte_at pkt (ZT_PROTO_PACKET_PAYLOAD_START + 2))
                      (loadBigEndian pkt (ZT_PROTO_PACKET_PAYLOAD_START + 3) 2);
                    EvPeerSend peer0 bytes len path])
            ∨ (∃ code ident hops,
                 (code = 0x707a9815 ∨ code = 0x707a9816)
                 ∧ l = [EvIncomingPacketDropped code
                          (loadMachineEndian64 pkt ZT_PROTO_PACKET_ID_INDEX) ident hops
                          VERB_HELLO INVALID_OBJECT])
        | None =>
            l = []
            ∨ ∃ code ident hops verb reason,
                l = [EvIncomingPacketDropped code
                       (loadMachineEndian64 pkt ZT_PROTO_PACKET_ID_INDEX) ident hops verb reason]
        end).
  { intros pkt2.
    match goal with
    | |- context [HELLO_reply ?a ?b ?c ?d ?e ?f peer path pkt2 w1] =>
        destruct (HELLO_reply_log a b c d e f peer path pkt2 w1) as (l & He & Hl);
        destruct (HELLO_reply a b c d e f peer path pkt2 w1) as [[p|] w3]
    end; cbn [fst snd] in *; exists l; rewrite He, He0; (split; [done|]).
    - destruct Hl as (-> & bytes & len & ->). left. by eexists _, _.
    - by left. }
  destruct (11 <=? byte_at pkt ZT_PROTO_PACKET_PAYLOAD_START); [|apply Hreply].
  destruct (HELLO_dictionary _ _ _ _); [apply Hreply| | |apply Hreply].
  - eexists. cbn [fst snd incomingPacketDropped emit events]. rewrite He0.
    split; [done|]. right. eexists _, _, _. split; [by left|done].
  - eexists. cbn [fst snd incomingPacketDropped emit events]. rewrite He0.
    split; [done|]. right. eexists _, _, _. split; [by right|done].
Qed.

(** X24: a HELLO of an acceptable protocol version, whose identity
    unmarshals, matches the source address, validates locally and agrees on
    a key, from an address that is neither in the peer map nor in the cache:
    the sender is a registered peer when [m_HELLO] returns, with the identity
    and the key of the HELLO, whether or not the HMAC of the packet is then
    found correct: [Topology::add] is called before authentication. *)
Theorem X24_a_HELLO_registers_an_unknown_sender_before_it_is_authenticated
    ticks path pkt packetSize (w : Node) ms id ii key :
  ZT_PROTO_VERSION_MIN ≤ byte_at pkt ZT_PROTO_PACKET_PAYLOAD_START →
  rO Identity_unmarshal pkt (ZT_PROTO_PACKET_PAYLOAD_START + 13) = (ms, id, ii) →
  0 ≤ ms →
  id_address id = Address_at pkt ZT_PROTO_PACKET_SOURCE_INDEX →
  m_peers w !! id_address id = None →
  m_loadCached ticks (id_address id) w = None →
  Identity_locallyValidate id = true →
  Peer_init (m_identity w) id = Some key →
  stored (id_address id) (new_handle w) id (m_HELLO ticks path pkt packetSize w).2
  ∧ m_identityKey (deref (m_HELLO ticks path pkt packetSize w).2 (new_handle w)) = key.
Proof.
  intros Hver Hid Hms Haddr Hnone Hcache Hvalid Hinit.
  set (w2 := with_objs (<[new_handle w := mkPeer id key 0 (-1) [] None 0 None]> (objs w)) w).
  set (w3 := with_peers (<[id_address id := new_handle w]> (m_peers w)) w2).
  assert (Hpeer : ∀ pid hops, HELLO_peer ticks pid hops id w = (Some (new_handle w), w3)).
  { intros pid hops. unfold HELLO_peer, Topology_peer, m_peerFromCached.
    rewrite Hnone, Hcache, Hvalid, Hinit. cbn [negb]. fold w2.
    assert (Ha : address (deref w2 (new_handle w)) = id_address id).
    { unfold address, deref, w2. cbn [objs with_objs]. by rewrite lookup_insert_eq. }
    unfold Topology_add. rewrite Ha.
    change (m_peers w2) with (m_peers w). rewrite Hnone.
    change (m_loadCached ticks (id_address id) w2) with (m_loadCached ticks (id_address id) w).
    by rewrite Hcache. }
  assert (Hs3 : stored (id_address id) (new_handle w) id w3
                ∧ m_identityKey (deref w3 (new_handle w)) = key).
  { split.
    - split; [apply lookup_insert_eq|]. eexists. split; [apply lookup_insert_eq|done].
    - unfold deref, w3, w2. cbn [objs with_peers with_objs]. by rewrite lookup_insert_eq. }
  set (R := λ w1 w' : Node,
         stored (id_address id) (new_handle w) id w1
         ∧ m_identityKey (deref w1 (new_handle w)) = key →
         stored (id_address id) (new_handle w) id w'
         ∧ m_identityKey (deref w' (new_handle w)) = key).
  assert (Hrefl : ∀ w1, R w1 w1) by (by intros w1 H).
  assert (Htrans : ∀ w1 w4 w5, R w1 w4 → R w4 w5 → R w1 w5) by (intros w1 w4 w5 H1 H2 H; auto).
  assert (Hemit : ∀ e w1, is_handler_call e = false → R w1 (emit e w1)) by (by intros e w1 _ H).
  assert (Hupd : ∀ p f w1,
            (∀ o, m_id (f o) = m_id o ∧ m_identityKey (f o) = m_identityKey o
                  ∧ m_dedup (f o) = m_dedup o) →
            R w1 (update_peer p f w1)).
  { intros p f w1 Hf [Hs Hk]. split.
    - apply stored_update_peer; [|done]. intros o. apply Hf.
    - unfold update_peer, deref at 1. cbn [objs with_objs].
      destruct (decide (p = new_handle w)) as [->|Hne].
      + rewrite lookup_insert_eq. simpl. destruct (Hf (deref w1 (new_handle w))) as (_ & -> & _).
        done.
      + by rewrite lookup_insert_ne. }
  unfold m_HELLO.
  destruct (Z.ltb_spec (byte_at pkt ZT_PROTO_PACKET_PAYLOAD_START) ZT_PROTO_VERSION_MIN); [lia|].
  rewrite Hid. destruct (Z.ltb_spec ms 0); [lia|].
  rewrite bool_decide_eq_false_2 by (intros Hne; by apply Hne).
  rewrite Hpeer.
  match goal with
  | |- context [HELLO_authenticate ?pid ?mac ?hops ?pv ?peer id pkt packetSize w3] =>
      assert (H2 : R w3 (HELLO_authenticate pid mac hops pv peer id pkt packetSize w3).2)
        by (apply (R_HELLO_authenticate R); assumption);
      destruct (HELLO_authenticate pid mac hops pv peer id pkt packetSize w3)
        as [[[pkt1 packetSize1]|] w4]
  end; cbn [snd] in H2; [|by apply H2].
  match goal with
  | |- context [HELLO_finish ?a ?b ?c ?d ?e ?f ?g ?h path pkt1 packetSize1 ii w4] =>
      assert (H3 : R w4 (HELLO_finish a b c d e f g h path pkt1 packetSize1 ii w4).2)
        by (apply (R_HELLO_finish R); assumption)
  end.
  by apply H3, H2.
Qed.

Lemma m_dedup_update_peer p q f (w : Node) :
  (∀ o, m_dedup (f o) = m_dedup o) → m_dedup (deref (update_peer p f w) q) = m_dedup (deref w q).
Proof.
  intros Hf. unfold update_peer, deref at 1. cbn [objs with_objs].
  destruct (decide (p = q)) as [->|Hne].
  - rewrite lookup_insert_eq. simpl. apply Hf.
  - by rewrite lookup_insert_ne.
Qed.

(** X25: a HELLO from a known peer, with the peer's identity, delivered a
    second time, when the dedup ring has at least one slot: the second call
    of [m_HELLO] returns no peer and makes no call and no change, also when
    the first copy was rejected, because the packet id is recorded (by
    [Peer::deduplicateIncomingPacket], as the specification describes it)
    before the HMAC is checked. *)
Theorem X25_a_repeated_HELLO_is_ignored_even_if_the_first_was_not_authentic
    ticks path ticks' path' pkt packetSize (w : Node) ms id ii peer :
  (0 < DEDUP_WINDOW)%nat →
  ZT_PROTO_VERSION_MIN ≤ byte_at pkt ZT_PROTO_PACKET_PAYLOAD_START →
  rO Identity_unmarshal pkt (ZT_PROTO_PACKET_PAYLOAD_START + 13) = (ms, id, ii) →
  0 ≤ ms →
  id_address id = Address_at pkt ZT_PROTO_PACKET_SOURCE_INDEX →
  stored (id_address id) peer id w →
  m_HELLO ticks' path' pkt packetSize (m_HELLO ticks path pkt packetSize w).2
  = (None, (m_HELLO ticks path pkt packetSize w).2).
Proof.
  intros Hwin Hver Hid Hms Haddr Hs.
  set (pid := loadMachineEndian64 pkt ZT_PROTO_PACKET_ID_INDEX).
  set (I := λ w1 : Node, stored (id_address id) peer id w1 ∧ pid ∈ m_dedup (deref w1 peer)).
  assert (Hsecond : ∀ w1, I w1 → m_HELLO ticks' path' pkt packetSize w1 = (None, w1)).
  { intros w1 [(Hm & o & Ho & Hi) Hin]. unfold m_HELLO.
    destruct (Z.ltb_spec (byte_at pkt ZT_PROTO_PACKET_PAYLOAD_START) ZT_PROTO_VERSION_MIN); [lia|].
    rewrite Hid. destruct (Z.ltb_spec ms 0); [lia|].
    rewrite bool_decide_eq_false_2 by (intros Hne; by apply Hne).
    unfold HELLO_peer, Topology_peer. rewrite Hm.
    assert (Hd : m_id (deref w1 peer) = id) by (unfold deref; by rewrite Ho).
    rewrite bool_decide_eq_false_2 by (intros Hne; by apply Hne).
    unfold deduplicateIncomingPacket. fold pid. by rewrite bool_decide_eq_true_2. }
  apply Hsecond.
  set (R := λ w1 w' : Node, I w1 → I w').
  assert (Hrefl : ∀ w1, R w1 w1) by (by intros w1 H).
  assert (Htrans : ∀ w1 w4 w5, R w1 w4 → R w4 w5 → R w1 w5) by (intros w1 w4 w5 H1 H2 H; auto).
  assert (Hemit : ∀ e w1, is_handler_call e = false → R w1 (emit e w1)) by (by intros e w1 _ H).
  assert (Hupd : ∀ p f w1,
            (∀ o, m_id (f o) = m_id o ∧ m_identityKey (f o) = m_identityKey o
                  ∧ m_dedup (f o) = m_dedup o) →
            R w1 (update_peer p f w1)).
  { intros p f w1 Hf [Hst Hin]. split.
    - apply stored_update_peer; [|done]. intros o. apply Hf.
    - rewrite m_dedup_update_peer; [done|]. intros o. apply Hf. }
  unfold m_HELLO.
  destruct (Z.ltb_spec (byte_at pkt ZT_PROTO_PACKET_PAYLOAD_START) ZT_PROTO_VERSION_MIN); [lia|].
  rewrite Hid. destruct (Z.ltb_spec ms 0); [lia|].
  rewrite bool_decide_eq_false_2 by (intros Hne; by apply Hne).
  fold pid.
  assert (Hpeer : ∀ hops, I (HELLO_peer ticks pid hops id w).2
                          ∧ ((HELLO_peer ticks pid hops id w).1 = None
                             ∨ (HELLO_peer ticks pid hops id w).1 = Some peer)).
  { intros hops. destruct Hs as (Hm & o & Ho & Hi).
    unfold HELLO_peer, Topology_peer. rewrite Hm.
    assert (Hd : m_id (deref w peer) = id) by (unfold deref; by rewrite Ho).
    rewrite bool_decide_eq_false_2 by (intros Hne; by apply Hne).
    unfold deduplicateIncomingPacket.
    destruct (decide (pid ∈ m_dedup (deref w peer))) as [Hin|Hnin].
    - rewrite bool_decide_eq_true_2 by done. cbn [fst snd]. split; [|by left].
      split; [|done]. split; [done|]. by exists o.
    - rewrite bool_decide_eq_false_2 by done. cbn [fst snd]. split; [|by right].
      split.
      + apply stored_update_peer; [done|]. split; [done|]. by exists o.
      + unfold update_peer, deref at 1. cbn [objs with_objs]. rewrite lookup_insert_eq.
        cbn [default m_dedup Peer_with_dedup].
        destruct DEDUP_WINDOW; [lia|]. simpl. apply list_elem_of_here. }
  match goal with
  | |- context [HELLO_peer ticks pid ?hops id w] =>
      destruct (Hpeer hops) as (HI & Hres);
      destruct (HELLO_peer ticks pid hops id w) as [[p|] w1]
  end; cbn [fst snd] in HI, Hres; [|done].
  destruct Hres as [?|?]; simplify_eq.
  match goal with
  | |- context [HELLO_authenticate pid ?mac ?hops ?pv peer id pkt packetSize w1] =>
      assert (H2 : R w1 (HELLO_authenticate pid mac hops pv peer id pkt packetSize w1).2)
        by (apply (R_HELLO_authenticate R); assumption);
      destruct (HELLO_authenticate pid mac hops pv peer id pkt packetSize w1)
        as [[[pkt1 packetSize1]|] w4]
  end; cbn [snd] in H2; [|by apply H2].
  match goal with
  | |- context [HELLO_finish ?a ?b ?c ?d ?e ?f ?g ?h path pkt1 packetSize1 ii w4] =>
      assert (H3 : R w4 (HELLO_finish a b c d e f g h path pkt1 packetSize1 ii w4).2)
        by (apply (R_HELLO_finish R); assumption)
  end.
  by apply H3, H2.
Qed.

(** X26: an authenticated OK that is too short to hold the in-re verb
    and packet id ends in [m_OK] with a drop traced as MALFORMED_PACKET (code
    0x4c1f1ff7): the Expect table is not consulted, so a pending expectation
    is not consumed, and [Peer::received] is not called; the packet id is in
    the dedup ring all the same. *)
Theorem X26_a_truncated_OK_is_dropped_before_the_expectation_is_looked_up
    ticks path packetId hops auth peer pkt pktSize (w : Node) :
  ZT_PROTO_MIN_PACKET_LENGTH ≤ pktSize < ZT_PROTO_PACKET_PAYLOAD_START + 22 →
  packetId ∉ m_dedup (deref w peer) →
  byte_at pkt ZT_PROTO_PACKET_VERB_INDEX = VERB_OK →
  ∃ w', process_authenticated ticks path packetId hops auth peer pkt pktSize w = Completed w'
        ∧ events w' = events w ++ [EvHandler VERB_OK packetId auth peer pkt pktSize;
                                   EvIncomingPacketDropped 0x4c1f1ff7 packetId
                                     (m_id (deref w peer)) 0 VERB_OK MALFORMED_PACKET]
        ∧ expect w' = expect w
        ∧ m_lastReceive (deref w' peer) = m_lastReceive (deref w peer)
        ∧ m_dedup (deref w' peer) = take DEDUP_WINDOW (packetId :: m_dedup (deref w peer)).
Proof.
  intros Hsize Hfresh Hverb.
  rewrite process_authenticated_fresh; [|lia|done|by rewrite Hverb].
  rewrite Hverb. change (Z.land VERB_OK ZT_PROTO_VERB_MASK) with VERB_OK.
  unfold dispatch.
  change (VERB_OK =? VERB_NOP) with false. change (VERB_OK =? VERB_HELLO) with false.
  change (VERB_OK =? VERB_OK) with true. cbv iota.
  unfold m_OK, readOverflow.
  change (ZT_PROTO_PACKET_PAYLOAD_START + 13 + 9) with (ZT_PROTO_PACKET_PAYLOAD_START + 22).
  destruct (Z.ltb_spec pktSize (ZT_PROTO_PACKET_PAYLOAD_START + 22)); [|lia].
  eexists. split; [done|].
  unfold incomingPacketDropped, handler_call, identityFromPeerPtr, update_peer, deref.
  cbn [events expect objs emit with_objs]. rewrite lookup_insert_eq. cbn [default].
  split_and!; try done.
  by rewrite <- app_assoc.
Qed.





(** X28: a packet from a known peer, not a HELLO in the clear, whose merged
    size reaches the minimum and whose MAC field equals the first word of the
    Poly1305 tag is accepted, with the packet and size the merge produced:
    with flags AUTHENTICATED alone for cipher POLY1305_NONE, and with
    AUTHENTICATED|ENCRYPTED for POLY1305_SALSA2012. *)
Theorem X28_a_matching_MAC_authenticates_and_only_Salsa_marks_the_packet_encrypted
    ticks path packetId pktv (w : Node) peer wp :
  packet_cipher pktv = ZT_PROTO_CIPHER_POLY1305_NONE ∧ packet_verb pktv ≠ VERB_HELLO
    ∨ packet_cipher pktv = ZT_PROTO_CIPHER_POLY1305_SALSA2012 →
  Topology_peer ticks (packet_source pktv) peer_loadFromCached_default w = (Some peer, wp) →
  (packet_cipher pktv = ZT_PROTO_CIPHER_POLY1305_NONE →
   ZT_PROTO_MIN_PACKET_LENGTH ≤ (merge_poly1305 (m_identityKey (deref wp peer)) packetId pktv).1.1 →
   loadMachineEndian64 (packet_hdr pktv) ZT_PROTO_PACKET_MAC_INDEX
     = (Poly1305_finish
          (pc_poly1305 (merge_poly1305 (m_identityKey (deref wp peer)) packetId pktv).2)).1 →
   authenticate ticks path packetId pktv w
   = AuthContinue ZT_VL1_AUTH_RESULT_FLAG_AUTHENTICATED (Some peer)
       (merge_poly1305 (m_identityKey (deref wp peer)) packetId pktv).1.2
       (merge_poly1305 (m_identityKey (deref wp peer)) packetId pktv).1.1 wp)
  ∧ (packet_cipher pktv = ZT_PROTO_CIPHER_POLY1305_SALSA2012 →
     ZT_PROTO_MIN_PACKET_LENGTH
       ≤ (merge_salsa2012 (m_identityKey (deref wp peer)) packetId pktv).1.1 →
     loadMachineEndian64 (packet_hdr pktv) ZT_PROTO_PACKET_MAC_INDEX
       = (Poly1305_finish
            (sp_poly1305 (merge_salsa2012 (m_identityKey (deref wp peer)) packetId pktv).2)).1 →
     authenticate ticks path packetId pktv w
     = AuthContinue
         (Z.lor ZT_VL1_AUTH_RESULT_FLAG_AUTHENTICATED ZT_VL1_AUTH_RESULT_FLAG_ENCRYPTED)
         (Some peer)
         (merge_salsa2012 (m_identityKey (deref wp peer)) packetId pktv).1.2
         (merge_salsa2012 (m_identityKey (deref wp peer)) packetId pktv).1.1 wp).
Proof.
  intros Hcipher Hpeer.
  assert (Hspecial : ((packet_cipher pktv =? ZT_PROTO_CIPHER_POLY1305_NONE)
                      || (packet_cipher pktv =? ZT_PROTO_CIPHER_NONE))
                     && (packet_verb pktv =? VERB_HELLO) = false).
  { destruct Hcipher as [[_ Hv] | ->]; [|done].
    rewrite (proj2 (Z.eqb_neq _ _) Hv). apply andb_false_r. }
  split.
  - intros Hc Hsize Hmac. unfold authenticate. rewrite Hspecial, Hpeer.
    unfold authenticate_switch. rewrite Hc.
    change (ZT_PROTO_CIPHER_POLY1305_NONE =? ZT_PROTO_CIPHER_POLY1305_NONE) with true.
    cbv iota.
    destruct (merge_poly1305 _ _ _) as [[pktSize pkt] s20cf]. cbn [fst snd] in *.
    destruct (Z.ltb_spec pktSize ZT_PROTO_MIN_PACKET_LENGTH); [lia|].
    by rewrite bool_decide_eq_false_2 by (intros Hne; by apply Hne).
  - intros Hc Hsize Hmac. unfold authenticate. rewrite Hspecial, Hpeer.
    unfold authenticate_switch. rewrite Hc.
    change (ZT_PROTO_CIPHER_POLY1305_SALSA2012 =? ZT_PROTO_CIPHER_POLY1305_NONE) with false.
    change (ZT_PROTO_CIPHER_POLY1305_SALSA2012 =? ZT_PROTO_CIPHER_POLY1305_SALSA2012) with true.
    cbv iota.
    destruct (merge_salsa2012 _ _ _) as [[pktSize pkt] s20cf]. cbn [fst snd] in *.
    destruct (Z.ltb_spec pktSize ZT_PROTO_MIN_PACKET_LENGTH); [lia|].
    by rewrite bool_decide_eq_false_2 by (intros Hne; by apply Hne).
Qed.

Lemma bytes_at_length b i n : length (bytes_at b i n) = Z.to_nat n.
Proof. unfold bytes_at. by rewrite length_fmap, length_seqZ. Qed.

(** X29: decompression of an authenticated packet.  Without the
    compressed flag, or with no payload, the packet is passed on as it is.
    Otherwise a result keeps the 28 header bytes, is never longer than
    [ZT_BUF_MEM_SIZE], and holds no more bytes than its size says; there is
    no result only when the flag is set, there is a payload, and LZ4 reports
    an error or a length beyond the buffer. *)
Theorem X29_decompression_keeps_the_header_and_never_outgrows_the_buffer
    (verbFlags : Z) (pkt : list Z) (pktSize : Z) :
  match decompress verbFlags pkt pktSize with
  | Some (pkt1, pktSize1) =>
      (pkt1 = pkt ∧ pktSize1 = pktSize
       ∧ (Z.land verbFlags ZT_PROTO_VERB_FLAG_COMPRESSED = 0
          ∨ pktSize ≤ ZT_PROTO_PACKET_PAYLOAD_START))
      ∨ (Z.land verbFlags ZT_PROTO_VERB_FLAG_COMPRESSED ≠ 0
         ∧ ZT_PROTO_PACKET_PAYLOAD_START < pktSize
         ∧ take (Z.to_nat ZT_PROTO_PACKET_PAYLOAD_START) pkt1
           = bytes_at pkt 0 ZT_PROTO_PACKET_PAYLOAD_START
         ∧ ZT_PROTO_PACKET_PAYLOAD_START ≤ pktSize1 ≤ ZT_BUF_MEM_SIZE
         ∧ Z.of_nat (length pkt1) ≤ pktSize1)
  | None =>
      Z.land verbFlags ZT_PROTO_VERB_FLAG_COMPRESSED ≠ 0
      ∧ ZT_PROTO_PACKET_PAYLOAD_START < pktSize
      ∧ ((LZ4_decompress_safe
            (bytes_at pkt ZT_PROTO_PACKET_PAYLOAD_START (pktSize - ZT_PROTO_PACKET_PAYLOAD_START))
            (ZT_BUF_MEM_SIZE - ZT_PROTO_PACKET_PAYLOAD_START)).1 < 0
         ∨ ZT_BUF_MEM_SIZE - ZT_PROTO_PACKET_PAYLOAD_START
           < (LZ4_decompress_safe
                (bytes_at pkt ZT_PROTO_PACKET_PAYLOAD_START
                          (pktSize - ZT_PROTO_PACKET_PAYLOAD_START))
                (ZT_BUF_MEM_SIZE - ZT_PROTO_PACKET_PAYLOAD_START)).1)
  end.
Proof.
  unfold decompress.
  destruct (Z.eqb_spec (Z.land verbFlags ZT_PROTO_VERB_FLAG_COMPRESSED) 0) as [Hz|Hnz];
    cbn [negb andb].
  { left. by split_and!; [..|left]. }
  destruct (Z.ltb_spec ZT_PROTO_PACKET_PAYLOAD_START pktSize) as [Hlt|Hge].
  2:{ left. by split_and!; [..|right]. }
  destruct (LZ4_decompress_safe _ _) as [uncompressedLen out]. cbn [fst].
  destruct (Z.leb_spec 0 uncompressedLen) as [H0|H0]; cbn [andb].
  2:{ split_and!; [done|done|by left]. }
  destruct (Z.leb_spec uncompressedLen (ZT_BUF_MEM_SIZE - ZT_PROTO_PACKET_PAYLOAD_START))
    as [H1|H1].
  2:{ split_and!; [done|done|by right]. }
  right. split_and!; [done|done|..].
  - rewrite take_app_length'; [done|]. by rewrite bytes_at_length.
  - lia.
  - lia.
  - rewrite length_app, bytes_at_length. rewrite length_take.
    unfold ZT_PROTO_PACKET_PAYLOAD_START. lia.
Qed.

End VL1_more.

(** * The rule result log of Trace.hpp *)

Lemma land_1 (x : Z) : Z.land x 1 = x `mod` 2.
Proof. exact (Z.land_ones x 1 ltac:(lia)). Qed.


Lemma forallb_seqZ (f : Z → bool) (m n x : Z) :
  forallb f (seqZ m n) = true → m ≤ x < m + n → f x = true.
Proof.
  intros H Hx. rewrite forallb_forall in H. apply H, list_elem_of_In, elem_of_seqZ. lia.
Qed.

Lemma field_check_all b value : 0 ≤ b < 256 → 0 ≤ value < 16 → field_check b value = true.
Proof.
  intros Hb Hv.
  apply (forallb_seqZ (field_check b) 0 16); [|lia].
  apply (forallb_seqZ (λ b, forallb (field_check b) (seqZ 0 16)) 0 256); [|lia].
  vm_compute. reflexivity.
Qed.

Lemma RuleResultLog_get_or (rn value : Z) (l : list Z) b :
  0 ≤ rn → 0 ≤ value < 16 →
  l !! Z.to_nat (Z.shiftr rn 1) = Some b → 0 ≤ b < 256 →
  RuleResultLog_get rn (RuleResultLog_or rn value l)
  = Z.lor (RuleResultLog_get rn l) value
  ∧ (∀ rn', 0 ≤ rn' → rn' ≠ rn →
            RuleResultLog_get rn' (RuleResultLog_or rn value l) = RuleResultLog_get rn' l)
  ∧ length (RuleResultLog_or rn value l) = length l.
Proof.
  intros Hrn Hv Hb Hbr.
  assert (Hlt : (Z.to_nat (Z.shiftr rn 1) < length l)%nat) by (by eapply lookup_lt_Some).
  unfold RuleResultLog_or. rewrite Hb.
  assert (Hpar : Z.land rn 1 = 0 ∨ Z.land rn 1 = 1).
  { rewrite land_1. pose proof (Z.mod_pos_bound rn 2). lia. }
  pose proof (field_check_all b value Hbr Hv) as Hf.
  unfold field_check in Hf. rewrite !andb_true_iff, !Z.eqb_eq in Hf.
  destruct Hf as (((Hlo & Hhi) & Hlo') & Hhi').
  split_and!.
  - unfold RuleResultLog_get. rewrite list_lookup_insert_eq by done. rewrite Hb. cbn [default].
    unfold RuleResultLog_field.
    by destruct Hpar as [-> | ->].
  - intros rn' Hrn' Hne. unfold RuleResultLog_get.
    destruct (decide (Z.to_nat (Z.shiftr rn' 1) = Z.to_nat (Z.shiftr rn 1))) as [Heq|Hneq].
    2:{ by rewrite list_lookup_insert_ne. }
    rewrite Heq, list_lookup_insert_eq by done. rewrite Hb. cbn [default].
    assert (Hsh : Z.shiftr rn' 1 = Z.shiftr rn 1).
    { pose proof (Z.shiftr_nonneg rn 1). pose proof (Z.shiftr_nonneg rn' 1). lia. }
    assert (Hpar' : Z.land rn' 1 = 0 ∨ Z.land rn' 1 = 1).
    { rewrite land_1. pose proof (Z.mod_pos_bound rn' 2). lia. }
    assert (Hdiff : Z.land rn' 1 ≠ Z.land rn 1).
    { intros Hp. apply Hne.
      rewrite (Z.div_mod rn 2), (Z.div_mod rn' 2) by lia.
      rewrite !Z.shiftr_div_pow2 in Hsh by lia.
      rewrite !land_1 in Hp.
      change (2 ^ 1) with 2 in *. lia. }
    unfold RuleResultLog_field.
    destruct Hpar as [Hp | Hp], Hpar' as [Hp' | Hp']; rewrite Hp, Hp' in *; try congruence; done.
  - by rewrite length_insert.
Qed.

(** X30: [RuleResultLog::log] and [logSkipped] with match values of at
    most 2 and a rule number within the log.  On a cleared log the 4-bit
    field of rule [rn] reads ((thisRuleMatches + 1) << 2) | (thisSetMatches +
    1) after [log] and thisSetMatches + 1 after [logSkipped]; on any log the
    fields of all other rules, also the one that shares the byte, read as
    before. *)
Theorem X30_RuleResultLog_log_writes_one_field_and_leaves_the_others
    (rn thisRuleMatches thisSetMatches : Z) (l : list Z) :
  0 ≤ rn < 2 * Z.of_nat (length l) →
  0 ≤ thisRuleMatches ≤ 2 → 0 ≤ thisSetMatches ≤ 2 →
  RuleResultLog_get rn (RuleResultLog_log rn thisRuleMatches thisSetMatches
                          (RuleResultLog_clear l))
  = 4 * (thisRuleMatches + 1) + (thisSetMatches + 1)
  ∧ RuleResultLog_get rn (RuleResultLog_logSkipped rn thisSetMatches (RuleResultLog_clear l))
    = thisSetMatches + 1
  ∧ (∀ rn' l', 0 ≤ rn' → rn' ≠ rn →
       length l' = length l → Forall (λ b, 0 ≤ b < 256) l' →
       RuleResultLog_get rn' (RuleResultLog_log rn thisRuleMatches thisSetMatches l')
       = RuleResultLog_get rn' l'
       ∧ RuleResultLog_get rn' (RuleResultLog_logSkipped rn thisSetMatches l')
         = RuleResultLog_get rn' l').
Proof.
  intros Hrn Hr Hs.
  assert (Hidx : (Z.to_nat (Z.shiftr rn 1) < length l)%nat).
  { rewrite Z.shiftr_div_pow2 by lia. change (2 ^ 1) with 2.
    assert (rn `div` 2 < Z.of_nat (length l)) by (apply Z.div_lt_upper_bound; lia).
    pose proof (Z.div_pos rn 2). lia. }
  assert (Hclear : RuleResultLog_clear l !! Z.to_nat (Z.shiftr rn 1) = Some 0).
  { unfold RuleResultLog_clear. by apply lookup_replicate_2. }
  assert (Hget0 : RuleResultLog_get rn (RuleResultLog_clear l) = 0).
  { unfold RuleResultLog_get. rewrite Hclear. cbn [default]. by rewrite Z.shiftr_0_l. }
  assert (Hval : Z.lor (Z.shiftl (thisRuleMatches + 1) 2) (thisSetMatches + 1)
                 = 4 * (thisRuleMatches + 1) + (thisSetMatches + 1)).
  { assert (Hc : (thisRuleMatches = 0 ∨ thisRuleMatches = 1 ∨ thisRuleMatches = 2)
                 ∧ (thisSetMatches = 0 ∨ thisSetMatches = 1 ∨ thisSetMatches = 2)) by lia.
    by destruct Hc as [[-> | [-> | ->]] [-> | [-> | ->]]]. }
  split_and!.
  - unfold RuleResultLog_log.
    destruct (RuleResultLog_get_or rn
                (Z.lor (Z.shiftl (thisRuleMatches + 1) 2) (thisSetMatches + 1))
                (RuleResultLog_clear l) 0) as (-> & _); [lia|rewrite Hval; lia|done|lia|].
    by rewrite Hget0, Z.lor_0_l.
  - unfold RuleResultLog_logSkipped.
    destruct (RuleResultLog_get_or rn (thisSetMatches + 1) (RuleResultLog_clear l) 0)
      as (-> & _); [lia|lia|done|lia|].
    by rewrite Hget0, Z.lor_0_l.
  - intros rn' l' Hrn' Hne Hlen Hbytes.
    assert (Hidx' : (Z.to_nat (Z.shiftr rn 1) < length l')%nat) by lia.
    destruct (lookup_lt_is_Some_2 l' _ Hidx') as [b Hb].
    assert (Hbr : 0 ≤ b < 256).
    { apply (proj1 (Forall_forall _ _) Hbytes). by eapply list_elem_of_lookup_2. }
    split.
    + unfold RuleResultLog_log.
      destruct (RuleResultLog_get_or rn
                  (Z.lor (Z.shiftl (thisRuleMatches + 1) 2) (thisSetMatches + 1)) l' b)
        as (_ & Hother & _); [lia|rewrite Hval; lia|done|done|].
      by apply Hother.
    + unfold RuleResultLog_logSkipped.
      destruct (RuleResultLog_get_or rn (thisSetMatches + 1) l' b)
        as (_ & Hother & _); [lia|lia|done|done|].
      by apply Hother.
Qed.

(** * The further properties on the reference configuration *)


Lemma X4_witness :
  @Topology_root ref_collaborators
    (@m_rankRoots ref_constants ref_collaborators (roots_by_latency [3; 4])) = Some 4
  ∧ m_latency (@deref ref_collaborators (roots_by_latency [3; 4]) 3)
    ≤ m_latency (@deref ref_collaborators (roots_by_latency [3; 4]) 4).
Proof.
  destruct (@X4_ranking_sorts_the_roots_whose_latency_is_known ref_constants ref_collaborators
              (roots_by_latency [3; 4])) as [_ Hbest].
  - apply Forall_forall. repeat constructor; run.
  - split; [run|].
    apply (Hbest 4 3); [run | apply list_elem_of_here | run].
Defined.

Lemma X9_witness :
  (copy_chunks (@p_PolyCopyFunction_call ref_collaborators)
     (@p_PolyCopyFunction_new ref_constants ref_collaborators [7; 7] 5)
     [seqZ 1 20; seqZ 21 20]).2 = seqZ 1 40
  ∧ pc_poly1305 (copy_chunks (@p_PolyCopyFunction_call ref_collaborators)
                   (@p_PolyCopyFunction_new ref_constants ref_collaborators [7; 7] 5)
                   [seqZ 1 20; seqZ 21 20]).1 = seqZ 28 13.
Proof.
  destruct (@X9_PolyCopyFunction_copies_all_and_authenticates_past_the_header
              ref_collaborators
              (@p_PolyCopyFunction_new ref_constants ref_collaborators [7; 7] 5)
              [seqZ 1 20; seqZ 21 20]) as (Hc & Hp & _); [run|].
  split; [rewrite Hc; run | rewrite Hp; run].
Defined.

Lemma X11_witness :
  take 27 (copy_chunks (@p_SalsaPolyCopyFunction_call ref_collaborators)
             (@p_SalsaPolyCopyFunction_new ref_constants ref_collaborators [7; 7] 5)
             [seqZ 1 20; seqZ 21 20]).2 = seqZ 1 27.
Proof.
  destruct (@X11_SalsaPolyCopyFunction_leaves_the_header_in_the_clear
              ref_collaborators
              (@p_SalsaPolyCopyFunction_new ref_constants ref_collaborators [7; 7] 5)
              [seqZ 1 20; seqZ 21 20]) as (_ & Ht & _); [run | intros; reflexivity |].
  etransitivity; [exact Ht | run].
Defined.


Lemma X16_witness :
  @onRemotePacket ref_constants ref_collaborators 5000 1 99 [1; 2; 3] 3 node1
  = @enter ref_collaborators 5000 1 99 3 node1.
Proof.
  apply (@X16_short_and_foreign_datagrams_are_dropped_without_a_trace
           ref_constants ref_collaborators 5000 1 99 [1; 2; 3] 3 node1).
  left. run.
Defined.

Lemma X17_witness :
  events (@onRemotePacket ref_constants ref_collaborators 5000 1 99 datagram_fragment 20 node1)
  = events node1.
Proof.
  destruct (@X17_a_fragment_that_does_not_complete_a_packet_only_feeds_the_assembler
              ref_constants ref_collaborators 5000 1 99 datagram_fragment 20 node1)
    as [(_ & _ & _ & _ & _ & _ & _ & _ & He) _]; [run | run | left; split; run |].
  exact He.
Defined.




Lemma X21_witness :
  @m_sendPendingWhois ref_constants ref_collaborators 5000
    (@m_sendPendingWhois ref_constants ref_collaborators 5000 node_waiting)
  = @m_sendPendingWhois ref_constants ref_collaborators 5000 node_waiting
  ∧ ∃ item',
      m_whoisQueue (@m_sendPendingWhois ref_constants ref_collaborators 5000 node_waiting)
        !! 0x0303030303 = Some item'
      ∧ lastRetry item' = 5000 ∧ retries item' = retries waiting_item + 1.
Proof.
  destruct (@X21_WHOIS_requests_are_not_repeated_before_the_retry_delay
              ref_constants ref_collaborators 5000 node_waiting) as (Hi & _ & Hs); [run|].
  split; [exact Hi|].
  apply (Hs 2 (1, 77) 0x0303030303 waiting_item); run.
Defined.

Lemma X22_witness :
  @whois_send_loop ref_constants ref_collaborators 5 5000 2 (1, 77) [1; 2; 3] node2
  = @whois_send_loop ref_constants ref_collaborators 3 5000 2 (1, 77) [1; 2; 3] node2.
Proof.
  apply (@X22_the_WHOIS_loop_sends_every_due_address_in_packets_that_fit_the_buffer
           ref_constants ref_collaborators 5 5000 2 (1, 77) [1; 2; 3] node2); [run|].
  vm_compute. lia.
Defined.

Lemma X24_witness :
  (@m_HELLO ref_constants ref_collaborators 5000 (1, 99) hello_forged 118 node1).1 = None
  ∧ stored 0x0303030303 (@new_handle ref_collaborators node1) (mkIdentity 0x0303030303 0 [9])
           (@m_HELLO ref_constants ref_collaborators 5000 (1, 99) hello_forged 118 node1).2.
Proof.
  edestruct (@X24_a_HELLO_registers_an_unknown_sender_before_it_is_authenticated
               ref_constants ref_collaborators 5000 (1, 99) hello_forged 118 node1)
    as (Hs & _); [run | run | run | run | run | run | run | run |].
  split; [run | exact Hs].
Defined.

Lemma X25_witness :
  (@m_HELLO ref_constants ref_collaborators 5000 (1, 99) hello_known 118 node1).1 = None
  ∧ @m_HELLO ref_constants ref_collaborators 5001 (1, 99) hello_known 118
      (@m_HELLO ref_constants ref_collaborators 5000 (1, 99) hello_known 118 node1).2
    = (None, (@m_HELLO ref_constants ref_collaborators 5000 (1, 99) hello_known 118 node1).2).
Proof.
  split; [run|].
  eapply (@X25_a_repeated_HELLO_is_ignored_even_if_the_first_was_not_authentic
            ref_constants ref_collaborators 5000 (1, 99) 5001 (1, 99) hello_known 118 node1);
    [vm_compute; lia | run | run | run | run | split; [run | eexists; split; run]].
Defined.

Lemma X26_witness :
  ∃ w', @process_authenticated ref_constants ref_collaborators 5000 (1, 99) 7 0 3 1
          (ok_packet 7 1) 40 node_expecting = Completed w'
        ∧ expect w' = expect node_expecting
        ∧ m_lastReceive (@deref ref_collaborators w' 1) = 0.
Proof.
  destruct (@X26_a_truncated_OK_is_dropped_before_the_expectation_is_looked_up
              ref_constants ref_collaborators 5000 (1, 99) 7 0 3 1 (ok_packet 7 1) 40
              node_expecting) as (w' & Hp & _ & He & Hl & _);
    [run | apply not_elem_of_nil | run |].
  exists w'. split; [exact Hp|]. split; [exact He|]. rewrite Hl. run.
Defined.


Lemma X28_witness :
  ∃ pkt, @authenticate ref_constants ref_collaborators 5000 (1, 99) 0x1122334455667788
           [mkSlice datagram_salsa 0 68] node1
         = AuthContinue 3 (Some 1) pkt 68 node1.
Proof.
  edestruct (@X28_a_matching_MAC_authenticates_and_only_Salsa_marks_the_packet_encrypted
               ref_constants ref_collaborators 5000 (1, 99) 0x1122334455667788
               [mkSlice datagram_salsa 0 68] node1) as [_ Hs]; [right; run | run |].
  eexists. etransitivity; [apply Hs; run | run].
Defined.

Lemma X30_witness :
  RuleResultLog_get 3 (RuleResultLog_log 3 1 0 (RuleResultLog_clear [7; 7; 7; 7])) = 9
  ∧ RuleResultLog_get 2 (RuleResultLog_log 3 1 0 [0x05; 0x05; 0; 0]) = 5.
Proof.
  destruct (X30_RuleResultLog_log_writes_one_field_and_leaves_the_others 3 1 0 [7; 7; 7; 7])
    as (Hl & _ & Ho); [simpl; lia | lia | lia |].
  split; [rewrite Hl; run|].
  destruct (Ho 2 [0x05; 0x05; 0; 0]) as [-> _]; [lia | lia | reflexivity | | run].
  repeat constructor; lia.
Defined.
